(** * releases: the changelog partitioner and assembler

    A shallow embedding of [releases/__init__.py]: the Sphinx extension that
    turns a flat changelog (issue items and release markers, newest first)
    into per-release sections.  The embedding follows the Python source
    function by function; Python exceptions are values of [exn], dicts are
    finite maps, and the docutils node tree is an inductive type.  For what
    [construct_nodes] writes to the objects it is given, the function is
    also embedded over a store of objects with identity. *)

From Stdlib Require Import Strings.String Strings.Ascii NArith.
From stdpp Require Import gmap strings list fin_maps.

(** ** Exceptions and the error monad *)

Inductive exn :=
| ValueError (msg : string)
| KeyError (key : string)
| IndexError
| AttributeError
| TypeError
| RecursionError.

Inductive result (A : Type) :=
| Ok (a : A)
| Raise (e : exn).
Arguments Ok {A} a.
Arguments Raise {A} e.

#[global] Instance result_ret : MRet result := fun _ a => Ok a.
#[global] Instance result_bind : MBind result := fun _ _ f m =>
  match m with
  | Ok a => f a
  | Raise e => Raise e
  end.

Definition raises {A} (m : result A) : Prop := exists e, m = Raise e.

(** A [for] loop whose body may raise: the state is threaded from left to
    right and the first exception aborts the loop. *)
Fixpoint foldM {A B} (body : A -> B -> result A) (a : A) (l : list B) : result A :=
  match l with
  | [] => Ok a
  | x :: l' => a' ← body a x; foldM body a' l'
  end.

(** A list comprehension whose element expression may raise. *)
Fixpoint forM {A B} (f : A -> result B) (l : list A) : result (list B) :=
  match l with
  | [] => Ok []
  | x :: l' => y ← f x; ys ← forM f l'; Ok (y :: ys)
  end.

(** A list comprehension [[x for x in l if p x]] whose condition may raise. *)
Fixpoint filterM {A} (p : A -> result bool) (l : list A) : result (list A) :=
  match l with
  | [] => Ok []
  | x :: l' => b ← p x; ys ← filterM p l'; Ok (if b : bool then x :: ys else ys)
  end.

(** ** Python string primitives used by the module *)

(** [s.split(sep)] for a one-character separator: never empty, keeps empty
    fields. *)
Fixpoint split (sep : ascii) (s : string) : list string :=
  match s with
  | EmptyString => [EmptyString]
  | String c s' =>
      if Ascii.eqb c sep then EmptyString :: split sep s'
      else match split sep s' with
           | [] => [String c EmptyString]
           | w :: ws => String c w :: ws
           end
  end.

(** [sep.join(l)] *)
Definition join (sep : string) (l : list string) : string := String.concat sep l.

(** [c.isspace()] on the ASCII range. *)
Definition isspace (c : ascii) : bool :=
  let n := nat_of_ascii c in
  ((9 <=? n) && (n <=? 13)) || ((28 <=? n) && (n <=? 32)).

Fixpoint lstrip (s : string) : string :=
  match s with
  | EmptyString => EmptyString
  | String c s' => if isspace c then lstrip s' else s
  end.

Fixpoint rstrip (s : string) : string :=
  match s with
  | EmptyString => EmptyString
  | String c s' =>
      match rstrip s' with
      | EmptyString => if isspace c then EmptyString else String c EmptyString
      | r => String c r
      end
  end.

(** [s.strip()] *)
Definition strip (s : string) : string := rstrip (lstrip s).

(** The double-quote character, for the HTML fragments. *)
Definition dq : string := String (ascii_of_nat 34) EmptyString.

(** ** distutils.version.LooseVersion

    The standard-library class the module uses to compare release lines.
    [parse] splits the string with the pattern [(\d+ | [a-z]+ | \.)], drops
    empty pieces and dots, and turns digit runs into integers; comparison is
    Python 3 list comparison of the component lists, which raises TypeError
    when the first differing components are an integer and a string. *)

Inductive component :=
| CInt (n : N)
| CStr (s : string).

Inductive cclass := Digit | Lower | Dot | Other.

Definition classify (c : ascii) : cclass :=
  let n := nat_of_ascii c in
  if (48 <=? n) && (n <=? 57) then Digit
  else if (97 <=? n) && (n <=? 122) then Lower
  else if n =? 46 then Dot
  else Other.

Definition cclass_eqb (a b : cclass) : bool :=
  match a, b with
  | Digit, Digit | Lower, Lower | Other, Other => true
  | _, _ => false
  end.

(** The pieces of [component_re.split(vstring)] that are not empty: maximal
    runs of digits, of lower-case letters and of other characters; every dot
    is a piece of its own. *)
Fixpoint pieces (s : string) : list (cclass * string) :=
  match s with
  | EmptyString => []
  | String c s' =>
      let k := classify c in
      match pieces s' with
      | (k', w) :: ps =>
          if cclass_eqb k k' then (k, String c w) :: ps
          else (k, String c EmptyString) :: (k', w) :: ps
      | [] => [(k, String c EmptyString)]
      end
  end.

(** [int(s)] on a run of decimal digits. *)
Definition int_of_digits (s : string) : N :=
  fold_left (fun acc c => (10 * acc + (N_of_ascii c - 48))%N) (list_ascii_of_string s) 0%N.

Definition parse (vstring : string) : list component :=
  omap (fun p : cclass * string =>
          match p.1 with
          | Dot => None
          | Digit => Some (CInt (int_of_digits p.2))
          | _ => Some (CStr p.2)
          end) (pieces vstring).

(** [LooseVersion(vstring).version]: the constructor only parses a non-empty
    string, so the attribute is missing for the empty one. *)
Definition LooseVersion (vstring : string) : result (list component) :=
  match vstring with
  | EmptyString => Raise AttributeError
  | _ => Ok (parse vstring)
  end.

Definition component_eqb (a b : component) : bool :=
  match a, b with
  | CInt m, CInt n => N.eqb m n
  | CStr s, CStr t => String.eqb s t
  | _, _ => false
  end.

(** Python's [a < b] on lists: the first pair of unequal components decides;
    a proper prefix is smaller. *)
Fixpoint list_lt (a b : list component) : result bool :=
  match a, b with
  | [], [] => Ok false
  | [], _ :: _ => Ok true
  | _ :: _, [] => Ok false
  | x :: a', y :: b' =>
      if component_eqb x y then list_lt a' b'
      else match x, y with
           | CInt m, CInt n => Ok (N.ltb m n)
           | CStr s, CStr t => Ok (String.ltb s t)
           | _, _ => Raise TypeError
           end
  end.

(** [LooseVersion(x) >= LooseVersion(y)] *)
Definition version_ge (x y : string) : result bool :=
  a ← LooseVersion x;
  b ← LooseVersion y;
  lt ← list_lt a b;
  Ok (negb lt).

(** ** The docutils node tree, with the two intermediate node classes *)

(** The keys of [issue_types]. *)
Inductive issue_type := bug | feature | support.

(** The attributes of an [issue] element.  [description] is attached by
    [construct_releases]; it is absent on the issue elements that sit inside
    a description. *)
Record issue_of (N : Type) := Issue {
  number : option string;
  type_ : issue_type;
  backported : bool;
  major : bool;
  line : option string;
  nodelist : list N;
  description : option (list N)
}.
Arguments Issue {N}.
Arguments number {N}.
Arguments type_ {N}.
Arguments backported {N}.
Arguments major {N}.
Arguments line {N}.
Arguments nodelist {N}.
Arguments description {N}.

(** The attributes of a [release] element. *)
Record release_of (N : Type) := Release {
  release_number : string;
  date : option string;
  release_nodelist : list N
}.
Arguments Release {N}.
Arguments release_number {N}.
Arguments date {N}.
Arguments release_nodelist {N}.

(** A docutils node: a text leaf, a generic element (raw, inline, reference,
    section, paragraph, list_item, bullet_list) with its attributes and
    children, or one of the two intermediate elements, which have no
    children. *)
#[warnings="-register-all"]
Inductive node :=
| Text (s : string)
| Elem (tag : string) (attrs : list (string * string)) (children : list node)
| IssueEl (i : issue_of node)
| ReleaseEl (r : release_of node).

Abbreviation issue := (issue_of node).
Abbreviation release := (release_of node).

(** [issue_types[name]]: the badge colour. *)
Definition issue_types (name : issue_type) : string :=
  match name with
  | bug => "A04040"
  | feature => "40A056"
  | support => "4070A0"
  end.

(** [name.capitalize()] *)
Definition capitalize (name : issue_type) : string :=
  match name with
  | bug => "Bug"
  | feature => "Feature"
  | support => "Support"
  end.

(** [nodes.raw(text=t, format='html')] and [nodes.inline(text=t)]: text
    elements whose text becomes their only child. *)
Definition raw (t : string) : node := Elem "raw" [("format", "html")] [Text t].
Definition inline (t : string) : node := Elem "inline" [] [Text t].

Definition issue_nodelist (name : issue_type) (link : option node) : list node :=
  let which := "[<span style=" +:+ dq +:+ "color: #" +:+ issue_types name +:+ ";" +:+ dq
               +:+ ">" +:+ capitalize name +:+ "</span>]" in
  let signifier := [raw which] in
  let hyperlink := match link with Some l => [inline " "; l] | None => [] end in
  let trail := match link with Some _ => [] | None => [inline " "] end in
  signifier ++ hyperlink ++ [inline ":"] ++ trail.

(** The part of the Sphinx configuration the module reads:
    [releases_release_uri cfg slug] stands for
    [config.releases_release_uri % slug], and likewise for the issue URI. *)
Record config := Config {
  releases_release_uri : string -> string;
  releases_issue_uri : string -> string
}.

Definition release_nodes (text slug : string) (date : option string) (cfg : config) : node :=
  let link := "<a class=" +:+ dq +:+ "reference external" +:+ dq +:+ " href=" +:+ dq
              +:+ releases_release_uri cfg slug +:+ dq +:+ ">" +:+ text +:+ "</a>" in
  let datespan :=
    match date with
    | Some (String c d) =>
        " <span style=" +:+ dq +:+ "font-size: 75%%;" +:+ dq +:+ ">" +:+ String c d +:+ "</span>"
    | _ => EmptyString
    end in
  let header := "<h2 style=" +:+ dq +:+ "margin-bottom: 0.3em;" +:+ dq +:+ ">"
                +:+ link +:+ datespan +:+ "</h2>" in
  Elem "section" [("ids", text)] [raw header].

(** ** The roles that build the intermediate elements *)

(** [text.partition(' ')]: the text before the first space and the text
    after it. *)
Fixpoint partition_space (text : string) : string * string :=
  match text with
  | EmptyString => (EmptyString, EmptyString)
  | String c s =>
      if Ascii.eqb c " " then (EmptyString, s)
      else let (h, t) := partition_space s in (String c h, t)
  end.

(** The longest prefix of decimal digits, and what follows it. *)
Fixpoint span_digits (s : string) : string * string :=
  match s with
  | EmptyString => (EmptyString, EmptyString)
  | String c s' =>
      match classify c with
      | Digit => let (d, r) := span_digits s' in (String c d, r)
      | _ => (EmptyString, s)
      end
  end.

(** [release_line_re.match(ported)], pattern [\((\d+\.\d+)\+\)]: the
    group of a match at the start of [ported], e.g. 1.2 for (1.2+). *)
Definition release_line_re (ported : string) : option string :=
  match ported with
  | String "(" s =>
      match span_digits s with
      | ((String _ _) as major_no, String "." s') =>
          match span_digits s' with
          | ((String _ _) as minor_no, String "+" (String ")" _)) =>
              Some (major_no +:+ "." +:+ minor_no)
          | _ => None
          end
      | _ => None
      end
  | _ => None
  end.

Definition unknown_metadata (ported : string) (issue_no : option string) : exn :=
  ValueError ("Gave unknown issue metadata '" +:+ ported +:+ "' for issue no. "
              +:+ default "None" issue_no).

(** [nodes.reference(rawtext, '#' + issue_no, refuri=ref)] *)
Definition issue_link (issue_no : string) (cfg : config) : node :=
  Elem "reference" [("refuri", releases_issue_uri cfg issue_no)] [Text ("#" +:+ issue_no)].

(** [''.join(text.split(sep))] for the two-character separator [a b]: the
    occurrences of the separator are dropped, from left to right. *)
Fixpoint remove_pair (a b : ascii) (s : string) : string :=
  match s with
  | String c ((String c' s'') as s') =>
      if Ascii.eqb c a && Ascii.eqb c' b then remove_pair a b s''
      else String c (remove_pair a b s')
  | _ => s
  end.

(** [''.join(text.split(sep))] for the one-character separator [a]. *)
Fixpoint remove_char (a : ascii) (s : string) : string :=
  match s with
  | EmptyString => EmptyString
  | String c s' => if Ascii.eqb c a then remove_char a s' else String c (remove_char a s')
  end.

(** [docutils.utils.unescape(text)]: the parser has turned every backslash
    of the role text into a null character; the loop
    [for sep in ['\x00 ', '\x00\n', '\x00']: text = ''.join(text.split(sep))]
    drops the escaped spaces, then the escaped newlines, then the nulls that
    are left. *)
Definition unescape (text : string) : string :=
  remove_char "000" (remove_pair "000" "010" (remove_pair "000" " " text)).

(** [issues_role] for the roles bug, feature and support: the issue element
    of a ticket text such as [22], [22 backported], [22 major] or
    [22 (1.2+)]; the ticket numbers [-] and [0] give no hyperlink and no
    number. *)
Definition issues_role (name : issue_type) (text : string) (cfg : config) : result node :=
  let (no, ported) := partition_space (unescape text) in
  let linked := negb (String.eqb no "-" || String.eqb no "0") in
  let link := if linked then Some (issue_link no cfg) else None in
  let issue_no := if linked then Some no else None in
  let nodelist := issue_nodelist name link in
  min_line ←
    (if String.eqb ported "backported" || String.eqb ported "major"
        || String.eqb ported EmptyString
     then Ok None
     else match release_line_re ported with
          | None => Raise (unknown_metadata ported issue_no)
          | Some l => Ok (Some l)
          end);
  Ok (IssueEl (Issue issue_no name (String.eqb ported "backported")
                     (String.eqb ported "major") min_line nodelist None)).

(** The release element [release_role] builds once its text has been split
    into the number and the date. *)
Definition release_element (number date : string) (cfg : config) : node :=
  ReleaseEl (Release number (Some date) [release_nodes number number (Some date) cfg]).

(** [get_line]: 1.2.7 -> 1.2 *)
Definition get_line (obj : release) : string :=
  join "." (removelast (split "." (release_number obj))).

(** ** Object identity

    Buckets, the registry and the releases hold references to issue objects,
    and Python compares docutils elements by identity.  Every issue that
    reaches a bucket is the focus of one changelog item (or the bug created
    to wrap it), so an object is identified by the position [pos] of that
    item in the order of processing. *)
Record issue_ref := IssueRef {
  pos : nat;
  target : issue
}.

Definition same (x y : issue_ref) : bool := Nat.eqb (pos x) (pos y).

(** [x in l] *)
Definition py_in (x : issue_ref) (l : list issue_ref) : bool := existsb (same x) l.

(** [l.remove(x)]: drops the first occurrence, ValueError when there is none. *)
Fixpoint list_remove (x : issue_ref) (l : list issue_ref) : result (list issue_ref) :=
  match l with
  | [] => Raise (ValueError "list.remove(x): x not in list")
  | y :: l' => if same x y then Ok l' else l'' ← list_remove x l'; Ok (y :: l'')
  end.

(** One entry of the list [construct_releases] returns. *)
Record release_dict := ReleaseDict {
  obj : release;
  entries : list issue_ref
}.

(** The three locals the loop of [construct_releases] mutates. *)
Record state := State {
  releases : list release_dict;
  lines : gmap string (list issue_ref);
  issues : gmap (option string) issue_ref
}.

Definition unreleased_bugfix : string := "unreleased_bugfix".
Definition unreleased_feature : string := "unreleased_feature".

(** [lines[k]] *)
Definition getitem (lines : gmap string (list issue_ref)) (k : string)
  : result (list issue_ref) :=
  match lines !! k with
  | Some l => Ok l
  | None => Raise (KeyError k)
  end.

(** [lines[k].remove(x)] *)
Definition bucket_remove (k : string) (x : issue_ref) (lines : gmap string (list issue_ref))
  : result (gmap string (list issue_ref)) :=
  l ← getitem lines k;
  l' ← list_remove x l;
  Ok (<[k := l']> lines).

(** [lines[k].append(x)] *)
Definition bucket_append (x : issue_ref) (lines : gmap string (list issue_ref)) (k : string)
  : result (gmap string (list issue_ref)) :=
  l ← getitem lines k;
  Ok (<[k := l ++ [x]]> lines).

(** [if x in lines[k]: lines[k].remove(x)] *)
Definition remove_if_present (k : string) (x : issue_ref) (lines : gmap string (list issue_ref))
  : result (gmap string (list issue_ref)) :=
  l ← getitem lines k;
  if py_in x l then bucket_remove k x lines else Ok lines.

(** ** construct_releases *)

(** Python truthiness of an optional string attribute: [None] and the empty
    string are false. *)
Definition truthy (s : option string) : bool :=
  match s with
  | Some (String _ _) => true
  | _ => false
  end.

(** [focus, rest = obj[0][0], obj[0][1:]]: an item of the changelog is a
    list_item holding a paragraph. *)
Definition focus_rest (item : node) : result (node * list node) :=
  match item with
  | Elem _ _ (Elem _ _ (focus :: rest) :: _) => Ok (focus, rest)
  | _ => Raise IndexError
  end.

(** [explicit]: [None] when [rest] is empty, otherwise the stripped fields
    of its first node, which has to be a text node. *)
Definition explicit_list (rest : list node) : result (option (list string)) :=
  match rest with
  | [] => Ok None
  | Text s :: _ => Ok (Some (map strip (split "," s)))
  | _ :: _ => Raise AttributeError
  end.

(** The body of [for obj in entries] of an explicit release: which buckets
    the listed issue is removed from. *)
Definition explicit_cleanup (rline : string) (lines : gmap string (list issue_ref))
    (o : issue_ref) : result (gmap string (list issue_ref)) :=
  match type_ (target o) with
  | bug =>
      if major (target o) then bucket_remove unreleased_feature o lines
      else
        lines ← remove_if_present unreleased_bugfix o lines;
        remove_if_present rline o lines
  | _ =>
      lines ← bucket_remove unreleased_feature o lines;
      if py_in o (default [] (lines !! rline)) then bucket_remove rline o lines
      else Ok lines
  end.

(** [issues[i]] *)
Definition registry_get (issues : gmap (option string) issue_ref) (i : string)
  : result issue_ref :=
  match issues !! Some i with
  | Some x => Ok x
  | None => Raise (KeyError i)
  end.

(** [[i for i in explicit if i not in issues]] *)
Definition missing_of (issues : gmap (option string) issue_ref) (explicit : list string)
  : list string :=
  filter (fun i => issues !! Some i = None) explicit.

Definition unknown_issues (missing : list string) : exn :=
  ValueError ("Couldn't find issue(s) #" +:+ join ", " missing +:+ " in the changelog!").

(** The release with an explicit issue list. *)
Definition explicit_release (focus : release) (explicit : list string) (st : state)
  : result state :=
  let rline := get_line focus in
  match missing_of (issues st) explicit with
  | (_ :: _) as missing => Raise (unknown_issues missing)
  | [] =>
      entries ← forM (registry_get (issues st)) explicit;
      let releases' := releases st ++ [ReleaseDict focus entries] in
      lines' ← foldM (explicit_cleanup rline) (lines st) entries;
      Ok (State releases' lines' (issues st))
  end.

(** [x.type in ('feature', 'support') or x.major] *)
Definition in_feature_release (x : issue_ref) : bool :=
  match type_ (target x) with
  | feature | support => true
  | bug => major (target x)
  end.

(** [not x.major] *)
Definition not_major (x : issue_ref) : bool := negb (major (target x)).

(** The release without an issue list. *)
Definition implicit_release (focus : release) (st : state) : result state :=
  let rline := get_line focus in
  match lines st !! rline with
  | None =>
      let lines1 := <[rline := []]> (lines st) in
      uf ← getitem lines1 unreleased_feature;
      let entries := filter in_feature_release uf in
      Ok (State (releases st ++ [ReleaseDict focus entries])
                (<[unreleased_feature := []]> lines1)
                (issues st))
  | Some bucket =>
      let entries := filter not_major bucket in
      let lines1 := <[rline := []]> (lines st) in
      lines2 ← foldM (fun lines x => remove_if_present unreleased_bugfix x lines)
                     lines1 entries;
      Ok (State (releases st ++ [ReleaseDict focus entries]) lines2 (issues st))
  end.

(** The branch [isinstance(focus, release)]. *)
Definition release_branch (focus : release) (rest : list node) (st : state) : result state :=
  explicit ← explicit_list rest;
  match explicit with
  | Some ((_ :: _) as explicit) => explicit_release focus explicit st
  | _ => implicit_release focus st
  end.

(** The issue object of an item: the issue element with the rest of the
    paragraph attached as its description, or a fresh anonymous bug that
    wraps a plain line item. *)
Definition as_issue (focus : node) (rest : list node) : issue :=
  match focus with
  | IssueEl i =>
      Issue (number i) (type_ i) (backported i) (major i) (line i) (nodelist i) (Some rest)
  | _ => Issue None bug false false None (issue_nodelist bug None) (Some [focus])
  end.

Definition duplicate_issue (n : string) : exn :=
  ValueError ("You seem to have defined issue #" +:+ n +:+ " twice! Please double check.").

(** The names of the buckets, as [for x in lines] yields them.  Every use
    below treats each name on its own, so their order does not matter. *)
Definition keys (lines : gmap string (list issue_ref)) : list string :=
  (map_to_list lines).*1.

(** [bug_lines]: the buckets a regular bug is copied into. *)
Definition bug_lines (focus : issue) (lines : gmap string (list issue_ref))
  : result (list string) :=
  let all := filter (fun x => x ≠ unreleased_feature) (keys lines) in
  match line focus with
  | Some ((String _ _) as min_line) =>
      narrowed ← filterM (fun x =>
                    if bool_decide (x ≠ unreleased_bugfix) then version_ge x min_line
                    else Ok false) all;
      Ok (narrowed ++ [unreleased_bugfix])
  | _ => Ok all
  end.

(** The fan-out of an issue into the buckets. *)
Definition fan_out (x : issue_ref) (lines : gmap string (list issue_ref))
  : result (gmap string (list issue_ref)) :=
  match type_ (target x) with
  | bug =>
      if major (target x) then bucket_append x lines unreleased_feature
      else
        targets ← bug_lines (target x) lines;
        foldM (bucket_append x) lines targets
  | _ =>
      if backported (target x) then foldM (bucket_append x) lines (keys lines)
      else bucket_append x lines unreleased_feature
  end.

(** The branch of an issue or of a plain line item; [i] is the position of
    the item and identifies the issue object. *)
Definition issue_branch (i : nat) (focus : node) (rest : list node) (st : state)
  : result state :=
  let x := IssueRef i (as_issue focus rest) in
  let n := number (target x) in
  if truthy n && bool_decide (is_Some (issues st !! n))
  then Raise (duplicate_issue (default EmptyString n))
  else
    let issues' := <[n := x]> (issues st) in
    lines' ← fan_out x (lines st);
    Ok (State (releases st) lines' issues').

(** One iteration of [for obj in reversed(entries)]. *)
Definition step (i : nat) (item : node) (st : state) : result state :=
  '(focus, rest) ← focus_rest item;
  match focus with
  | ReleaseEl r => release_branch r rest st
  | _ => issue_branch i focus rest st
  end.

Fixpoint loop (items : list node) (i : nat) (st : state) : result state :=
  match items with
  | [] => Ok st
  | item :: items' => st' ← step i item st; loop items' (S i) st'
  end.

Definition initial : state :=
  State [] (<[unreleased_bugfix := []]> (<[unreleased_feature := []]> ∅)) ∅.

(** The special release for the entries of an unreleased bucket. *)
Definition faux_release (cfg : config) (st : state) (rels : list release_dict)
    (which : string) : result (list release_dict) :=
  let nodelist := [release_nodes ("Next " +:+ which +:+ " release") "master" None cfg] in
  let rline := "unreleased_" +:+ which in
  bucket ← getitem (lines st) rline;
  Ok (rels ++ [ReleaseDict (Release rline None nodelist) bucket]).

Definition construct_releases (entries : list node) (app : config)
  : result (list release_dict) :=
  st ← loop (reverse entries) 0 initial;
  foldM (faux_release app st) (releases st) ["bugfix"; "feature"].

(** Structural induction on nodes, through the lists of children. *)
Fixpoint node_children_ind (P : node -> Prop)
    (HText : forall s, P (Text s))
    (HElem : forall tag attrs children, Forall P children -> P (Elem tag attrs children))
    (HIssue : forall i, P (IssueEl i))
    (HRelease : forall r, P (ReleaseEl r))
    (n : node) : P n :=
  match n with
  | Text s => HText s
  | Elem tag attrs children =>
      HElem tag attrs children
        ((fix all (l : list node) : Forall P l :=
            match l with
            | [] => @List.Forall_nil node P
            | c :: l' =>
                @List.Forall_cons node P c l'
                  (node_children_ind P HText HElem HIssue HRelease c) (all l')
            end) children)
  | IssueEl i => HIssue i
  | ReleaseEl r => HRelease r
  end.

(** ** construct_nodes *)

(** [x.deepcopy()]: a structurally equal tree of fresh nodes.  The copy of
    an issue element shares the attribute values of the original. *)
Fixpoint deepcopy (n : node) : node :=
  match n with
  | Text s => Text s
  | Elem tag attrs children => Elem tag attrs (map deepcopy children)
  | IssueEl i => IssueEl i
  | ReleaseEl r => ReleaseEl r
  end.

(** [desc[i:i+1] = xs]; a slice past the end appends. *)
Definition slice_assign {A} (i : nat) (xs desc : list A) : list A :=
  take i desc ++ xs ++ drop (S i) desc.

(** [for i, node in enumerate(desc[:])]: the loop runs over the snapshot
    [desc[:]] and assigns into [desc] at the index in the snapshot. *)
Fixpoint expand (i : nat) (snapshot desc : list node) : list node :=
  match snapshot with
  | [] => desc
  | n :: snapshot' =>
      expand (S i) snapshot'
        match n with
        | IssueEl x => slice_assign i (nodelist x) desc
        | _ => desc
        end
  end.

(** The list item built for one entry of a release. *)
Definition entry_item (entry : issue_ref) : result node :=
  match description (target entry) with
  | None => Raise (KeyError "description")
  | Some d =>
      let desc := map deepcopy d in
      let desc := expand 0 desc desc in
      Ok (Elem "list_item" [] [Elem "paragraph" [] (nodelist (target entry) ++ desc)])
  end.

(** [n.append(child)] on an element with children. *)
Definition append_child (n child : node) : result node :=
  match n with
  | Elem tag attrs children => Ok (Elem tag attrs (children ++ [child]))
  | _ => Raise AttributeError
  end.

(** One iteration of [for d in reversed(releases)]: the nodes added to
    [result], and [d] as the iteration leaves it.  The marker of a release
    is referenced by that release only, so the in-place append to the first
    node of its nodelist is an update of [d]. *)
Definition assemble_release (d : release_dict) : result (list node * release_dict) :=
  match entries d with
  | [] => Ok ([], d)
  | _ :: _ =>
      items ← forM entry_item (entries d);
      let list_ := Elem "bullet_list" [] items in
      match release_nodelist (obj d) with
      | [] => Raise IndexError
      | section :: others =>
          section' ← append_child section list_;
          let nodelist' := section' :: others in
          Ok (nodelist',
              ReleaseDict (Release (release_number (obj d)) (date (obj d)) nodelist')
                          (entries d))
      end
  end.

(** [construct_nodes]: the returned nodes, together with the releases as
    the call leaves them. *)
Definition construct_nodes (releases : list release_dict)
  : result (list node * list release_dict) :=
  rs ← forM assemble_release (reverse releases);
  Ok (concat (rs.*1), reverse (rs.*2)).

(** ** Reference behaviour and predicates used in the statements *)

(** What the expansion of a description is meant to produce: every issue
    element of the top level is replaced, where it stands, by its nodelist;
    the other nodes stay. *)
Definition substitute (desc : list node) : list node :=
  flat_map (fun n => match n with IssueEl x => nodelist x | _ => [n] end) desc.

Definition is_issue (n : node) : bool :=
  match n with
  | IssueEl _ => true
  | _ => false
  end.


(** A bug marked major. *)
Definition major_bug (x : issue_ref) : Prop :=
  type_ (target x) = bug /\ major (target x) = true.

(** Every bucket other than unreleased_feature holds only issues with [P]. *)
Definition outside_feature (P : issue_ref -> Prop) (lines : gmap string (list issue_ref))
  : Prop :=
  forall k l, lines !! k = Some l -> k ≠ unreleased_feature -> Forall P l.

(** The flags of an item's issue element are as [issues_role] sets them:
    backported and major come from one word and exclude each other. *)
Definition role_flags (item : node) : Prop :=
  forall i rest, focus_rest item = Ok (IssueEl i, rest) ->
    backported i = true -> major i = false.

(** The release is the one of a release marker among the items. *)
Definition authored (items : list node) (d : release_dict) : Prop :=
  exists it rest, it ∈ items /\ focus_rest it = Ok (ReleaseEl (obj d), rest).

(** Both unreleased buckets exist. *)
Definition sentinels (lines : gmap string (list issue_ref)) : Prop :=
  is_Some (lines !! unreleased_bugfix) /\ is_Some (lines !! unreleased_feature).

(** A changelog item: a list_item holding the paragraph of [focus] and
    [rest]. *)
Definition item (focus : node) (rest : list node) : node :=
  Elem "list_item" [] [Elem "paragraph" [] (focus :: rest)].

(** The elements of the scenarios, as the roles build them. *)
Definition bug_1 (cfg : config) : issue :=
  Issue (Some "1") bug false false None (issue_nodelist bug (Some (issue_link "1" cfg))) None.
Definition feature_2 (cfg : config) : issue :=
  Issue (Some "2") feature false false None
        (issue_nodelist feature (Some (issue_link "2" cfg))) None.
Definition bug_3 (cfg : config) : issue :=
  Issue (Some "3") bug false false (Some "1.0")
        (issue_nodelist bug (Some (issue_link "3" cfg))) None.
Definition bug_5 (cfg : config) : issue :=
  Issue (Some "5") bug false false None (issue_nodelist bug (Some (issue_link "5" cfg))) None.
Definition bug_6 (cfg : config) : issue :=
  Issue (Some "6") bug false false None (issue_nodelist bug (Some (issue_link "6" cfg))) None.

(** An issue with its description attached. *)
Definition described (i : issue) (rest : list node) : issue :=
  as_issue (IssueEl i) rest.

Definition release_of_role (number date : string) (cfg : config) : release :=
  Release number (Some date) [release_nodes number number (Some date) cfg].

(** The streams of the end-to-end scenarios, oldest item first (the order in
    which the loop processes them); [construct_releases] receives them
    newest first. *)
Definition scenario_1 (cfg : config) (desc : list node) : list node :=
  [item (IssueEl (bug_1 cfg)) desc;
   item (ReleaseEl (release_of_role "1.0" "2020-01-01" cfg)) []].

Definition scenario_2 (cfg : config) (desc : list node) : list node :=
  [item (IssueEl (feature_2 cfg)) desc;
   item (ReleaseEl (release_of_role "1.0" "2020-01-01" cfg)) []].

Definition scenario_3 (first second : string) (cfg : config) (desc2 desc3 : list node)
  : list node :=
  [item (IssueEl (feature_2 cfg)) desc2;
   item (ReleaseEl (release_of_role first "2020-01-01" cfg)) [];
   item (IssueEl (bug_3 cfg)) desc3;
   item (ReleaseEl (release_of_role second "2020-02-01" cfg)) []].

Definition scenario_4 (version : string) (cfg : config) (desc5 desc6 : list node)
  : list node :=
  [item (IssueEl (bug_5 cfg)) desc5;
   item (IssueEl (bug_6 cfg)) desc6;
   item (ReleaseEl (release_of_role version "2020-03-01" cfg)) [Text " 6"]].

(** A bug marked major and a backported feature, as the roles build them
    from the tickets [7 major] and [8 backported]. *)
Definition bug_7 (cfg : config) : issue :=
  Issue (Some "7") bug false true None (issue_nodelist bug (Some (issue_link "7" cfg))) None.
Definition feature_8 (cfg : config) : issue :=
  Issue (Some "8") feature true false None
        (issue_nodelist feature (Some (issue_link "8" cfg))) None.

(** A stream with every kind of issue: a feature and its feature release,
    then a regular bug, a major bug and a backported feature, and the
    bugfix release of the line. *)
Definition scenario_flags (cfg : config) : list node :=
  [item (IssueEl (feature_2 cfg)) [];
   item (ReleaseEl (release_of_role "1.0.0" "2020-01-01" cfg)) [];
   item (IssueEl (bug_5 cfg)) [];
   item (IssueEl (bug_7 cfg)) [];
   item (IssueEl (feature_8 cfg)) [];
   item (ReleaseEl (release_of_role "1.0.1" "2020-02-01" cfg)) []].

(** A feature that an implicit feature release has shipped and a later
    release lists by number. *)
Definition listed_after_release (cfg : config) (desc : list node) : list node :=
  [item (IssueEl (feature_2 cfg)) desc;
   item (ReleaseEl (release_of_role "1.0.0" "2020-01-01" cfg)) [];
   item (ReleaseEl (release_of_role "1.0.1" "2020-02-01" cfg)) [Text " 2"]].

(** A description that mentions two other issues inline, as the parser
    leaves it: text, the issue element of :bug:`5`, text, the issue element
    of :bug:`6`, text. *)
Definition two_mentions (cfg : config) : list node :=
  [Text " Reverts "; IssueEl (bug_5 cfg); Text " and "; IssueEl (bug_6 cfg); Text "."].

(** A release with one entry, as [construct_releases] returns it. *)
Definition one_entry_release (cfg : config) (desc : list node) : release_dict :=
  ReleaseDict (release_of_role "1.0" "2020-01-01" cfg)
              [IssueRef 0 (described (feature_2 cfg) desc)].

(** The two unreleased releases at the end of the result. *)
Definition next_release (which : string) (cfg : config) (bucket : list issue_ref)
  : release_dict :=
  ReleaseDict (Release ("unreleased_" +:+ which) None
                 [release_nodes ("Next " +:+ which +:+ " release") "master" None cfg])
              bucket.

(** A sample configuration, for the closed examples. *)
Definition sample_config : config :=
  Config (fun slug => "https://example.org/tree/" +:+ slug)
         (fun no => "https://example.org/issues/" +:+ no).

(** The condition of a comprehension returned true. *)
Definition holds (m : result bool) : bool :=
  match m with
  | Ok true => true
  | _ => false
  end.

(** ** Invariants of the loop *)

(** A list of references as the loop keeps it while it processes item [i]:
    no object occurs twice, and every object is the issue of an earlier
    item, with its description attached. *)
Definition tidy (i : nat) (l : list issue_ref) : Prop :=
  NoDup (pos <$> l) /\
  Forall (fun x => pos x < i /\ is_Some (description (target x))) l.

(** Every bucket satisfies [Q]. *)
Definition every_bucket (Q : list issue_ref -> Prop) (lines : gmap string (list issue_ref))
  : Prop :=
  forall k l, lines !! k = Some l -> Q l.

(** The registry files every issue under its own number. *)
Definition registry_ok (i : nat) (issues : gmap (option string) issue_ref) : Prop :=
  forall k x, issues !! k = Some x ->
    number (target x) = k /\ pos x < i /\ is_Some (description (target x)).

(** The entries of the releases built so far are issues of earlier items. *)
Definition releases_ok (i : nat) (rs : list release_dict) : Prop :=
  Forall (fun d => Forall (fun x => pos x < i /\ is_Some (description (target x)))
                          (entries d)) rs.

Definition state_ok (i : nat) (st : state) : Prop :=
  sentinels (lines st) /\ every_bucket (tidy i) (lines st) /\
  registry_ok i (issues st) /\ releases_ok i (releases st).

(** The release markers among the items, in the order of the items. *)
Definition markers (items : list node) : list release :=
  omap (fun it => match focus_rest it with
                  | Ok (ReleaseEl r, _) => Some r
                  | _ => None
                  end) items.

(** A run of decimal digits. *)
Definition digits (s : string) : Prop :=
  Forall (fun c => classify c = Digit) (list_ascii_of_string s).

(** ** The comparison of the specification

    The Version Comparator of the specification: dotted numeric version
    strings, compared numerically component by component.  These definitions
    follow the words of the specification, not the code; [version_ge] above
    is the comparison of the code. *)












(** ** release_role *)

(** The end of the pattern [year_arg_re], [(.*?)>$]: the shortest text that
    is followed by a closing bracket at the end of the string, or just
    before a newline that ends the string. *)
Fixpoint until_final_gt (s : string) : option string :=
  match s with
  | EmptyString => None
  | String c s' =>
      if Ascii.eqb c ">"
         && (String.eqb s' EmptyString || String.eqb s' (String (ascii_of_nat 10) EmptyString))
      then Some EmptyString
      else String c <$> until_final_gt s'
  end.

(** The middle of the pattern, [\s*(?<!\x00)<], followed by its end: white
    space, then an opening bracket that does not follow a NUL character;
    [prev] is the character before [rest]. *)
Fixpoint after_number (prev : ascii) (rest : string) : option string :=
  match rest with
  | EmptyString => None
  | String c r =>
      if Ascii.eqb c "<"
      then if Ascii.eqb prev zero then None else until_final_gt r
      else if isspace c then after_number c r
      else None
  end.

(** The lazy group [(.+?)] once its first character is taken: it grows by
    one character until the rest of the pattern matches. *)
Fixpoint year_arg_scan (prev : ascii) (rest : string) : option (string * string) :=
  match after_number prev rest with
  | Some date => Some (EmptyString, date)
  | None =>
      match rest with
      | EmptyString => None
      | String c r =>
          match year_arg_scan c r with
          | Some (number, date) => Some (String c number, date)
          | None => None
          end
      end
  end.

(** [year_arg_re.match(text)], pattern [^(.+?)\s*(?<!\x00)<(.*?)>$] with
    DOTALL: the two groups of the match. *)
Definition year_arg_re (text : string) : option (string * string) :=
  match text with
  | EmptyString => None
  | String c r =>
      match year_arg_scan c r with
      | Some (number, date) => Some (String c number, date)
      | None => None
      end
  end.

(** What a role returns: the node it built, or the problematic node of an
    error reported through the inliner, of which the model keeps the
    message. *)
Inductive role_outcome :=
| Built (n : node)
| Problematic (message : string).

Definition release_role (text : string) (cfg : config) : role_outcome :=
  match year_arg_re text with
  | None => Problematic "Must specify release date!"
  | Some (number, date) => Built (release_element number date cfg)
  end.

(** ** generate_changelog

    The document tree after the call.  A list-valued attribute of an element
    is held as one pair per value, so [names] contains [changelog] when the
    pair of the two is among the attributes; the intermediate elements have
    no names and no children, and a text node has the empty tuple for its
    children. *)
Definition generate_changelog (app : config) (doctree : node) : result node :=
  match doctree with
  | Elem dtag dattrs (source :: others) =>
      match source with
      | Elem stag sattrs children =>
          if bool_decide (("names", "changelog") ∈ sattrs) then
            match children with
            | first :: changelog :: later =>
                let entries := match changelog with
                               | Elem _ _ entries => entries
                               | _ => []
                               end in
                releases ← construct_releases entries app;
                assembled ← construct_nodes releases;
                Ok (Elem dtag dattrs
                      (Elem stag sattrs (first :: assembled.1 ++ later) :: others))
            | _ => Raise IndexError
            end
          else Ok doctree
      | Text _ => Raise AttributeError
      | _ => Ok doctree
      end
  | Text (String _ _) => Raise AttributeError
  | _ => Raise IndexError
  end.

(** ** Changelogs that cannot go wrong *)

(** The non-empty number an item defines, if it is an issue with one. *)
Definition defined_number (it : node) : option string :=
  match focus_rest it with
  | Ok (IssueEl i, _) => if truthy (number i) then number i else None
  | _ => None
  end.

(** An item of the common kind: a list item whose release, if it is one,
    lists no issues, and whose bug, if it is a regular one, has no minimum
    line. *)
Definition plain_item (it : node) : Prop :=
  match focus_rest it with
  | Ok (ReleaseEl _, rest) => rest = []
  | Ok (IssueEl i, _) => type_ i = bug -> major i = false -> truthy (line i) = false
  | Ok _ => True
  | Raise _ => False
  end.

(** ** construct_nodes on the store of objects

    docutils nodes are objects: [construct_nodes] puts some of the nodes it
    is given into the elements it builds, and [Element.append] writes the
    parent of the appended node.  Here every node, and every dict of the
    list of releases, is an object with a location in a store; a list of
    objects is a list of locations.  Of a node the store keeps the class,
    the attributes, the parent and the children; the fields [document],
    [source] and [line], which [setup_child] copies to the appended child
    from a parent that is attached to a document, are left out. *)

(** Locations are positions in the store. *)
Abbreviation loc := nat.

(** The class of an object and its contents: the attributes of a node, or
    the two values of a dict [{'obj': ..., 'entries': ...}] of the list of
    releases.  The attributes [nodelist] and [description] of the
    intermediate elements hold lists of node objects. *)
Inductive kind :=
| KText (s : string)
| KElem (tag : string) (attrs : list (string * string))
| KIssue (i : issue_of loc)
| KRelease (r : release_of loc)
| KDict (marker : loc) (items : list loc).

(** An object: its class and contents and, for a node, [node.parent] and
    [node.children]. *)
Record cell := Cell {
  kind_of : kind;
  parent : option loc;
  children : list loc
}.

Abbreviation store := (list cell).

(** Code that reads and writes the store and may raise. *)
Definition heap (A : Type) : Type := store -> result (A * store).

#[global] Instance heap_ret : MRet heap := fun _ a h => Ok (a, h).
#[global] Instance heap_bind : MBind heap := fun _ _ f m h =>
  match m h with
  | Ok (a, h') => f a h'
  | Raise e => Raise e
  end.

Definition throw {A} (e : exn) : heap A := fun _ => Raise e.

Fixpoint heap_forM {A B} (f : A -> heap B) (l : list A) : heap (list B) :=
  match l with
  | [] => mret []
  | x :: l' => y ← f x; ys ← heap_forM f l'; mret (y :: ys)
  end.

(** A new object, with no parent and no children. *)
Definition alloc (k : kind) : heap loc :=
  fun h => Ok (length h, h ++ [Cell k None []]).

(** The object at a location.  Every location a program holds is the
    location of an object; the store of the model raises for any other. *)
Definition get (l : loc) : heap cell :=
  fun h => match h !! l with
           | Some c => Ok (c, h)
           | None => Raise AttributeError
           end.

Definition put (l : loc) (c : cell) : heap unit :=
  fun h => Ok (tt, <[l := c]> h).

(** The objects that have [append]: the elements. *)
Definition is_element (k : kind) : bool :=
  match k with
  | KText _ | KDict _ _ => false
  | _ => true
  end.

(** The objects whose [parent] can be set: the nodes. *)
Definition is_node (k : kind) : bool :=
  match k with
  | KDict _ _ => false
  | _ => true
  end.

(** [Element.append(child)]: [setup_child] sets the parent of the child,
    then the child is appended to the children.  A text node and a dict
    have no such [append], and a dict takes no attribute. *)
Definition append (p child : loc) : heap unit :=
  c ← get child;
  if negb (is_node (kind_of c)) then throw AttributeError else
  _ ← put child (Cell (kind_of c) (Some p) (children c));
  o ← get p;
  if negb (is_element (kind_of o)) then throw AttributeError else
  put p (Cell (kind_of o) (parent o) (children o ++ [child])).

(** [nodes.paragraph('', '', *cs)] and the like: a new element, to which
    the children are appended one by one. *)
Definition element (tag : string) (cs : list loc) : heap loc :=
  p ← alloc (KElem tag []);
  _ ← heap_forM (append p) cs;
  mret p.

(** [node.deepcopy()]: a text node is copied; an element is copied with its
    attributes, which are passed on to the constructor, and the deep copies of
    its children are appended to the copy.  The attribute values of the
    copy are those of the original: the copy of an issue element has the
    nodelist of the original.  A dict has no [deepcopy].  The recursion is
    bounded by [fuel]. *)
Fixpoint deepcopy_fuel (fuel : nat) (l : loc) : heap loc :=
  match fuel with
  | 0 => throw RecursionError
  | S fuel' =>
      c ← get l;
      match kind_of c with
      | KText s => alloc (KText s)
      | KDict _ _ => throw AttributeError
      | k =>
          copy ← alloc k;
          cs ← heap_forM (deepcopy_fuel fuel') (children c);
          _ ← heap_forM (append copy) cs;
          mret copy
      end
  end.

(** A node whose tree has no cycle is no deeper than the store is large;
    on a cycle Python exceeds its recursion limit. *)
Definition heap_deepcopy (l : loc) : heap loc :=
  fun h => deepcopy_fuel (length h) l h.

(** [for i, node in enumerate(desc[:])] on the store. *)
Fixpoint heap_expand (i : nat) (snapshot desc : list loc) : heap (list loc) :=
  match snapshot with
  | [] => mret desc
  | n :: snapshot' =>
      c ← get n;
      heap_expand (S i) snapshot'
        match kind_of c with
        | KIssue x => slice_assign i (nodelist x) desc
        | _ => desc
        end
  end.

(** [n['nodelist']] *)
Definition nodelist_of (k : kind) : result (list loc) :=
  match k with
  | KIssue x => Ok (nodelist x)
  | KRelease r => Ok (release_nodelist r)
  | KElem _ _ | KDict _ _ => Raise (KeyError "nodelist")
  | KText _ => Raise TypeError
  end.

(** The list item built for one entry of a release. *)
Definition heap_entry_item (entry : loc) : heap loc :=
  e ← get entry;
  match kind_of e with
  | KIssue x =>
      match description x with
      | None => throw (KeyError "description")
      | Some d =>
          desc ← heap_forM heap_deepcopy d;
          desc ← heap_expand 0 desc desc;
          p ← element "paragraph" (nodelist x ++ desc);
          element "list_item" [p]
      end
  | KText _ => throw TypeError
  | _ => throw (KeyError "description")
  end.

(** One iteration of [for d in reversed(releases)]: the value is what the
    iteration adds to [result]. *)
Definition heap_assemble_release (d : loc) : heap (list loc) :=
  c ← get d;
  match kind_of c with
  | KDict marker items =>
      match items with
      | [] => mret []
      | _ :: _ =>
          lis ← heap_forM heap_entry_item items;
          list_ ← element "bullet_list" lis;
          o ← get marker;
          match nodelist_of (kind_of o) with
          | Raise e => throw e
          | Ok [] => throw IndexError
          | Ok ((section :: _) as nl) =>
              _ ← append section list_;
              header ← element "paragraph" nl;
              hd ← get header;
              mret (children hd)
          end
      end
  | KText _ => throw TypeError
  | _ => throw (KeyError "entries")
  end.

Definition heap_construct_nodes (releases : list loc) : heap (list loc) :=
  rs ← heap_forM heap_assemble_release (reverse releases);
  mret (concat rs).

(** *** What [construct_nodes] may write

    The statements below compare the store before and after a call. *)

(** [d] is a release with entries: a dict with its marker and a list of
    entries that is not empty. *)
Definition release_at (h : store) (d marker : loc) (items : list loc) : Prop :=
  exists c, h !! d = Some c /\ kind_of c = KDict marker items /\ items ≠ [].

(** The nodelist of the marker of a release with entries. *)
Definition marker_nodelist (h : store) (releases : list loc) (nl : list loc) : Prop :=
  exists d marker items c,
    d ∈ releases /\ release_at h d marker items /\
    h !! marker = Some c /\ nodelist_of (kind_of c) = Ok nl.

(** The issue object of an entry of a release. *)
Definition entry_issue (h : store) (releases : list loc) (x : issue_of loc) : Prop :=
  exists d marker items e c,
    d ∈ releases /\ release_at h d marker items /\ e ∈ items /\
    h !! e = Some c /\ kind_of c = KIssue x.

(** An issue element that stands in the description of an entry. *)
Definition inline_issue (h : store) (releases : list loc) (x' : issue_of loc) : Prop :=
  exists x dsc m c,
    entry_issue h releases x /\ description x = Some dsc /\ m ∈ dsc /\
    h !! m = Some c /\ kind_of c = KIssue x'.

(** The first node of the nodelist of a marker: the section of the
    release. *)
Definition section_of (h : store) (releases : list loc) (l : loc) : Prop :=
  exists nl, marker_nodelist h releases (l :: nl).

(** The nodes of the nodelists: of a marker, of an entry, or of an issue
    element inside a description. *)
Definition shared (h : store) (releases : list loc) (l : loc) : Prop :=
  (exists nl, marker_nodelist h releases nl /\ l ∈ nl) \/
  (exists x, entry_issue h releases x /\ l ∈ nodelist x) \/
  (exists x, inline_issue h releases x /\ l ∈ nodelist x).

(** The releases refer to objects of the store: the dicts, their markers,
    their entries and the nodes of the entries' descriptions. *)
Definition described_in (h : store) (e : loc) : Prop :=
  match kind_of <$> h !! e with
  | Some (KIssue x) => Forall (fun m => m < length h) (default [] (description x))
  | _ => True
  end.

Definition in_store (h : store) (releases : list loc) : Prop :=
  Forall (fun d => d < length h /\
                   match kind_of <$> h !! d with
                   | Some (KDict marker items) =>
                       marker < length h /\
                       Forall (fun e => e < length h /\ described_in h e) items
                   | _ => True
                   end) releases.

(** [l] is a child of the object at [p]. *)
Definition child_in (h : store) (p l : loc) : Prop :=
  exists c, h !! p = Some c /\ l ∈ children c.

(** The class and attributes of the object at [l]. *)
Definition kind_at (h : store) (l : loc) : option kind := kind_of <$> h !! l.

(** From [h1] to [h2] objects are added and none is removed; every object
    keeps its class and attributes; children are only appended; and of the
    first [n] objects only those in [Wc] get children and only those in [Wp]
    get another parent. *)
Definition keeps (n : nat) (Wc Wp : loc -> Prop) (h1 h2 : store) : Prop :=
  length h1 <= length h2 /\
  forall l c, h1 !! l = Some c ->
    exists c', h2 !! l = Some c' /\ kind_of c' = kind_of c /\
      children c `prefix_of` children c' /\
      (l < n -> ~ Wc l -> children c' = children c) /\
      (l < n -> ~ Wp l -> parent c' = parent c).

(** A node that may become the child of a new object: a new object, or one
    in [Wp]. *)
Definition fine (n : nat) (Wp : loc -> Prop) (l : loc) : Prop := n <= l \/ Wp l.

(** The objects after the first [n] have only such children. *)
Definition good (n : nat) (Wp : loc -> Prop) (h : store) : Prop :=
  n <= length h /\
  forall p c, n <= p -> h !! p = Some c -> Forall (fine n Wp) (children c).

(** The nodes [nl] are children of one new paragraph. *)
Definition in_new_paragraph (n : nat) (h : store) (nl : list loc) : Prop :=
  exists p, n <= p /\ kind_at h p = Some (KElem "paragraph" []) /\
            forall l, l ∈ nl -> child_in h p l.

(** The node [s] has a new bullet list among its children. *)
Definition has_new_list (n : nat) (h : store) (s : loc) : Prop :=
  exists list_, n <= list_ /\ child_in h s list_ /\
                kind_at h list_ = Some (KElem "bullet_list" []).

(** The nodelist of the entry [e], when [e] is an issue, is in a new
    paragraph. *)
Definition entry_in_paragraph (h0 h : store) (e : loc) : Prop :=
  forall c x, h0 !! e = Some c -> kind_of c = KIssue x ->
    in_new_paragraph (length h0) h (nodelist x).

(** What an iteration of [construct_nodes] does for the release [d], on
    the store [h0] of the call: nothing when the release has no entries;
    otherwise it adds the nodes of the marker's nodelist to the result, the
    first of them has got a new bullet list, and the nodelist of every entry
    is in a new paragraph. *)
Definition assembled_in (h0 : store) (d : loc) (r : list loc) (h : store) : Prop :=
  exists c marker items,
    h0 !! d = Some c /\ kind_of c = KDict marker items /\
    match items with
    | [] => r = []
    | _ :: _ =>
        exists c' s nl,
          h0 !! marker = Some c' /\ nodelist_of (kind_of c') = Ok (s :: nl) /\ r = s :: nl /\
          has_new_list (length h0) h s /\
          Forall (entry_in_paragraph h0 h) items
    end.

(** The objects below [l] are a tree of nodes of depth at most [d], and
    none of its nodes is in [avoid]. *)
Fixpoint tree (avoid : list loc) (d : nat) (h : store) (l : loc) : Prop :=
  match d with
  | 0 => False
  | S d' =>
      (l ∉ avoid) /\
      (match h !! l with
       | Some c =>
           match kind_of c with
           | KText _ => True
           | KDict _ _ => False
           | _ => Forall (tree avoid d' h) (children c)
           end
       | None => False
       end)
  end.

(** [l] is a node of the store; [p] is an element of the store. *)
Definition node_in (h : store) (l : loc) : Prop :=
  exists c, h !! l = Some c /\ is_node (kind_of c) = true.

Definition element_in (h : store) (p : loc) : Prop :=
  exists c, h !! p = Some c /\ is_element (kind_of c) = true.

(** Nothing is written to the first [n] objects. *)
Definition untouched (n : nat) (h1 h2 : store) : Prop :=
  keeps n (fun _ => False) (fun _ => False) h1 h2.

(** *** Stores on which [construct_nodes] returns *)

(** The first nodes of the nodelists of the markers of the releases with
    entries, as a list. *)
Definition sections (h : store) (releases : list loc) : list loc :=
  omap (fun d =>
          match kind_of <$> h !! d with
          | Some (KDict marker (_ :: _)) =>
              match kind_of <$> h !! marker with
              | Some k => match nodelist_of k with
                          | Ok (s :: _) => Some s
                          | _ => None
                          end
              | None => None
              end
          | _ => None
          end) releases.

(** An issue element inside a description has nodes for its nodelist. *)
Definition inline_ready (h : store) (m : loc) : Prop :=
  match kind_of <$> h !! m with
  | Some (KIssue x') => Forall (node_in h) (nodelist x')
  | _ => True
  end.

(** An entry is an issue with nodes for its nodelist and a description
    whose nodes are trees of nodes, off the nodes in [avoid]. *)
Definition entry_ready (h : store) (avoid : list loc) (e : loc) : Prop :=
  match kind_of <$> h !! e with
  | Some (KIssue x) =>
      Forall (node_in h) (nodelist x) /\
      match description x with
      | Some dsc => Forall (tree avoid (length h) h) dsc /\ Forall (inline_ready h) dsc
      | None => False
      end
  | _ => False
  end.

(** A marker has a nodelist of nodes that starts with an element. *)
Definition marker_ready (h : store) (marker : loc) : Prop :=
  match kind_of <$> h !! marker with
  | Some k => match nodelist_of k with
              | Ok (s :: nl) => element_in h s /\ Forall (node_in h) (s :: nl)
              | _ => False
              end
  | None => False
  end.

Definition release_ready (h : store) (avoid : list loc) (d : loc) : Prop :=
  match kind_of <$> h !! d with
  | Some (KDict marker items) =>
      match items with
      | [] => True
      | _ :: _ => marker_ready h marker /\ Forall (entry_ready h avoid) items
      end
  | _ => False
  end.

(** The releases are as [construct_releases] builds them from a parsed
    changelog: dicts of a marker and issues with their descriptions, the
    descriptions being trees that do not reach the section of a release. *)
Definition well_formed (h : store) (releases : list loc) : Prop :=
  Forall (release_ready h (sections h releases)) releases.

(** A store for the examples.  Objects 0 to 2: the section of release 1.0
    with its heading, and the marker of the release.  Objects 3 to 9: the
    two nodes of the nodelist of feature #2; the nodes of its description,
    which are a text, the issue element of :bug:`5` (with the node of its
    nodelist before it) and a text; and feature #2 itself.  Objects 10 and
    11: the paragraphs of the two changelog items.  Object 12: the dict of
    the release, with feature #2 as its entry. *)
Definition sample_store : store :=
  [ Cell (KElem "raw" []) (Some 1) [];
    Cell (KElem "section" [("ids", "1.0")]) None [0];
    Cell (KRelease (Release "1.0" (Some "2020-01-01") [1])) (Some 10) [];
    Cell (KElem "raw" []) None [];
    Cell (KElem "inline" []) None [];
    Cell (KText " Reverts ") (Some 11) [];
    Cell (KElem "raw" []) None [];
    Cell (KIssue (Issue (Some "5") bug false false None [6] None)) (Some 11) [];
    Cell (KText ".") (Some 11) [];
    Cell (KIssue (Issue (Some "2") feature false false None [3; 4] (Some [5; 7; 8])))
         (Some 11) [];
    Cell (KElem "paragraph" []) None [2];
    Cell (KElem "paragraph" []) None [9; 5; 7; 8];
    Cell (KDict 2 [9]) None [] ].

Definition sample_releases : list loc := [12].

(** The tree below an object of the store, for the comparison of the store
    with the trees of the first model; [fuel] bounds the depth. *)
Fixpoint node_at (fuel : nat) (h : store) (l : loc) : option node :=
  match fuel with
  | 0 => None
  | S fuel' =>
      c ← h !! l;
      match kind_of c with
      | KText s => Some (Text s)
      | KElem tag attrs =>
          cs ← mapM (node_at fuel' h) (children c);
          Some (Elem tag attrs cs)
      | KIssue x =>
          nl ← mapM (node_at fuel' h) (nodelist x);
          d ← match description x with
              | None => Some None
              | Some dsc => Some <$> mapM (node_at fuel' h) dsc
              end;
          Some (IssueEl (Issue (number x) (type_ x) (backported x) (major x) (line x) nl d))
      | KRelease r =>
          nl ← mapM (node_at fuel' h) (release_nodelist r);
          Some (ReleaseEl (Release (release_number r) (date r) nl))
      | KDict _ _ => None
      end
  end.

(** The release of [sample_store], as a value of the first model. *)
Definition sample_release_dict : option release_dict :=
  m ← node_at 8 sample_store 2;
  e ← node_at 8 sample_store 9;
  match m, e with
  | ReleaseEl r, IssueEl x => Some (ReleaseDict r [IssueRef 0 x])
  | _, _ => None
  end.

(** ** The error monad *)

Lemma bind_Ok {A B} (m : result A) (f : A -> result B) (b : B) :
  m ≫= f = Ok b <-> exists a, m = Ok a /\ f a = Ok b.
Proof.
  destruct m as [a|e]; simpl.
  - split; [eauto | intros (a' & [= <-] & H); exact H].
  - split; [discriminate | intros (a' & [=] & _)].
Qed.

Lemma bind_Raise {A B} (m : result A) (f : A -> result B) (e : exn) :
  m ≫= f = Raise e <-> m = Raise e \/ exists a, m = Ok a /\ f a = Raise e.
Proof.
  destruct m as [a|e']; simpl.
  - split; [eauto | intros [[=] | (a' & [= <-] & H)]; exact H].
  - split; [intros [= ->]; auto | intros [[= ->] | (a' & [=] & _)]; reflexivity].
Qed.

Ltac inv_bind H :=
  let a := fresh "a" in
  let Ha := fresh "H" a in
  apply bind_Ok in H as (a & Ha & H).

Tactic Notation "inv_bind_as" hyp(H) ident(a) ident(Ha) :=
  apply bind_Ok in H as (a & Ha & H).

(** An invariant of the loop body is an invariant of the loop. *)
Lemma foldM_invariant {A B} (P : A -> Prop) (body : A -> B -> result A) l :
  (forall a x a', P a -> body a x = Ok a' -> P a') ->
  forall a a', P a -> foldM body a l = Ok a' -> P a'.
Proof.
  intros Hbody. induction l as [|x l IH]; intros a a' Ha H; simpl in H.
  - by injection H as <-.
  - inv_bind H. eauto.
Qed.

(** A loop whose body cannot raise under the invariant does not raise. *)
Lemma foldM_total {A B} (P : A -> Prop) (body : A -> B -> result A) l :
  (forall a x, P a -> exists a', body a x = Ok a' /\ P a') ->
  forall a, P a -> exists a', foldM body a l = Ok a' /\ P a'.
Proof.
  intros Hbody. induction l as [|x l IH]; intros a Ha; simpl.
  - eauto.
  - destruct (Hbody a x Ha) as (a1 & -> & Ha1). simpl. eauto.
Qed.

(** ** Lists of references *)

Lemma same_refl x : same x x = true.
Proof. apply Nat.eqb_refl. Qed.

Lemma list_remove_Forall (P : issue_ref -> Prop) x l l' :
  list_remove x l = Ok l' -> Forall P l -> Forall P l'.
Proof.
  revert l'. induction l as [|y l IH]; intros l' H Hl; simpl in H; [discriminate|].
  apply Forall_cons in Hl as [Hy Hl].
  destruct (same x y).
  - by injection H as <-.
  - inv_bind H. injection H as <-. apply Forall_cons. eauto.
Qed.

Lemma list_remove_present x l :
  py_in x l = true -> exists l', list_remove x l = Ok l'.
Proof.
  induction l as [|y l IH]; simpl; [discriminate|].
  destruct (same x y); simpl; [eauto|].
  intros H. destruct (IH H) as [l' ->]. simpl. eauto.
Qed.

Lemma list_remove_absent x l :
  py_in x l = false -> raises (list_remove x l).
Proof.
  induction l as [|y l IH]; simpl; [by eexists|].
  destruct (same x y); simpl; [discriminate|].
  intros H. destruct (IH H) as [e ->]. by eexists.
Qed.

(** ** Buckets: what the updates keep *)

Section buckets.
Implicit Types lines : gmap string (list issue_ref).
Implicit Types (x : issue_ref) (k : string).
Variable P : issue_ref -> Prop.

Lemma getitem_Ok lines k l : getitem lines k = Ok l <-> lines !! k = Some l.
Proof. unfold getitem. destruct (lines !! k); split; congruence. Qed.

Lemma update_dom lines k l l' :
  lines !! k = Some l -> dom (<[k := l']> lines) = dom lines.
Proof.
  intros Hk. rewrite dom_insert_L.
  apply subseteq_union_1_L, singleton_subseteq_l, elem_of_dom. eauto.
Qed.

Lemma update_outside lines k l l' :
  lines !! k = Some l -> (Forall P l -> Forall P l') ->
  outside_feature P lines -> outside_feature P (<[k := l']> lines).
Proof.
  intros Hk Hl Hinv k' b Hb Hne.
  destruct (decide (k = k')) as [<-|Hkk].
  - rewrite lookup_insert_eq in Hb. injection Hb as <-. eauto.
  - rewrite lookup_insert_ne in Hb by done. eauto.
Qed.

Lemma bucket_remove_dom k x lines lines' :
  bucket_remove k x lines = Ok lines' -> dom lines' = dom lines.
Proof.
  unfold bucket_remove. intros H. inv_bind H. inv_bind H. injection H as <-.
  apply getitem_Ok in Ha. eauto using update_dom.
Qed.

Lemma bucket_remove_outside k x lines lines' :
  bucket_remove k x lines = Ok lines' ->
  outside_feature P lines -> outside_feature P lines'.
Proof.
  unfold bucket_remove. intros H. inv_bind H. inv_bind H. injection H as <-.
  apply getitem_Ok in Ha. eauto using update_outside, list_remove_Forall.
Qed.

Lemma remove_if_present_dom k x lines lines' :
  remove_if_present k x lines = Ok lines' -> dom lines' = dom lines.
Proof.
  unfold remove_if_present. intros H. inv_bind H.
  destruct (py_in x a); [eauto using bucket_remove_dom | by injection H as <-].
Qed.

Lemma remove_if_present_outside k x lines lines' :
  remove_if_present k x lines = Ok lines' ->
  outside_feature P lines -> outside_feature P lines'.
Proof.
  unfold remove_if_present. intros H. inv_bind H.
  destruct (py_in x a); [eauto using bucket_remove_outside | by injection H as <-].
Qed.

(** The guarded removal succeeds on every bucket that exists. *)
Lemma remove_if_present_total k x lines :
  is_Some (lines !! k) -> exists lines', remove_if_present k x lines = Ok lines'.
Proof.
  intros [l Hl]. unfold remove_if_present, bucket_remove, getitem. rewrite Hl. simpl.
  destruct (py_in x l) eqn:Hin; [|eauto].
  destruct (list_remove_present _ _ Hin) as [l' ->]. simpl. eauto.
Qed.

Lemma bucket_append_Some x lines k l :
  lines !! k = Some l -> bucket_append x lines k = Ok (<[k := l ++ [x]]> lines).
Proof. intros H. unfold bucket_append, getitem. by rewrite H. Qed.

Lemma bucket_append_dom x lines k lines' :
  bucket_append x lines k = Ok lines' -> dom lines' = dom lines.
Proof.
  unfold bucket_append. intros H. inv_bind H. injection H as <-.
  apply getitem_Ok in Ha. eauto using update_dom.
Qed.

Lemma bucket_append_outside x lines k lines' :
  bucket_append x lines k = Ok lines' ->
  (k ≠ unreleased_feature -> P x) ->
  outside_feature P lines -> outside_feature P lines'.
Proof.
  unfold bucket_append. intros H Hx Hinv. inv_bind H. injection H as <-.
  apply getitem_Ok in Ha.
  intros k' b Hb Hne. destruct (decide (k = k')) as [<-|Hkk].
  - rewrite lookup_insert_eq in Hb. injection Hb as <-.
    apply Forall_app. split; [eauto | apply Forall_singleton; auto].
  - rewrite lookup_insert_ne in Hb by done. eauto.
Qed.

Lemma explicit_cleanup_dom rline lines o lines' :
  explicit_cleanup rline lines o = Ok lines' -> dom lines' = dom lines.
Proof.
  unfold explicit_cleanup. intros H.
  destruct (type_ (target o)); [destruct (major (target o))|..].
  - eauto using bucket_remove_dom.
  - inv_bind H. apply remove_if_present_dom in H, Ha. congruence.
  - inv_bind H. apply bucket_remove_dom in Ha.
    destruct (py_in _ _); [apply bucket_remove_dom in H | injection H as <-]; congruence.
  - inv_bind H. apply bucket_remove_dom in Ha.
    destruct (py_in _ _); [apply bucket_remove_dom in H | injection H as <-]; congruence.
Qed.

Lemma explicit_cleanup_outside rline lines o lines' :
  explicit_cleanup rline lines o = Ok lines' ->
  outside_feature P lines -> outside_feature P lines'.
Proof.
  unfold explicit_cleanup. intros H Hinv.
  destruct (type_ (target o)); [destruct (major (target o))|..].
  - eauto using bucket_remove_outside.
  - inv_bind H. eauto using remove_if_present_outside.
  - inv_bind H. apply bucket_remove_outside in Ha; [|done].
    destruct (py_in _ _); [eauto using bucket_remove_outside | by injection H as <-].
  - inv_bind H. apply bucket_remove_outside in Ha; [|done].
    destruct (py_in _ _); [eauto using bucket_remove_outside | by injection H as <-].
Qed.
End buckets.

(** ** The fan-out of an issue *)

Section fan_out.
Implicit Types lines : gmap string (list issue_ref).
Implicit Types (x : issue_ref) (k : string).

Lemma append_each_dom x ks lines lines' :
  foldM (bucket_append x) lines ks = Ok lines' -> dom lines' = dom lines.
Proof.
  apply (foldM_invariant (fun l => dom l = dom lines)); [|done].
  intros a k a' Ha H. apply bucket_append_dom in H. congruence.
Qed.

Lemma append_each_outside (P : issue_ref -> Prop) x ks lines lines' :
  foldM (bucket_append x) lines ks = Ok lines' ->
  (Forall (fun k => k = unreleased_feature) ks \/ P x) ->
  outside_feature P lines -> outside_feature P lines'.
Proof.
  revert lines. induction ks as [|k ks IH]; intros lines H Hx Hinv; simpl in H.
  - by injection H as <-.
  - inv_bind H. apply (IH a); [done| |].
    + destruct Hx as [Hx%Forall_cons|Hx]; [left; tauto | by right].
    + eapply bucket_append_outside; [done| |done].
      intros Hk. destruct Hx as [Hx%Forall_cons|Hx]; [tauto | done].
Qed.

(** Appending to distinct existing buckets: the loop succeeds, and each
    bucket named in [ks] gets the issue at its end, once. *)
Lemma append_each_lookup x ks lines :
  NoDup ks -> (forall k, k ∈ ks -> is_Some (lines !! k)) ->
  exists lines', foldM (bucket_append x) lines ks = Ok lines' /\
    forall k, lines' !! k =
      if decide (k ∈ ks) then (fun l => l ++ [x]) <$> lines !! k else lines !! k.
Proof.
  revert lines. induction ks as [|k0 ks IH]; intros lines Hnd Hks; simpl.
  - exists lines. split; [done|]. intros k.
    destruct (decide (k ∈ [])) as [Hk|_]; [by apply elem_of_nil in Hk | done].
  - apply NoDup_cons in Hnd as [Hk0 Hnd].
    destruct (Hks k0) as [l0 Hl0]; [set_solver|].
    rewrite (bucket_append_Some _ _ _ _ Hl0). simpl.
    destruct (IH (<[k0 := l0 ++ [x]]> lines) Hnd) as (lines' & -> & Hlook).
    { intros k Hk. apply lookup_insert_is_Some'. right. apply Hks. set_solver. }
    exists lines'. split; [done|]. intros k. rewrite Hlook.
    destruct (decide (k = k0)) as [->|Hne].
    + rewrite lookup_insert_eq, Hl0.
      destruct (decide (k0 ∈ ks)); [done|].
      destruct (decide (k0 ∈ k0 :: ks)) as [_|[]]; [done | left].
    + rewrite lookup_insert_ne by done.
      destruct (decide (k ∈ ks)) as [Hk|Hk], (decide (k ∈ k0 :: ks)) as [Hk'|Hk'];
        try done.
      * destruct Hk'. by right.
      * apply elem_of_cons in Hk' as [->|Hk']; done.
Qed.

Lemma elem_of_keys lines k : k ∈ keys lines <-> is_Some (lines !! k).
Proof.
  unfold keys. rewrite list_elem_of_fmap. split.
  - intros ([k' l] & -> & H%elem_of_map_to_list). eauto.
  - intros [l H]. exists (k, l). split; [done|]. by apply elem_of_map_to_list.
Qed.

Lemma NoDup_keys lines : NoDup (keys lines).
Proof. apply NoDup_fst_map_to_list. Qed.

End fan_out.

Lemma fan_out_dom x lines lines' :
  fan_out x lines = Ok lines' -> dom lines' = dom lines.
Proof.
  unfold fan_out. intros H.
  destruct (type_ (target x)); [destruct (major (target x))|..].
  - eauto using bucket_append_dom.
  - inv_bind H. eauto using append_each_dom.
  - destruct (backported (target x)); eauto using append_each_dom, bucket_append_dom.
  - destruct (backported (target x)); eauto using append_each_dom, bucket_append_dom.
Qed.

(** An issue reaches a bucket other than unreleased_feature only as a
    regular bug or as a backported feature or support item. *)
Lemma fan_out_outside (P : issue_ref -> Prop) x lines lines' :
  fan_out x lines = Ok lines' ->
  (type_ (target x) = bug -> major (target x) = false -> P x) ->
  (type_ (target x) ≠ bug -> backported (target x) = true -> P x) ->
  outside_feature P lines -> outside_feature P lines'.
Proof.
  unfold fan_out. intros H Hbug Hport Hinv.
  destruct (type_ (target x)) eqn:Ht; [destruct (major (target x))|..].
  - eapply bucket_append_outside; eauto; done.
  - inv_bind H. eapply append_each_outside; eauto.
  - destruct (backported (target x)).
    + eapply append_each_outside; eauto.
    + eapply bucket_append_outside; eauto; done.
  - destruct (backported (target x)).
    + eapply append_each_outside; eauto.
    + eapply bucket_append_outside; eauto; done.
Qed.

(** ** One iteration of the loop: buckets are never deleted, and the
    contents of the buckets outside unreleased_feature stay within [P] *)

Lemma explicit_release_dom focus explicit st st' :
  explicit_release focus explicit st = Ok st' -> dom (lines st') = dom (lines st).
Proof.
  unfold explicit_release. intros H.
  destruct (missing_of _ _); [|discriminate].
  inv_bind H. inv_bind H. injection H as <-. simpl.
  revert Ha0. apply (foldM_invariant (fun l => dom l = dom (lines st))); [|done].
  intros l o l' Hl Ho. apply explicit_cleanup_dom in Ho. congruence.
Qed.

Lemma explicit_release_outside (P : issue_ref -> Prop) focus explicit st st' :
  explicit_release focus explicit st = Ok st' ->
  outside_feature P (lines st) -> outside_feature P (lines st').
Proof.
  unfold explicit_release. intros H Hinv.
  destruct (missing_of _ _); [|discriminate].
  inv_bind H. inv_bind H. injection H as <-. simpl.
  eapply (foldM_invariant (outside_feature P)); [|exact Hinv|exact Ha0].
  eauto using explicit_cleanup_outside.
Qed.

Lemma implicit_release_dom focus st st' :
  implicit_release focus st = Ok st' -> dom (lines st) ⊆ dom (lines st').
Proof.
  unfold implicit_release. intros H.
  destruct (lines st !! get_line focus) as [bucket|] eqn:Hline.
  - inv_bind H. injection H as <-. simpl.
    assert (dom a = dom (<[get_line focus := []]> (lines st))) as ->.
    { revert Ha. apply (foldM_invariant (fun l => dom l = dom _)); [|done].
      intros l o l' Hl Ho. apply remove_if_present_dom in Ho. congruence. }
    rewrite dom_insert_L. set_solver.
  - inv_bind H. injection H as <-. simpl. rewrite !dom_insert_L. set_solver.
Qed.

Lemma insert_nil_outside (P : issue_ref -> Prop) k (lines : gmap string (list issue_ref)) :
  outside_feature P lines -> outside_feature P (<[k := []]> lines).
Proof.
  intros Hinv k' b Hb Hne. destruct (decide (k = k')) as [<-|Hkk].
  - rewrite lookup_insert_eq in Hb. by injection Hb as <-.
  - rewrite lookup_insert_ne in Hb by done. eauto.
Qed.

Lemma implicit_release_outside (P : issue_ref -> Prop) focus st st' :
  implicit_release focus st = Ok st' ->
  outside_feature P (lines st) -> outside_feature P (lines st').
Proof.
  unfold implicit_release. intros H Hinv.
  destruct (lines st !! get_line focus) as [bucket|] eqn:Hline.
  - inv_bind H. injection H as <-. simpl.
    eapply (foldM_invariant (outside_feature P)); [| |exact Ha].
    + intros l o l'. simpl. eauto using remove_if_present_outside.
    + by apply insert_nil_outside.
  - inv_bind H. injection H as <-. simpl. by do 2 apply insert_nil_outside.
Qed.

Lemma release_branch_dom focus rest st st' :
  release_branch focus rest st = Ok st' -> dom (lines st) ⊆ dom (lines st').
Proof.
  unfold release_branch. intros H. inv_bind H.
  destruct a as [[|i explicit]|]; eauto using implicit_release_dom.
  apply explicit_release_dom in H. by rewrite H.
Qed.

Lemma release_branch_outside (P : issue_ref -> Prop) focus rest st st' :
  release_branch focus rest st = Ok st' ->
  outside_feature P (lines st) -> outside_feature P (lines st').
Proof.
  unfold release_branch. intros H. inv_bind H.
  destruct a as [[|i explicit]|];
    eauto using implicit_release_outside, explicit_release_outside.
Qed.

Lemma issue_branch_Ok i focus rest st st' :
  issue_branch i focus rest st = Ok st' ->
  let x := IssueRef i (as_issue focus rest) in
  releases st' = releases st /\
  issues st' = <[number (target x) := x]> (issues st) /\
  fan_out x (lines st) = Ok (lines st').
Proof.
  unfold issue_branch. intros H. simpl in *.
  destruct (truthy _ && _); [discriminate|].
  inv_bind H. by injection H as <-.
Qed.

Lemma step_dom i it st st' :
  step i it st = Ok st' -> dom (lines st) ⊆ dom (lines st').
Proof.
  unfold step. intros H. inv_bind H. destruct a as [focus rest].
  destruct focus; eauto using release_branch_dom;
    apply issue_branch_Ok in H as (_ & _ & H%fan_out_dom); by rewrite H.
Qed.

Lemma step_sentinels i it st st' :
  step i it st = Ok st' -> sentinels (lines st) -> sentinels (lines st').
Proof.
  intros H%step_dom [Hb Hf]. split; apply elem_of_dom, H, elem_of_dom; done.
Qed.

Lemma initial_sentinels : sentinels (lines initial).
Proof. split; by eexists. Qed.

Lemma loop_sentinels items i st st' :
  loop items i st = Ok st' -> sentinels (lines st) -> sentinels (lines st').
Proof.
  revert i st. induction items as [|it items IH]; intros i st H Hs; simpl in H.
  - by injection H as <-.
  - inv_bind H. eauto using step_sentinels.
Qed.

Lemma step_outside (P : issue_ref -> Prop) i it st st' :
  step i it st = Ok st' ->
  (forall focus rest, focus_rest it = Ok (focus, rest) ->
     let x := IssueRef i (as_issue focus rest) in
     (type_ (target x) = bug -> major (target x) = false -> P x) /\
     (type_ (target x) ≠ bug -> backported (target x) = true -> P x)) ->
  outside_feature P (lines st) -> outside_feature P (lines st').
Proof.
  unfold step. intros H Hx Hinv. inv_bind H. destruct a as [focus rest].
  destruct (Hx _ _ Ha) as [Hbug Hport].
  destruct focus; eauto using release_branch_outside;
    apply issue_branch_Ok in H as (_ & _ & H); eauto using fan_out_outside.
Qed.

Lemma loop_outside (P : issue_ref -> Prop) items i st st' :
  loop items i st = Ok st' ->
  (forall j it focus rest, it ∈ items -> focus_rest it = Ok (focus, rest) ->
     let x := IssueRef j (as_issue focus rest) in
     (type_ (target x) = bug -> major (target x) = false -> P x) /\
     (type_ (target x) ≠ bug -> backported (target x) = true -> P x)) ->
  outside_feature P (lines st) -> outside_feature P (lines st').
Proof.
  revert i st. induction items as [|it items IH]; intros i st H Hx Hinv; simpl in H.
  - by injection H as <-.
  - inv_bind H. apply (IH _ _ H).
    + intros j it' focus rest Hin. apply Hx. by right.
    + eapply step_outside; [done| |done].
      intros focus rest. apply Hx. by left.
Qed.

Lemma initial_outside (P : issue_ref -> Prop) : outside_feature P (lines initial).
Proof.
  intros k l Hl _. simpl in Hl.
  apply lookup_insert_Some in Hl as [[_ <-]|[_ Hl]]; [done|].
  apply lookup_insert_Some in Hl as [[_ <-]|[_ Hl]]; [done|].
  by rewrite lookup_empty in Hl.
Qed.

Lemma filter_not_major_id l :
  Forall (fun x => major (target x) = false) l -> filter not_major l = l.
Proof.
  induction 1 as [|x l Hx Hl IH]; [done|].
  rewrite filter_cons_True, IH; [done|].
  unfold not_major. by rewrite Hx.
Qed.

Lemma release_branch_releases focus rest st st' :
  release_branch focus rest st = Ok st' ->
  exists es, releases st' = releases st ++ [ReleaseDict focus es].
Proof.
  unfold release_branch, explicit_release, implicit_release. intros H. inv_bind H.
  destruct a as [[|i explicit]|].
  - destruct (lines st !! get_line focus); inv_bind H; injection H as <-; eauto.
  - destruct (missing_of _ _); [|discriminate].
    inv_bind H. inv_bind H. injection H as <-. eauto.
  - destruct (lines st !! get_line focus); inv_bind H; injection H as <-; eauto.
Qed.

Lemma loop_authored items i st st' :
  loop items i st = Ok st' ->
  exists rs, releases st' = releases st ++ rs /\ Forall (authored items) rs.
Proof.
  revert i st. induction items as [|it items IH]; intros i st H; simpl in H.
  - injection H as <-. exists []. by rewrite app_nil_r.
  - inv_bind H. destruct (IH _ _ H) as (rs & Hrs & Hall).
    assert (Forall (authored (it :: items)) rs) as Hall'.
    { eapply Forall_impl; [done|]. intros d (it' & rest & Hin & Hd).
      exists it', rest. split; [by right | done]. }
    unfold step in Ha. inv_bind Ha. destruct a0 as [focus rest].
    destruct focus as [s|tag attrs children|x|r];
      try (apply issue_branch_Ok in Ha as (Hr & _ & _); exists rs; by rewrite Hrs, Hr).
    apply release_branch_releases in Ha as [es Hes].
    exists (ReleaseDict r es :: rs). split.
    + by rewrite Hrs, Hes, <- app_assoc.
    + apply Forall_cons. split; [|done]. exists it, rest. split; [by left | done].
Qed.

(** * The claims *)

(** C9.  When the loop over the items has run to its end, [construct_releases]
    returns the releases the loop built, every one of them the release of a
    marker of the changelog, followed by exactly two more: the one of
    unreleased_bugfix and then the one of unreleased_feature.  The marker of
    each has no date, and its entries are what its bucket holds at that
    point. *)
Theorem trailing_unreleased_releases entries app st :
  loop (reverse entries) 0 initial = Ok st ->
  exists bugfixes features,
    lines st !! unreleased_bugfix = Some bugfixes /\
    lines st !! unreleased_feature = Some features /\
    Forall (authored entries) (releases st) /\
    construct_releases entries app =
      Ok (releases st ++
          [ReleaseDict (Release unreleased_bugfix None
                          [release_nodes "Next bugfix release" "master" None app])
                       bugfixes;
           ReleaseDict (Release unreleased_feature None
                          [release_nodes "Next feature release" "master" None app])
                       features]).
Proof.
  intros H.
  destruct (loop_sentinels _ _ _ _ H initial_sentinels) as [[b Hb] [f Hf]].
  exists b, f. split; [done|]. split; [done|]. split.
  - destruct (loop_authored _ _ _ _ H) as (rs & Hrs & Hall). simpl in Hrs. rewrite Hrs.
    eapply Forall_impl; [done|]. intros d (it & rest & Hin & Hd).
    exists it, rest. split; [|done]. by apply elem_of_reverse.
  - unfold construct_releases. rewrite H. simpl.
    unfold faux_release, getitem. simpl.
    change ("unreleased_" +:+ "bugfix") with unreleased_bugfix.
    change ("unreleased_" +:+ "feature") with unreleased_feature.
    rewrite Hb. simpl. rewrite Hf. simpl. by rewrite <- app_assoc.
Qed.

Lemma trailing_unreleased_releases_witness :
  exists rs,
    construct_releases
      [item (ReleaseEl (release_of_role "1.0" "2020-01-01" sample_config)) [];
       item (IssueEl (bug_1 sample_config)) [Text " Fix the parser"]]
      sample_config = Ok rs /\
    length rs = 3.
Proof.
  destruct (trailing_unreleased_releases
              [item (ReleaseEl (release_of_role "1.0" "2020-01-01" sample_config)) [];
               item (IssueEl (bug_1 sample_config)) [Text " Fix the parser"]]
              sample_config
              (State [ReleaseDict (release_of_role "1.0" "2020-01-01" sample_config) []]
                     (<[ "1" := [] ]>
                        (<[unreleased_bugfix :=
                             [IssueRef 0 (described (bug_1 sample_config)
                                                    [Text " Fix the parser"])] ]>
                           (<[unreleased_feature := [] ]> ∅)))
                     (<[Some "1" := IssueRef 0 (described (bug_1 sample_config)
                                                         [Text " Fix the parser"]) ]> ∅)))
    as (b & f & Hb & Hf & _ & ->).
  - vm_compute. reflexivity.
  - eexists. split; [reflexivity|]. reflexivity.
Defined.

(** C10.  After any number of items of the changelog have been processed, no
    bucket other than unreleased_feature holds a bug marked major: neither
    unreleased_bugfix nor the bucket of a release line.  When the flags of
    the issue elements are as [issues_role] sets them, no issue in such a
    bucket is marked major at all, so the filter [not x.major] of a bugfix
    release keeps the whole bucket. *)
Theorem major_bugs_only_in_unreleased_feature entries n st :
  loop (take n (reverse entries)) 0 initial = Ok st ->
  outside_feature (fun x => ~ major_bug x) (lines st) /\
  (Forall role_flags entries ->
   forall k l, lines st !! k = Some l -> k ≠ unreleased_feature ->
     filter not_major l = l).
Proof.
  intros H. split.
  - eapply loop_outside; [exact H| |apply initial_outside].
    intros j it focus rest _ _. simpl. split.
    + intros _ Hm [_ Hm']. simpl in Hm'. congruence.
    + intros Ht _ [Ht' _]. exact (Ht Ht').
  - intros Hflags k l Hl Hk. apply filter_not_major_id.
    eapply (loop_outside (fun x => major (target x) = false)); eauto using initial_outside.
    intros j it focus rest Hin Hit. simpl. split; [done|].
    destruct focus as [s|tag attrs children|x|r]; simpl; try done.
    intros _. eapply Forall_forall in Hflags; [by apply (Hflags x rest)|].
    apply elem_of_reverse. by eapply subseteq_take.
Qed.

Lemma major_bugs_only_in_unreleased_feature_witness :
  let cfg := sample_config in
  let l := [IssueRef 2 (described (bug_5 cfg) []); IssueRef 4 (described (feature_8 cfg) [])] in
  exists st st',
    loop (take 5 (reverse (reverse (scenario_flags cfg)))) 0 initial = Ok st /\
    lines st !! "1.0" = Some l /\
    lines st !! unreleased_bugfix = Some l /\
    lines st !! unreleased_feature
      = Some [IssueRef 3 (described (bug_7 cfg) []); IssueRef 4 (described (feature_8 cfg) [])] /\
    major_bug (IssueRef 3 (described (bug_7 cfg) [])) /\
    outside_feature (fun x => ~ major_bug x) (lines st) /\
    filter not_major l = l /\
    step 5 (item (ReleaseEl (release_of_role "1.0.1" "2020-02-01" cfg)) []) st = Ok st' /\
    releases st' = releases st ++ [ReleaseDict (release_of_role "1.0.1" "2020-02-01" cfg) l].
Proof.
  intros cfg l.
  destruct (loop (take 5 (reverse (reverse (scenario_flags cfg)))) 0 initial)
    as [st|e] eqn:H; [|by vm_compute in H].
  destruct (major_bugs_only_in_unreleased_feature _ _ _ H) as [Hinv Hfilter].
  assert (Forall role_flags (reverse (scenario_flags cfg))) as Hflags.
  { apply Forall_reverse. repeat constructor; intros i rest [= <- <-]; simpl; congruence. }
  assert (lines st !! "1.0" = Some l) as Hl.
  { vm_compute in H. injection H as <-. reflexivity. }
  pose proof (Hfilter Hflags "1.0" l Hl ltac:(discriminate)) as Hkeep.
  exists st. vm_compute in H. injection H as <-.
  eexists. split; [reflexivity|]. split; [exact Hl|]. split; [reflexivity|].
  split; [reflexivity|]. split; [by split|]. split; [exact Hinv|]. split; [exact Hkeep|].
  split; [vm_compute; reflexivity | reflexivity].
Defined.


Lemma step_issue i iss rest st :
  step i (item (IssueEl iss) rest) st = issue_branch i (IssueEl iss) rest st.
Proof. reflexivity. Qed.

Lemma step_release i r rest st :
  step i (item (ReleaseEl r) rest) st = release_branch r rest st.
Proof. reflexivity. Qed.

Lemma issue_branch_fresh i focus rest st lines' :
  let x := IssueRef i (as_issue focus rest) in
  (truthy (number (target x)) = true -> issues st !! number (target x) = None) ->
  fan_out x (lines st) = Ok lines' ->
  issue_branch i focus rest st =
    Ok (State (releases st) lines' (<[number (target x) := x]> (issues st))).
Proof.
  intros x Hdup Hfan. unfold issue_branch. fold x.
  assert (truthy (number (target x))
          && bool_decide (is_Some (issues st !! number (target x))) = false) as ->.
  { destruct (truthy (number (target x))); [|done]. by rewrite Hdup. }
  by rewrite Hfan.
Qed.

Lemma fan_out_regular_bug x lines :
  type_ (target x) = bug -> major (target x) = false ->
  fan_out x lines = targets ← bug_lines (target x) lines; foldM (bucket_append x) lines targets.
Proof. intros Ht Hm. unfold fan_out. by rewrite Ht, Hm. Qed.

(** ** The comparison of [LooseVersion] on dotted numeric versions *)

Lemma split_nonempty sep s : split sep s ≠ [].
Proof.
  destruct s as [|c s]; simpl; [done|].
  destruct (Ascii.eqb c sep); [done|]. by destruct (split sep s).
Qed.








Lemma loop_app items1 items2 i st :
  loop (items1 ++ items2) i st =
  st1 ← loop items1 i st; loop items2 (i + length items1) st1.
Proof.
  revert i st. induction items1 as [|it items1 IH]; intros i st; simpl.
  - by rewrite Nat.add_0_r.
  - destruct (step i it st) as [st1|e]; simpl; [|done].
    rewrite IH. by rewrite Nat.add_succ_r.
Qed.

(** ** The regular bug with a minimum line *)





(** ** The end-to-end scenarios *)

(** C3, as the code behaves.  For the stream of bug #1 followed by the
    implicit release 1.0, exactly one release of a marker is built, and its
    entry list is empty.  The release creates the bucket of its line, which
    is named 1 (the version without its last component), and creates it
    empty: after the release issue #1 is in unreleased_bugfix only, and no
    bucket named 1.0 exists. *)
Theorem scenario_1_buckets cfg desc :
  let x := IssueRef 0 (described (bug_1 cfg) desc) in
  let r := release_of_role "1.0" "2020-01-01" cfg in
  exists st,
    loop (scenario_1 cfg desc) 0 initial = Ok st /\
    releases st = [ReleaseDict r []] /\
    lines st !! unreleased_bugfix = Some [x] /\
    lines st !! unreleased_feature = Some [] /\
    get_line r = "1" /\
    lines st !! "1" = Some [] /\
    lines st !! "1.0" = None /\
    construct_releases (reverse (scenario_1 cfg desc)) cfg =
      Ok [ReleaseDict r []; next_release "bugfix" cfg [x]; next_release "feature" cfg []].
Proof.
  intros x r. eexists. split; [reflexivity|]. repeat split.
Qed.

(** C3 as stated fails: after the stream, issue #1 is not in a bucket named
    1.0. *)
Lemma scenario_1_not_in_line_bucket :
  ~ (exists st l,
       loop (scenario_1 sample_config []) 0 initial = Ok st /\
       py_in (IssueRef 0 (described (bug_1 sample_config) []))
             (default [] (lines st !! unreleased_bugfix)) = true /\
       lines st !! "1.0" = Some l /\
       py_in (IssueRef 0 (described (bug_1 sample_config) [])) l = true).
Proof.
  intros (st & l & H & _ & Hl & _).
  vm_compute in H. injection H as <-. vm_compute in Hl. discriminate.
Qed.

Lemma in_feature_release_spec x :
  in_feature_release x = true <->
  (type_ (target x) = feature \/ type_ (target x) = support) \/
  (type_ (target x) = bug /\ major (target x) = true).
Proof.
  unfold in_feature_release. destruct (type_ (target x)).
  - split; [by right | by intros [[|]|[]]].
  - split; [by left; left | done].
  - split; [by left; right | done].
Qed.

(** C4, as the code behaves.  An implicit release whose line has no bucket
    yet gets as entries the issues of unreleased_feature that are features,
    support items or major bugs, in the order of the bucket; the bucket of
    the line is created empty and unreleased_feature is emptied.  For the
    stream of feature #2 followed by the implicit release 1.0, the release
    holds feature #2, unreleased_feature is empty afterwards, and the bucket
    created is the one of the line of 1.0, which is named 1; no bucket named
    1.0 exists. *)
Theorem implicit_release_of_new_line i r st features :
  lines st !! get_line r = None ->
  lines st !! unreleased_feature = Some features ->
  step i (item (ReleaseEl r) []) st =
    Ok (State (releases st ++ [ReleaseDict r (filter in_feature_release features)])
              (<[unreleased_feature := []]> (<[get_line r := []]> (lines st)))
              (issues st)) /\
  (forall x, x ∈ filter in_feature_release features <->
     x ∈ features /\
     ((type_ (target x) = feature \/ type_ (target x) = support) \/
      (type_ (target x) = bug /\ major (target x) = true))) /\
  (forall cfg desc,
     let x := IssueRef 0 (described (feature_2 cfg) desc) in
     let r := release_of_role "1.0" "2020-01-01" cfg in
     exists st',
       loop (scenario_2 cfg desc) 0 initial = Ok st' /\
       releases st' = [ReleaseDict r [x]] /\
       lines st' !! unreleased_feature = Some [] /\
       lines st' !! unreleased_bugfix = Some [] /\
       lines st' !! "1" = Some [] /\
       lines st' !! "1.0" = None).
Proof.
  intros Hline Hf. split; [|split].
  - rewrite step_release. unfold release_branch. simpl.
    unfold implicit_release. rewrite Hline. unfold getitem.
    rewrite lookup_insert_ne, Hf; [done|].
    intros Heq. rewrite Heq, Hf in Hline. done.
  - intros x. rewrite list_elem_of_filter, Is_true_true, in_feature_release_spec. tauto.
  - intros cfg desc x r'. eexists. split; [reflexivity|]. repeat split.
Qed.

Lemma implicit_release_of_new_line_witness :
  let x := IssueRef 0 (described (feature_2 sample_config) []) in
  let r := release_of_role "1.0" "2020-01-01" sample_config in
  step 1 (item (ReleaseEl r) [])
       (State [] (<[unreleased_feature := [x]]> (lines initial)) (<[Some "2" := x]> ∅)) =
  Ok (State [ReleaseDict r [x]]
            (<[unreleased_feature := []]>
               (<["1" := []]> (<[unreleased_feature := [x]]> (lines initial))))
            (<[Some "2" := x]> ∅)).
Proof.
  intros x r.
  exact (proj1 (implicit_release_of_new_line 1 r
                  (State [] (<[unreleased_feature := [x]]> (lines initial))
                         (<[Some "2" := x]> ∅))
                  [x] eq_refl eq_refl)).
Defined.

(** C4 as stated fails in its example: the release 1.0 does not create a
    bucket named 1.0. *)
Lemma scenario_2_no_bucket_named_by_version :
  ~ (exists st,
       loop (scenario_2 sample_config []) 0 initial = Ok st /\
       releases st = [ReleaseDict (release_of_role "1.0" "2020-01-01" sample_config)
                        [IssueRef 0 (described (feature_2 sample_config) [])]] /\
       lines st !! "1.0" = Some [] /\
       lines st !! unreleased_feature = Some []).
Proof.
  intros (st & H & _ & Hl & _).
  vm_compute in H. injection H as <-. vm_compute in Hl. discriminate.
Qed.

(** C5, as the code behaves.  In the stream of feature #2, the implicit
    release 1.0, bug #3 with the minimum line 1.0 and a second implicit
    release 1.0, the line of both releases is 1, which compares below the
    minimum line 1.0: bug #3 is appended to unreleased_bugfix only, the
    second release has no entries, the bucket of its line is empty
    afterwards and #3 stays in unreleased_bugfix.  With the markers 1.0.0
    and 1.0.1, whose line is 1.0, the second release holds exactly bug #3,
    the bucket of the line is emptied and #3 leaves unreleased_bugfix. *)
Theorem scenario_3_buckets cfg desc2 desc3 :
  let f2 := IssueRef 0 (described (feature_2 cfg) desc2) in
  let b3 := IssueRef 2 (described (bug_3 cfg) desc3) in
  (exists st,
     loop (scenario_3 "1.0" "1.0" cfg desc2 desc3) 0 initial = Ok st /\
     releases st = [ReleaseDict (release_of_role "1.0" "2020-01-01" cfg) [f2];
                    ReleaseDict (release_of_role "1.0" "2020-02-01" cfg) []] /\
     get_line (release_of_role "1.0" "2020-02-01" cfg) = "1" /\
     version_ge "1" "1.0" = Ok false /\
     lines st !! "1" = Some [] /\
     lines st !! unreleased_bugfix = Some [b3] /\
     lines st !! unreleased_feature = Some []) /\
  (exists st,
     loop (scenario_3 "1.0.0" "1.0.1" cfg desc2 desc3) 0 initial = Ok st /\
     releases st = [ReleaseDict (release_of_role "1.0.0" "2020-01-01" cfg) [f2];
                    ReleaseDict (release_of_role "1.0.1" "2020-02-01" cfg) [b3]] /\
     get_line (release_of_role "1.0.1" "2020-02-01" cfg) = "1.0" /\
     lines st !! "1.0" = Some [] /\
     lines st !! unreleased_bugfix = Some [] /\
     lines st !! unreleased_feature = Some []).
Proof.
  intros f2 b3. split; eexists; (split; [reflexivity|]); repeat split.
Qed.

(** C5 as stated fails: the second release 1.0 does not hold bug #3, and #3
    is still in unreleased_bugfix. *)
Lemma scenario_3_second_release_empty :
  ~ (exists st first,
       loop (scenario_3 "1.0" "1.0" sample_config [] []) 0 initial = Ok st /\
       releases st =
         [first;
          ReleaseDict (release_of_role "1.0" "2020-02-01" sample_config)
                      [IssueRef 2 (described (bug_3 sample_config) [])]] /\
       lines st !! get_line (release_of_role "1.0" "2020-02-01" sample_config) = Some [] /\
       py_in (IssueRef 2 (described (bug_3 sample_config) []))
             (default [] (lines st !! unreleased_bugfix)) = false).
Proof.
  intros (st & first & H & Hr & _).
  vm_compute in H. injection H as <-. vm_compute in Hr. discriminate.
Qed.

(** ** The cleanup after a release *)

(** The cleanup of an implicit bugfix release is guarded throughout and
    cannot raise. *)
Lemma bugfix_cleanup_total (lines : gmap string (list issue_ref)) entries :
  is_Some (lines !! unreleased_bugfix) ->
  exists lines',
    foldM (fun lines x => remove_if_present unreleased_bugfix x lines) lines entries
    = Ok lines'.
Proof.
  intros Hub.
  destruct (foldM_total (fun l => is_Some (l !! unreleased_bugfix))
              (fun lines x => remove_if_present unreleased_bugfix x lines) entries)
    with (a := lines) as (lines' & H & _); [|done|eauto].
  intros l x Hl. destruct (remove_if_present_total unreleased_bugfix x l Hl) as [l' Hl'].
  exists l'. split; [done|].
  apply remove_if_present_dom in Hl'. apply elem_of_dom. rewrite Hl'. by apply elem_of_dom.
Qed.

Lemma bugfix_release_total r st bucket :
  lines st !! get_line r = Some bucket ->
  is_Some (lines st !! unreleased_bugfix) ->
  exists lines',
    implicit_release r st =
      Ok (State (releases st ++ [ReleaseDict r (filter not_major bucket)]) lines' (issues st)).
Proof.
  intros Hline Hub. unfold implicit_release. rewrite Hline.
  destruct (bugfix_cleanup_total (<[get_line r := []]> (lines st)) (filter not_major bucket))
    as [lines' ->]; [|by eexists].
  apply lookup_insert_is_Some'. by right.
Qed.

(** The check of an explicit list: the error names every listed number that
    is not in the registry, in the order of the list. *)
Lemma explicit_release_missing focus explicit st :
  missing_of (issues st) explicit ≠ [] ->
  explicit_release focus explicit st =
    Raise (unknown_issues (missing_of (issues st) explicit)).
Proof. unfold explicit_release. by destruct (missing_of _ _). Qed.

Lemma elem_of_missing_of (issues : gmap (option string) issue_ref) explicit i :
  i ∈ missing_of issues explicit <-> i ∈ explicit /\ issues !! Some i = None.
Proof. unfold missing_of. rewrite list_elem_of_filter. tauto. Qed.

(** When an explicit release goes through, no number was missing and its
    entries are the registered issues in the order of the list. *)
Lemma explicit_release_Ok focus explicit st st' :
  explicit_release focus explicit st = Ok st' ->
  missing_of (issues st) explicit = [] /\
  exists entries,
    Forall2 (fun i x => issues st !! Some i = Some x) explicit entries /\
    releases st' = releases st ++ [ReleaseDict focus entries] /\
    foldM (explicit_cleanup (get_line focus)) (lines st) entries = Ok (lines st') /\
    issues st' = issues st.
Proof.
  unfold explicit_release. intros H.
  destruct (missing_of _ _); [|discriminate]. split; [done|].
  inv_bind H. inv_bind H. injection H as <-. exists a. simpl. split; [|done].
  clear Ha0 a0. revert a Ha.
  induction explicit as [|i explicit IH]; intros a Ha; simpl in Ha.
  - injection Ha as <-. constructor.
  - inv_bind_as Ha x Hx. inv_bind_as Ha xs Hxs. injection Ha as <-.
    constructor; [|eauto].
    unfold registry_get in Hx. destruct (issues st !! Some i); [|done]. by injection Hx as <-.
Qed.

(** Removing one object does not change whether another is in the list. *)
Lemma list_remove_other x o l l' :
  list_remove o l = Ok l' -> same x o = false -> py_in x l' = py_in x l.
Proof.
  revert l'. induction l as [|y l IH]; intros l' H Hx; simpl in H; [discriminate|].
  destruct (same o y) eqn:Hoy.
  - injection H as <-. simpl.
    assert (same x y = false) as ->; [|done].
    unfold same in *. apply Nat.eqb_eq in Hoy. by rewrite <- Hoy.
  - inv_bind H. injection H as <-. simpl. by rewrite (IH a).
Qed.

Lemma bucket_remove_other k o x (lines lines' : gmap string (list issue_ref)) k' :
  bucket_remove k o lines = Ok lines' -> same x o = false ->
  py_in x (default [] (lines' !! k')) = py_in x (default [] (lines !! k')).
Proof.
  unfold bucket_remove. intros H Hx. inv_bind H. inv_bind H. injection H as <-.
  apply getitem_Ok in Ha. destruct (decide (k = k')) as [<-|Hne].
  - rewrite lookup_insert_eq, Ha. simpl. eauto using list_remove_other.
  - by rewrite lookup_insert_ne.
Qed.

Lemma remove_if_present_other k o x (lines lines' : gmap string (list issue_ref)) k' :
  remove_if_present k o lines = Ok lines' -> same x o = false ->
  py_in x (default [] (lines' !! k')) = py_in x (default [] (lines !! k')).
Proof.
  unfold remove_if_present. intros H Hx. inv_bind H.
  destruct (py_in o a); [eauto using bucket_remove_other | by injection H as <-].
Qed.

(** The cleanup of an explicit release touches the listed issues only: the
    bucket memberships of every other issue stay as they are. *)
Lemma explicit_cleanup_other rline x entries (lines lines' : gmap string (list issue_ref)) k :
  foldM (explicit_cleanup rline) lines entries = Ok lines' ->
  Forall (fun o => same x o = false) entries ->
  py_in x (default [] (lines' !! k)) = py_in x (default [] (lines !! k)).
Proof.
  revert lines. induction entries as [|o entries IH]; intros lines H Hx; simpl in H.
  - by injection H as <-.
  - inv_bind H. apply Forall_cons in Hx as [Ho Hx]. rewrite (IH _ H Hx).
    clear H IH. unfold explicit_cleanup in Ha.
    destruct (type_ (target o)); [destruct (major (target o))|..].
    + eauto using bucket_remove_other.
    + inv_bind Ha. rewrite (remove_if_present_other _ _ _ _ _ _ Ha Ho).
      eauto using remove_if_present_other.
    + inv_bind Ha. destruct (py_in o _).
      * rewrite (bucket_remove_other _ _ _ _ _ _ Ha Ho). eauto using bucket_remove_other.
      * injection Ha as <-. eauto using bucket_remove_other.
    + inv_bind Ha. destruct (py_in o _).
      * rewrite (bucket_remove_other _ _ _ _ _ _ Ha Ho). eauto using bucket_remove_other.
      * injection Ha as <-. eauto using bucket_remove_other.
Qed.

(** C1, at the inputs where the code breaks it.  The cleanup of an explicit
    release raises when a target is absent: for a listed regular bug the
    test [obj in lines[line]] raises KeyError when the line of the release
    has no bucket yet (the first release of a line that lists a bug), and
    for a listed feature [lines['unreleased_feature'].remove(obj)] raises
    ValueError when a feature release has already emptied that bucket. *)
Theorem explicit_cleanup_raises cfg desc5 desc6 desc2 :
  loop (scenario_4 "1.1" cfg desc5 desc6) 0 initial = Raise (KeyError "1") /\
  construct_releases (reverse (scenario_4 "1.1" cfg desc5 desc6)) cfg
    = Raise (KeyError "1") /\
  loop (scenario_4 "1.1.0" cfg desc5 desc6) 0 initial = Raise (KeyError "1.1") /\
  loop (listed_after_release cfg desc2) 0 initial
    = Raise (ValueError "list.remove(x): x not in list") /\
  construct_releases (reverse (listed_after_release cfg desc2)) cfg
    = Raise (ValueError "list.remove(x): x not in list").
Proof. repeat split. Qed.

(** C6, at the input where the code breaks it.  In the stream of bug #5,
    bug #6 and the release 1.1 that lists 6, the listed number is in the
    registry and nothing is missing, yet the release raises: the cleanup
    looks up the bucket of line 1, which does not exist. *)
Theorem explicit_release_raises_with_nothing_missing cfg desc5 desc6 :
  let listing := item (ReleaseEl (release_of_role "1.1" "2020-03-01" cfg)) [Text " 6"] in
  exists st,
    loop [item (IssueEl (bug_5 cfg)) desc5; item (IssueEl (bug_6 cfg)) desc6] 0 initial
      = Ok st /\
    explicit_list [Text " 6"] = Ok (Some ["6"]) /\
    issues st !! Some "6" = Some (IssueRef 1 (described (bug_6 cfg) desc6)) /\
    missing_of (issues st) ["6"] = [] /\
    step 2 listing st = Raise (KeyError "1") /\
    construct_releases (reverse (scenario_4 "1.1" cfg desc5 desc6)) cfg
      = Raise (KeyError "1").
Proof. intros listing. eexists. split; [reflexivity|]. repeat split. Qed.

(** ** The expansion of a description *)

Lemma deepcopy_id (n : node) : deepcopy n = n.
Proof.
  induction n as [s|tag attrs children IH|i|r] using node_children_ind; simpl; try done.
  f_equal. induction IH as [|c children Hc _ IH]; simpl; [done|]. by rewrite Hc, IH.
Qed.

Lemma map_deepcopy_id (desc : list node) : map deepcopy desc = desc.
Proof. induction desc as [|n desc IH]; simpl; [done|]. by rewrite deepcopy_id, IH. Qed.

Lemma substitute_no_issue desc :
  Forall (fun n => is_issue n = false) desc -> substitute desc = desc.
Proof.
  induction 1 as [|n desc Hn _ IH]; [done|].
  unfold substitute in *. simpl. rewrite IH. by destruct n.
Qed.

Lemma expand_no_issue i snapshot desc :
  Forall (fun n => is_issue n = false) snapshot -> expand i snapshot desc = desc.
Proof.
  intros H. revert i. induction H as [|n snapshot Hn _ IH]; intros i; [done|].
  destruct n; try discriminate Hn; simpl; apply IH.
Qed.

(** The loop is right up to and including the first issue element: the
    index in the snapshot is the index in [desc] as long as nothing has been
    replaced. *)
Lemma expand_prefix seen todo x after :
  Forall (fun n => is_issue n = false) todo ->
  Forall (fun n => is_issue n = false) after ->
  expand (length seen) (todo ++ IssueEl x :: after) (seen ++ todo ++ IssueEl x :: after)
  = seen ++ todo ++ nodelist x ++ after.
Proof.
  intros Htodo Hafter. revert seen.
  induction Htodo as [|n todo Hn _ IH]; intros seen; simpl.
  - rewrite expand_no_issue by done. unfold slice_assign.
    rewrite take_app_length. do 2 f_equal.
    rewrite (cons_middle (IssueEl x) seen after), app_assoc.
    apply drop_app_length'. rewrite length_app. simpl. lia.
  - specialize (IH (seen ++ [n])).
    rewrite length_app in IH. simpl in IH. rewrite Nat.add_1_r in IH.
    rewrite <- !app_assoc in IH. simpl in IH.
    destruct n; try done; by rewrite IH.
Qed.

(** With a single issue element in the description the expansion is the
    substitution. *)
Lemma expand_single_issue before x after :
  Forall (fun n => is_issue n = false) before ->
  Forall (fun n => is_issue n = false) after ->
  expand 0 (before ++ IssueEl x :: after) (before ++ IssueEl x :: after)
  = substitute (before ++ IssueEl x :: after).
Proof.
  intros Hb Ha. pose proof (expand_prefix [] before x after Hb Ha) as H.
  simpl in H. rewrite H.
  unfold substitute. rewrite flat_map_app. simpl.
  fold (substitute before). fold (substitute after).
  by rewrite !substitute_no_issue.
Qed.

(** C7, at the input where the code breaks it.  For an entry whose
    description mentions two issues, the loop replaces the first issue
    element where it stands, and then assigns the fragment of the second at
    the index the second had before the first replacement: it overwrites a
    node of the first fragment, and the second issue element stays in the
    list item.  The result differs from the substitution of every issue
    element at its own position. *)
Theorem expand_misplaces_second_reference cfg :
  let desc := two_mentions cfg in
  let a := nodelist (bug_5 cfg) in
  let b := nodelist (bug_6 cfg) in
  substitute desc = [Text " Reverts "] ++ a ++ [Text " and "] ++ b ++ [Text "."] /\
  expand 0 (map deepcopy desc) (map deepcopy desc)
    = [Text " Reverts "] ++ take 2 a ++ b ++ drop 3 a
      ++ [Text " and "; IssueEl (bug_6 cfg); Text "."] /\
  expand 0 (map deepcopy desc) (map deepcopy desc) ≠ substitute desc /\
  (exists section',
     append_child
       (release_nodes "1.0" "1.0" (Some "2020-01-01") cfg)
       (Elem "bullet_list" []
          [Elem "list_item" []
             [Elem "paragraph" []
                (nodelist (feature_2 cfg)
                 ++ [Text " Reverts "] ++ take 2 a ++ b ++ drop 3 a
                 ++ [Text " and "; IssueEl (bug_6 cfg); Text "."])]])
     = Ok section' /\
     construct_nodes [one_entry_release cfg desc]
     = Ok ([section'],
           [ReleaseDict (Release "1.0" (Some "2020-01-01") [section'])
                        (entries (one_entry_release cfg desc))])).
Proof.
  intros desc a b. split; [reflexivity|]. split; [reflexivity|]. split.
  - intros H. apply (f_equal (fun l => l !! 9)) in H. discriminate H.
  - eexists. split; reflexivity.
Qed.

(** ** What the assembler does to the releases *)

(** ** The store *)

Lemma heap_bind_Ok {A B} (m : heap A) (f : A -> heap B) h b h2 :
  (m ≫= f) h = Ok (b, h2) <-> exists a h1, m h = Ok (a, h1) /\ f a h1 = Ok (b, h2).
Proof.
  unfold mbind, heap_bind. split.
  - destruct (m h) as [[a h1]|e]; [eauto|done].
  - intros (a & h1 & -> & H). done.
Qed.

Tactic Notation "heap_bind" hyp(H) "as" ident(a) ident(h) ident(Ha) :=
  apply heap_bind_Ok in H as (a & h & Ha & H).

Lemma get_Ok l h c h' : get l h = Ok (c, h') <-> h !! l = Some c /\ h' = h.
Proof.
  unfold get. destruct (h !! l) as [c0|]; split.
  - by intros [= -> ->].
  - by intros [[= ->] ->].
  - done.
  - by intros [[=] _].
Qed.

Section keeps.
Context (n : nat) (Wc Wp : loc -> Prop).

Lemma keeps_refl h : keeps n Wc Wp h h.
Proof. split; [done|]. intros l c Hl. exists c. by repeat split. Qed.

Lemma keeps_trans h1 h2 h3 :
  keeps n Wc Wp h1 h2 -> keeps n Wc Wp h2 h3 -> keeps n Wc Wp h1 h3.
Proof.
  intros [Hlen1 H1] [Hlen2 H2]. split; [lia|]. intros l c Hl.
  destruct (H1 l c Hl) as (c' & Hl' & Hk & Hpre & Hc & Hp).
  destruct (H2 l c' Hl') as (c'' & Hl'' & Hk' & Hpre' & Hc' & Hp').
  exists c''. split; [done|]. split; [congruence|]. split; [by etrans|].
  split; intros Hn Hw.
  - rewrite Hc', Hc; auto.
  - rewrite Hp', Hp; auto.
Qed.

Lemma keeps_kind_at h1 h2 l k :
  keeps n Wc Wp h1 h2 -> kind_at h1 l = Some k -> kind_at h2 l = Some k.
Proof.
  intros [_ H] Hk. unfold kind_at in *.
  destruct (h1 !! l) as [c|] eqn:Hl; [|done]. injection Hk as <-.
  destruct (H l c Hl) as (c' & Hl' & Hk & _). by rewrite Hl', <- Hk.
Qed.

Lemma keeps_child_in h1 h2 p l :
  keeps n Wc Wp h1 h2 -> child_in h1 p l -> child_in h2 p l.
Proof.
  intros [_ H] (c & Hp & Hl).
  destruct (H p c Hp) as (c' & Hp' & _ & [k Hk] & _).
  exists c'. split; [done|]. rewrite Hk. apply elem_of_app. by left.
Qed.

Lemma alloc_keeps k h : keeps n Wc Wp h (h ++ [Cell k None []]).
Proof.
  split; [rewrite length_app; lia|]. intros l c Hl. exists c.
  split; [by apply lookup_app_l_Some|]. by repeat split.
Qed.

Lemma alloc_good k h : good n Wp h -> good n Wp (h ++ [Cell k None []]).
Proof.
  intros [Hn Hgood]. split; [rewrite length_app; lia|]. intros p c Hp Hc.
  apply lookup_app_Some in Hc as [Hc|[_ Hc]]; [eauto|].
  apply list_lookup_singleton_Some in Hc as [_ <-]. constructor.
Qed.

(** What [append] does to the store. *)
Lemma append_Ok p child u h h' :
  append p child h = Ok (u, h') ->
  length h' = length h /\ is_Some (h !! p) /\ is_Some (h !! child) /\
  forall l c, h !! l = Some c ->
    exists c', h' !! l = Some c' /\ kind_of c' = kind_of c /\
      children c' = (if decide (l = p) then children c ++ [child] else children c) /\
      parent c' = (if decide (l = child) then Some p else parent c).
Proof.
  unfold append. intros H.
  heap_bind H as c h1 Hc. apply get_Ok in Hc as [Hc ->].
  destruct (negb (is_node (kind_of c))); [done|].
  heap_bind H as u1 h1 Hput. injection Hput as _ <-.
  heap_bind H as o h2 Ho. apply get_Ok in Ho as [Ho ->].
  assert (exists o0, h !! p = Some o0 /\ kind_of o = kind_of o0 /\ children o = children o0
                     /\ parent o = if decide (p = child) then Some p else parent o0)
    as (o0 & Hp & Hko & Hco & Hpo).
  { destruct (decide (p = child)) as [->|Hne].
    - rewrite list_lookup_insert_eq in Ho by (by eapply lookup_lt_Some).
      injection Ho as <-. by exists c.
    - rewrite list_lookup_insert_ne in Ho by done. by exists o. }
  destruct (negb (is_element (kind_of o))); [done|]. injection H as _ <-.
  split; [by rewrite !length_insert|]. split; [eauto|]. split; [eauto|].
  intros l cl Hl.
  destruct (decide (l = p)) as [->|Hlp].
  - rewrite list_lookup_insert_eq
      by (rewrite length_insert; by eapply lookup_lt_Some).
    eexists. split; [done|]. simpl. rewrite Hp in Hl. injection Hl as <-.
    split; [done|]. split; [by rewrite Hco|].
    rewrite Hpo. by destruct (decide (p = child)).
  - rewrite list_lookup_insert_ne by done.
    destruct (decide (l = child)) as [->|Hlc].
    + rewrite list_lookup_insert_eq by (by eapply lookup_lt_Some).
      eexists. split; [done|]. simpl. rewrite Hc in Hl. by injection Hl as <-.
    + rewrite list_lookup_insert_ne by done. by exists cl.
Qed.

Lemma append_keeps p child u h h' :
  append p child h = Ok (u, h') ->
  good n Wp h -> (p < n -> Wc p) -> fine n Wp child ->
  keeps n Wc Wp h h' /\ good n Wp h'.
Proof.
  intros (Hlen & _ & _ & H)%append_Ok [Hn Hgood] Hp Hchild. split; [split|split].
  - lia.
  - intros l c Hl. destruct (H l c Hl) as (c' & Hl' & Hk & Hc & Hpar).
    exists c'. split; [done|]. split; [done|]. rewrite Hc, Hpar.
    split; [|split].
    + destruct (decide (l = p)); [by eexists|done].
    + intros Hln Hw. destruct (decide (l = p)) as [->|]; [|done]. destruct Hw. auto.
    + intros Hln Hw. destruct (decide (l = child)) as [->|]; [|done].
      destruct Hchild; [lia|done].
  - lia.
  - intros q c' Hq Hc'.
    assert (is_Some (h !! q)) as [c Hc].
    { apply lookup_lt_is_Some. rewrite <- Hlen. by eapply lookup_lt_Some. }
    destruct (H q c Hc) as (c'' & Hc'' & _ & Hch & _).
    rewrite Hc' in Hc''. injection Hc'' as <-. rewrite Hch.
    destruct (decide (q = p)); [apply Forall_app; split|]; eauto.
Qed.

End keeps.

Lemma Forall2_right {A B} (P : A -> B -> Prop) (Q : B -> Prop) l k :
  (forall x y, P x y -> Q y) -> Forall2 P l k -> Forall Q k.
Proof. intros HPQ. induction 1; constructor; eauto. Qed.

Lemma Forall2_left {A B} (P : A -> B -> Prop) (Q : A -> Prop) l k :
  (forall x y, P x y -> Q x) -> Forall2 P l k -> Forall Q l.
Proof. intros HPQ. induction 1; constructor; eauto. Qed.

Section store_code.
Context (n : nat) (Wc Wp : loc -> Prop).

(** A loop over the store: when every iteration keeps the store and leaves
    a fact that later iterations keep, the loop keeps the store and all the
    facts hold at its end. *)
Lemma heap_forM_keeps {A B} (f : A -> heap B) (Q : A -> B -> store -> Prop) l h ys h' :
  (forall x y h1 h2, keeps n Wc Wp h1 h2 -> Q x y h1 -> Q x y h2) ->
  (forall x h1 y h2, x ∈ l -> keeps n Wc Wp h h1 -> good n Wp h1 ->
     f x h1 = Ok (y, h2) -> keeps n Wc Wp h1 h2 /\ good n Wp h2 /\ Q x y h2) ->
  heap_forM f l h = Ok (ys, h') -> good n Wp h ->
  keeps n Wc Wp h h' /\ good n Wp h' /\ Forall2 (fun x y => Q x y h') l ys.
Proof.
  intros HQ. revert h ys. induction l as [|x l IH]; intros h ys Hf H Hgood; simpl in H.
  - injection H as <- <-. split; [apply keeps_refl|]. by split.
  - heap_bind H as y h1 Hy. heap_bind H as ys' h2 Hys. injection H as <- <-.
    destruct (Hf x h y h1) as (Hk1 & Hg1 & Hq); [left|apply keeps_refl|done..|].
    destruct (IH h1 ys') as (Hk2 & Hg2 & Hall); [|done..|].
    { intros x' h3 y' h4 Hx' Hk3. apply Hf; [by right|]. by eapply keeps_trans. }
    split; [by eapply keeps_trans|]. split; [done|]. constructor; eauto.
Qed.

(** The children of [p] after the nodes [cs] have been appended to it. *)
Lemma heap_forM_append p cs us h h' c :
  heap_forM (append p) cs h = Ok (us, h') -> h !! p = Some c ->
  exists c', h' !! p = Some c' /\ kind_of c' = kind_of c /\
             children c' = children c ++ cs.
Proof.
  revert h us c. induction cs as [|x cs IH]; intros h us c H Hp; simpl in H.
  - injection H as <- <-. exists c. by rewrite app_nil_r.
  - heap_bind H as u h1 Hu. heap_bind H as us' h2 Hus. injection H as <- <-.
    apply append_Ok in Hu as (_ & _ & _ & Hu).
    destruct (Hu p c Hp) as (c1 & Hp1 & Hk1 & Hc1 & _).
    rewrite decide_True in Hc1 by done.
    destruct (IH _ _ _ Hus Hp1) as (c' & Hp' & Hk' & Hc').
    exists c'. split; [done|]. split; [congruence|].
    by rewrite Hc', Hc1, <- app_assoc.
Qed.

Lemma element_Ok tag cs a h h' :
  element tag cs h = Ok (a, h') -> good n Wp h -> Forall (fine n Wp) cs ->
  a = length h /\ keeps n Wc Wp h h' /\ good n Wp h' /\
  exists c, h' !! a = Some c /\ kind_of c = KElem tag [] /\ children c = cs.
Proof.
  unfold element. intros H Hgood Hcs.
  heap_bind H as p h1 Hp. injection Hp as <- <-.
  heap_bind H as us h2 Hus. injection H as <- <-.
  pose proof (alloc_keeps n Wc Wp (KElem tag []) h) as Hk1.
  pose proof (alloc_good n Wp (KElem tag []) h Hgood) as Hg1.
  edestruct (heap_forM_keeps (append (length h)) (fun _ _ _ => True))
    as (Hk2 & Hg2 & _); [done| |exact Hus|exact Hg1|].
  { intros x h3 y h4 Hx _ Hg3 Hy.
    destruct (append_keeps n Wc Wp _ _ _ _ _ Hy Hg3) as [? ?]; [|by eapply Forall_forall|done].
    destruct Hgood. lia. }
  split; [done|]. split; [by eapply keeps_trans|]. split; [done|].
  destruct (heap_forM_append _ _ _ _ _ (Cell (KElem tag []) None []) Hus)
    as (c' & ? & ? & ?); [|by exists c'].
  by apply list_lookup_middle.
Qed.

Lemma deepcopy_fuel_Ok fuel l a h h' :
  deepcopy_fuel fuel l h = Ok (a, h') -> good n Wp h ->
  a = length h /\ keeps n Wc Wp h h' /\ good n Wp h' /\
  exists c c', h !! l = Some c /\ h' !! a = Some c' /\ kind_of c' = kind_of c.
Proof.
  revert l a h h'. induction fuel as [|fuel IH]; intros l a h h' H Hgood; [done|].
  simpl in H. heap_bind H as c h1 Hc. apply get_Ok in Hc as [Hc ->].
  assert (forall k,
            (copy ← alloc k;
             cs ← heap_forM (deepcopy_fuel fuel) (children c);
             _ ← heap_forM (append copy) cs;
             mret copy) h = Ok (a, h') ->
            a = length h /\ keeps n Wc Wp h h' /\ good n Wp h' /\
            exists c', h' !! a = Some c' /\ kind_of c' = k) as Hcopy.
  { intros k Hk. heap_bind Hk as copy h1 Hcopy. injection Hcopy as <- <-.
    heap_bind Hk as cs h2 Hcs. heap_bind Hk as us h3 Hus. injection Hk as <- <-.
    pose proof (alloc_keeps n Wc Wp k h) as Hk1.
    pose proof (alloc_good n Wp k h Hgood) as Hg1.
    edestruct (heap_forM_keeps (deepcopy_fuel fuel) (fun _ y _ => n <= y))
      as (Hk2 & Hg2 & Hnew); [done| |exact Hcs|exact Hg1|].
    { intros x h4 y h5 _ [Hlen _] Hg4 Hy.
      destruct (IH _ _ _ _ Hy Hg4) as (-> & ? & ? & _).
      split; [done|]. split; [done|]. destruct Hg4. lia. }
    edestruct (heap_forM_keeps (append (length h)) (fun _ _ _ => True))
      as (Hk3 & Hg3 & _); [done| |exact Hus|exact Hg2|].
    { intros x h4 y h5 Hx _ Hg4 Hy.
      destruct (append_keeps n Wc Wp _ _ _ _ _ Hy Hg4) as [? ?]; [| |done].
      - destruct Hgood. lia.
      - left. apply (Forall2_right _ (fun y => n <= y)) in Hnew; [|done].
        by eapply Forall_forall in Hnew. }
    split; [done|]. split; [eauto using keeps_trans|]. split; [done|].
    assert (kind_at (h ++ [Cell k None []]) (length h) = Some k) as Hat.
    { unfold kind_at. by rewrite list_lookup_middle. }
    eapply keeps_kind_at in Hat; [|by eapply keeps_trans].
    unfold kind_at in Hat. destruct (h3 !! length h) as [c'|]; [|done].
    exists c'. split; [done|]. by injection Hat. }
  destruct (kind_of c) as [s|tag attrs|x|r|marker items] eqn:Hkind.
  - injection H as <- <-. split; [done|].
    split; [apply alloc_keeps|]. split; [by apply alloc_good|].
    exists c. eexists. split; [done|]. split; [by apply list_lookup_middle|]. by rewrite Hkind.
  - destruct (Hcopy _ H) as (? & ? & ? & c' & ? & ?). split; [done|]. split; [done|].
    split; [done|]. exists c, c'. split; [done|]. split; [done|]. by rewrite Hkind.
  - destruct (Hcopy _ H) as (? & ? & ? & c' & ? & ?). split; [done|]. split; [done|].
    split; [done|]. exists c, c'. split; [done|]. split; [done|]. by rewrite Hkind.
  - destruct (Hcopy _ H) as (? & ? & ? & c' & ? & ?). split; [done|]. split; [done|].
    split; [done|]. exists c, c'. split; [done|]. split; [done|]. by rewrite Hkind.
  - done.
Qed.

Lemma heap_deepcopy_Ok l a h h' :
  heap_deepcopy l h = Ok (a, h') -> good n Wp h ->
  a = length h /\ keeps n Wc Wp h h' /\ good n Wp h' /\
  exists c c', h !! l = Some c /\ h' !! a = Some c' /\ kind_of c' = kind_of c.
Proof. apply deepcopy_fuel_Ok. Qed.

(** The expansion reads the store only, and what it puts into the
    description are nodes of the nodelists of the issue elements in it. *)
Lemma heap_expand_Ok i snapshot desc out h h' :
  heap_expand i snapshot desc h = Ok (out, h') ->
  h' = h /\
  Forall (fun l => l ∈ desc \/
                   exists m c x, m ∈ snapshot /\ h !! m = Some c /\
                                 kind_of c = KIssue x /\ l ∈ nodelist x) out.
Proof.
  revert i desc. induction snapshot as [|m snapshot IH]; intros i desc H; simpl in H.
  - injection H as <- <-. split; [done|]. apply Forall_forall. auto.
  - heap_bind H as c h1 Hc. apply get_Ok in Hc as [Hc ->].
    destruct (IH _ _ H) as [-> Hall]. split; [done|].
    eapply Forall_impl; [exact Hall|]. intros l [Hl|(m' & c' & x & Hm' & ? & ? & ?)].
    + destruct (kind_of c) as [s|tag attrs|x|r|marker items] eqn:Hkind; auto.
      unfold slice_assign in Hl. rewrite !elem_of_app in Hl.
      destruct Hl as [Hl%subseteq_take|[Hl|Hl%subseteq_drop]]; auto.
      right. exists m, c, x. split; [left|]. done.
    + right. exists m', c', x. split; [by right|]. done.
Qed.

End store_code.

(** ** The deep copy returns

    With fuel for the depth of the tree, and so with the fuel
    [heap_deepcopy] gives it for a tree no deeper than the store is large,
    the deep copy of a tree of nodes does not raise. *)

Lemma append_total p child h :
  element_in h p -> node_in h child -> exists h', append p child h = Ok (tt, h').
Proof.
  intros (cp & Hp & Hkp) (cc & Hc & Hkc). unfold append.
  unfold mbind, heap_bind, get. rewrite Hc, Hkc. simpl.
  destruct (decide (p = child)) as [->|Hne].
  - rewrite list_lookup_insert_eq by (by eapply lookup_lt_Some). simpl.
    rewrite Hp in Hc. injection Hc as <-. rewrite Hkp. simpl. eauto.
  - rewrite list_lookup_insert_ne by done. rewrite Hp, Hkp. simpl. eauto.
Qed.

Lemma append_node_in p child u h h' l :
  append p child h = Ok (u, h') -> node_in h l -> node_in h' l.
Proof.
  intros (_ & _ & _ & H)%append_Ok (c & Hl & Hk).
  destruct (H l c Hl) as (c' & Hl' & Hk' & _). exists c'. by rewrite Hk'.
Qed.

Lemma append_element_in p child u h h' l :
  append p child h = Ok (u, h') -> element_in h l -> element_in h' l.
Proof.
  intros (_ & _ & _ & H)%append_Ok (c & Hl & Hk).
  destruct (H l c Hl) as (c' & Hl' & Hk' & _). exists c'. by rewrite Hk'.
Qed.

Lemma heap_forM_append_total p cs h :
  element_in h p -> Forall (node_in h) cs ->
  exists us h', heap_forM (append p) cs h = Ok (us, h').
Proof.
  revert h. induction cs as [|x cs IH]; intros h Hp Hcs; simpl; [by eexists _, _|].
  apply Forall_cons in Hcs as [Hx Hcs].
  destruct (append_total p x h Hp Hx) as [h1 H1].
  destruct (IH h1) as (us & h2 & H2).
  { by eapply append_element_in. }
  { eapply Forall_impl; [exact Hcs|]. intros y. by eapply append_node_in. }
  exists (tt :: us), h2. unfold mbind, heap_bind. rewrite H1.
  unfold mbind, heap_bind in H2. by rewrite H2.
Qed.

Lemma untouched_lookup n h1 h2 l c :
  untouched n h1 h2 -> l < n -> h1 !! l = Some c -> h2 !! l = Some c.
Proof.
  intros [_ H] Hl Hc. destruct (H l c Hc) as (c' & -> & Hk & _ & Hch & Hp).
  f_equal. destruct c, c'. simpl in *. f_equal; auto.
Qed.

Lemma good_untouched n h : n <= length h ->
  (forall p c, n <= p -> h !! p = Some c -> Forall (fun l => n <= l) (children c)) ->
  good n (fun _ => False) h.
Proof.
  intros Hn H. split; [done|]. intros p c Hp Hc.
  eapply Forall_impl; [by eapply H|]. intros l Hl. by left.
Qed.

Lemma keeps_node_in n Wc Wp h1 h2 l :
  keeps n Wc Wp h1 h2 -> node_in h1 l -> node_in h2 l.
Proof.
  intros [_ H] (c & Hl & Hk). destruct (H l c Hl) as (c' & Hl' & Hk' & _).
  exists c'. by rewrite Hk'.
Qed.

Lemma deepcopy_fuel_total avoid fuel d h0 l h :
  tree avoid d h0 l -> d <= fuel ->
  untouched (length h0) h0 h -> good (length h0) (fun _ => False) h ->
  exists a h', deepcopy_fuel fuel l h = Ok (a, h').
Proof.
  revert d l h. induction fuel as [|fuel IH]; intros d l h Htree Hd HK HG.
  { destruct d; [done|lia]. }
  destruct d as [|d]; [done|]. simpl in Htree. destruct Htree as [_ Htree].
  destruct (h0 !! l) as [c|] eqn:Hc; [|done].
  pose proof (untouched_lookup _ _ _ _ _ HK (lookup_lt_Some _ _ _ Hc) Hc) as Hc'.
  simpl. unfold mbind at 1, heap_bind at 1, get. rewrite Hc'.
  assert (forall k, is_element k = true -> Forall (tree avoid d h0) (children c) ->
            exists a h',
              (copy ← alloc k;
               cs ← heap_forM (deepcopy_fuel fuel) (children c);
               _ ← heap_forM (append copy) cs;
               mret copy) h = Ok (a, h')) as Hcopy.
  { intros k Hk Hall.
    set (h1 := h ++ [Cell k None []]).
    assert (untouched (length h0) h0 h1) as HK1.
    { eapply keeps_trans; [exact HK|apply alloc_keeps]. }
    assert (good (length h0) (fun _ => False) h1) as HG1 by (by apply alloc_good).
    assert (forall cs' h2, untouched (length h0) h0 h2 -> good (length h0) (fun _ => False) h2 ->
              keeps 0 (fun _ => False) (fun _ => False) h1 h2 ->
              Forall (tree avoid d h0) cs' ->
              exists cs h3, heap_forM (deepcopy_fuel fuel) cs' h2 = Ok (cs, h3) /\
                            keeps 0 (fun _ => False) (fun _ => False) h1 h3 /\
                            Forall (node_in h3) cs) as Hchildren.
    { induction cs' as [|x cs' IHcs]; intros h2 HK2 HG2 H12 Hcs'; simpl.
      - exists [], h2. split; [done|]. split; [done|]. constructor.
      - apply Forall_cons in Hcs' as [Hx Hcs'].
        destruct (IH d x h2 Hx) as (y & h3 & Hy); [lia|done..|].
        destruct (deepcopy_fuel_Ok (length h0) (fun _ => False) _ _ _ _ _ _ Hy HG2)
          as (-> & HK23 & HG3 & cx & cy & Hcx & Hcy & Hkxy).
        assert (good 0 (fun _ => False) h2) as HG2'.
        { split; [lia|]. intros p cp _ _. apply Forall_forall. intros q _. left. lia. }
        destruct (deepcopy_fuel_Ok 0 (fun _ => False) _ _ _ _ _ _ Hy HG2')
          as (_ & HK23' & _).
        destruct (IHcs h3) as (ys & h4 & Hys & H14 & Hnodes);
          [by eapply keeps_trans|done|by eapply keeps_trans|done|].
        assert (good 0 (fun _ => False) h3) as HG3'.
        { split; [lia|]. intros p cp _ _. apply Forall_forall. intros q _. left. lia. }
        edestruct (heap_forM_keeps 0 (fun _ => False) (fun _ => False)
                     (deepcopy_fuel fuel) (fun _ _ _ => True))
          as (HK34 & _ & _); [done| |exact Hys|exact HG3'|].
        { intros x' h5 y' h6 _ _ HG5 Hy'.
          destruct (deepcopy_fuel_Ok 0 (fun _ => False) _ _ _ _ _ _ Hy' HG5)
            as (_ & ? & ? & _). done. }
        exists (length h2 :: ys), h4. unfold mbind, heap_bind. rewrite Hy.
        unfold mbind, heap_bind in Hys. rewrite Hys. split; [done|]. split; [done|].
        constructor; [|done]. eapply keeps_node_in; [exact HK34|].
        exists cy. split; [done|]. rewrite Hkxy.
        assert (h0 !! x = Some cx) as Hx0.
        { destruct d as [|d']; [done|]. simpl in Hx. destruct Hx as [_ Hx].
          destruct (h0 !! x) as [cx0|] eqn:Hx0; [|done].
          by rewrite (untouched_lookup _ _ _ _ _ HK2 (lookup_lt_Some _ _ _ Hx0) Hx0) in Hcx. }
        destruct d as [|d']; [done|]. simpl in Hx. destruct Hx as [_ Hx].
        rewrite Hx0 in Hx. by destruct (kind_of cx). }
    destruct (Hchildren (children c) h1 HK1 HG1 (keeps_refl _ _ _ _) Hall)
      as (cs & h3 & Hcs & H13 & Hnodes).
    destruct (heap_forM_append_total (length h) cs h3) as (us & h4 & Hus); [|done|].
    { destruct H13 as [_ H13].
      destruct (H13 (length h) (Cell k None [])) as (c1 & Hc1 & Hk1 & _).
      { by apply list_lookup_middle. }
      exists c1. split; [done|]. by rewrite Hk1. }
    exists (length h), h4. unfold mbind, heap_bind, alloc. fold h1.
    unfold mbind, heap_bind in Hcs. rewrite Hcs.
    unfold mbind, heap_bind in Hus. by rewrite Hus. }
  destruct (kind_of c) as [s|tag attrs|x|r|marker items] eqn:Hk; [by eexists _, _|..|done];
    by apply Hcopy.
Qed.

Lemma heap_deepcopy_total avoid d h l :
  tree avoid d h l -> d <= length h -> exists a h', heap_deepcopy l h = Ok (a, h').
Proof.
  intros Htree Hd. unfold heap_deepcopy.
  eapply deepcopy_fuel_total; [exact Htree|done|apply keeps_refl|].
  split; [done|]. intros p c Hp Hc. apply lookup_lt_Some in Hc. lia.
Qed.

Section construct_nodes_store.
Context (h0 : store) (releases : list loc).
Context (Hin : in_store h0 releases).

Local Abbreviation K := (keeps (length h0) (section_of h0 releases) (shared h0 releases)).
Local Abbreviation G := (good (length h0) (shared h0 releases)).

Lemma in_new_paragraph_keeps h1 h2 nl :
  K h1 h2 -> in_new_paragraph (length h0) h1 nl -> in_new_paragraph (length h0) h2 nl.
Proof.
  intros HK (p & Hp & Hk & Hnl). exists p. split; [done|].
  split; [by eapply keeps_kind_at|]. intros l Hl. eapply keeps_child_in; eauto.
Qed.

Lemma has_new_list_keeps h1 h2 s :
  K h1 h2 -> has_new_list (length h0) h1 s -> has_new_list (length h0) h2 s.
Proof.
  intros HK (b & Hb & Hc & Hk). exists b. split; [done|].
  split; [by eapply keeps_child_in|by eapply keeps_kind_at].
Qed.

Lemma entry_in_paragraph_keeps h1 h2 e :
  K h1 h2 -> entry_in_paragraph h0 h1 e -> entry_in_paragraph h0 h2 e.
Proof. intros HK H c x Hc Hx. eapply in_new_paragraph_keeps; eauto. Qed.

Lemma assembled_in_keeps h1 h2 d r :
  K h1 h2 -> assembled_in h0 d r h1 -> assembled_in h0 d r h2.
Proof.
  intros HK (c & marker & items & Hc & Hk & H). exists c, marker, items.
  split; [done|]. split; [done|]. destruct items as [|e es]; [done|].
  destruct H as (c' & s & nl & ? & ? & ? & Hs & Hes).
  exists c', s, nl. split; [done|]. split; [done|]. split; [done|].
  split; [by eapply has_new_list_keeps|].
  eapply Forall_impl; [exact Hes|]. intros e'. by apply entry_in_paragraph_keeps.
Qed.

(** An object of the store of the call is still there, with its class and
    attributes. *)
Lemma kept_kind h l c0 c :
  K h0 h -> h0 !! l = Some c0 -> h !! l = Some c -> kind_of c = kind_of c0.
Proof.
  intros [_ HK] Hl0 Hl. destruct (HK l c0 Hl0) as (c' & Hl' & Hk & _). congruence.
Qed.

Lemma heap_entry_item_Ok d marker items e a h h' :
  d ∈ releases -> release_at h0 d marker items -> e ∈ items -> K h0 h -> G h ->
  heap_entry_item e h = Ok (a, h') ->
  K h h' /\ G h' /\ length h0 <= a /\ entry_in_paragraph h0 h' e.
Proof.
  intros Hd Hrel He HK HG H. unfold heap_entry_item in H.
  heap_bind H as ce h1 Hce. apply get_Ok in Hce as [Hce ->].
  pose proof Hin as Hin'. unfold in_store in Hin'.
  eapply Forall_forall in Hin'; [|exact Hd]. destruct Hin' as [_ Hes].
  pose proof Hrel as (cd & Hcd & Hkd & _). rewrite Hcd in Hes. simpl in Hes.
  rewrite Hkd in Hes. destruct Hes as [_ Hes].
  eapply Forall_forall in Hes; [|exact He]. destruct Hes as [Hlt Hdesc].
  apply lookup_lt_is_Some in Hlt as [c0 Hc0].
  pose proof (kept_kind _ _ _ _ HK Hc0 Hce) as Hkind.
  unfold described_in in Hdesc. rewrite Hc0 in Hdesc. simpl in Hdesc.
  destruct (kind_of ce) as [s|tag attrs|x|r|marker' items'] eqn:Hkce; try done.
  rewrite <- Hkind in Hdesc.
  assert (entry_issue h0 releases x) as Hentry by (by exists d, marker, items, e, c0).
  destruct (description x) as [dsc|] eqn:Hdsc; [|done]. simpl in Hdesc.
  heap_bind H as desc h1 Hcopies.
  edestruct (heap_forM_keeps (length h0) (section_of h0 releases) (shared h0 releases)
               heap_deepcopy
               (fun m y h2 => length h0 <= y /\
                              forall c, h0 !! m = Some c -> kind_at h2 y = Some (kind_of c)))
    as (HK1 & HG1 & Hcopied); [| |exact Hcopies|exact HG|].
  { intros m y h2 h3 HK23 [Hy Hk]. split; [done|]. intros c Hc.
    eapply keeps_kind_at; eauto. }
  { intros m h2 y h3 Hm HK2 HG2 Hy.
    destruct (heap_deepcopy_Ok _ (section_of h0 releases) _ _ _ _ _ Hy HG2)
      as (-> & HK23 & HG3 & c & c' & Hc & Hc' & Hk).
    split; [done|]. split; [done|]. split; [destruct HG2; lia|].
    intros cm Hcm. unfold kind_at. rewrite Hc'. simpl. f_equal. rewrite Hk.
    eapply kept_kind; [|exact Hcm|exact Hc]. by eapply keeps_trans. }
  heap_bind H as desc' h2 Hexp. apply heap_expand_Ok in Hexp as [-> Hexp].
  assert (Forall (fine (length h0) (shared h0 releases)) desc') as Hfine.
  { eapply Forall_impl; [exact Hexp|]. intros l [Hl|(m & c & x' & Hm & Hc & Hx' & Hl)].
    - left. apply (Forall2_right _ (fun y => length h0 <= y)) in Hcopied; [|by intros ?? []].
      by eapply Forall_forall in Hcopied.
    - right. right. right. exists x'. split; [|done].
      apply list_elem_of_lookup in Hm as [j Hj].
      destruct (Forall2_lookup_r _ _ _ _ _ Hcopied Hj) as (m0 & Hm0 & _ & Hk).
      assert (is_Some (h0 !! m0)) as [cm Hcm].
      { apply lookup_lt_is_Some. eapply Forall_forall in Hdesc; [exact Hdesc|].
        by eapply list_elem_of_lookup_2. }
      specialize (Hk cm Hcm). unfold kind_at in Hk. rewrite Hc in Hk. simpl in Hk.
      exists x, dsc, m0, cm. split; [done|]. split; [done|].
      split; [by eapply list_elem_of_lookup_2|]. split; [done|]. congruence. }
  heap_bind H as p h2 Hp.
  destruct (element_Ok (length h0) (section_of h0 releases) _ _ _ _ _ _ Hp HG1)
    as (-> & HK2 & HG2 & cp & Hcp & Hkp & Hchildren).
  { apply Forall_app. split; [|done]. apply Forall_forall. intros l Hl.
    right. right. left. by exists x. }
  destruct (element_Ok (length h0) (section_of h0 releases) _ _ _ _ _ _ H HG2)
    as (-> & HK3 & HG3 & _).
  { constructor; [|constructor]. left. destruct HG1. lia. }
  split; [eauto using keeps_trans|]. split; [done|]. split; [destruct HG2; lia|].
  intros c x' Hc Hx'. rewrite Hc0 in Hc. injection Hc as <-.
  rewrite <- Hkind in Hx'. injection Hx' as <-.
  apply (in_new_paragraph_keeps h2); [done|].
  exists (length h1). split; [destruct HG1; lia|].
  split; [unfold kind_at; by rewrite Hcp; simpl; rewrite Hkp|].
  intros l Hl. exists cp. split; [done|]. rewrite Hchildren. apply elem_of_app. by left.
Qed.

Lemma heap_assemble_release_Ok d r h h' :
  d ∈ releases -> K h0 h -> G h ->
  heap_assemble_release d h = Ok (r, h') ->
  K h h' /\ G h' /\ assembled_in h0 d r h'.
Proof.
  intros Hd HK HG H. unfold heap_assemble_release, assembled_in in *.
  heap_bind H as cd h1 Hcd. apply get_Ok in Hcd as [Hcd ->].
  pose proof Hin as Hin'. eapply Forall_forall in Hin'; [|exact Hd].
  destruct Hin' as [Hlt Hin']. apply lookup_lt_is_Some in Hlt as [cd0 Hcd0].
  pose proof (kept_kind _ _ _ _ HK Hcd0 Hcd) as Hkd.
  rewrite Hcd0 in Hin'. simpl in Hin'. rewrite <- Hkd in Hin'.
  destruct (kind_of cd) as [?|? ?|?|?|marker items] eqn:Hkcd; try done.
  destruct Hin' as [Hlt _]. apply lookup_lt_is_Some in Hlt as [c0 Hc0].
  destruct items as [|e es] eqn:Hes.
  { injection H as <- <-. split; [apply keeps_refl|]. split; [done|].
    by exists cd0, marker, []. }
  rewrite <- Hes in *.
  assert (release_at h0 d marker items) as Hrel.
  { exists cd0. split; [done|]. split; [done|]. by rewrite Hes. }
  heap_bind H as lis h1 Hitems.
  edestruct (heap_forM_keeps (length h0) (section_of h0 releases) (shared h0 releases)
               heap_entry_item
               (fun e y h2 => length h0 <= y /\ entry_in_paragraph h0 h2 e))
    as (HK1 & HG1 & Hentries); [| |exact Hitems|exact HG|].
  { intros e' y h2 h3 HK23 [Hy Hp]. split; [done|]. by eapply entry_in_paragraph_keeps. }
  { intros e' h2 y h3 He' HK2 HG2 Hy.
    destruct (heap_entry_item_Ok d marker items e' y h2 h3) as (? & ? & ? & ?);
      eauto using keeps_trans. }
  heap_bind H as list_ h2 Hlist.
  destruct (element_Ok (length h0) (section_of h0 releases) _ _ _ _ _ _ Hlist HG1)
    as (-> & HK2 & HG2 & cl & Hcl & Hkl & _).
  { apply (Forall2_right _ (fine (length h0) (shared h0 releases))) in Hentries; [done|].
    intros ?? []. by left. }
  heap_bind H as o h3 Ho. apply get_Ok in Ho as [Ho ->].
  assert (kind_of o = kind_of c0) as Hko.
  { eapply kept_kind; [|exact Hc0|exact Ho]. eauto using keeps_trans. }
  destruct (nodelist_of (kind_of o)) as [[|s nl]|err] eqn:Hnl; try done.
  assert (marker_nodelist h0 releases (s :: nl)) as Hmarker.
  { exists d, marker, items, c0. split; [done|]. split; [done|]. split; [done|].
    by rewrite <- Hko. }
  heap_bind H as u h3 Happ.
  pose proof (append_Ok _ _ _ _ _ Happ) as (_ & [cs Hcs] & _ & Hraw).
  destruct (append_keeps (length h0) (section_of h0 releases) _ _ _ _ _ _ Happ HG2)
    as [HK3 HG3].
  { intros _. by exists nl. }
  { left. destruct HG1. lia. }
  heap_bind H as header h4 Hheader.
  destruct (element_Ok (length h0) (section_of h0 releases) _ _ _ _ _ _ Hheader HG3)
    as (-> & HK4 & HG4 & ch & Hch & _ & Hchildren).
  { apply Forall_forall. intros l Hl. right. left. by exists (s :: nl). }
  heap_bind H as hd h5 Hhd. apply get_Ok in Hhd as [Hhd ->]. injection H as <- <-.
  rewrite Hch in Hhd. injection Hhd as <-.
  split; [eauto using keeps_trans|]. split; [done|].
  exists cd0, marker, items. split; [done|]. split; [done|]. rewrite Hes. rewrite <- Hes.
  exists c0, s, nl. split; [done|]. split; [by rewrite <- Hko|]. split; [done|]. split.
  - apply (has_new_list_keeps h3); [done|].
    exists (length h1). split; [destruct HG1; lia|]. split.
    + destruct (Hraw s cs Hcs) as (cs' & Hcs' & _ & Hch' & _).
      rewrite decide_True in Hch' by done.
      exists cs'. split; [done|]. rewrite Hch'. apply elem_of_app. right. left.
    + eapply keeps_kind_at; [exact HK3|]. unfold kind_at. by rewrite Hcl; simpl; rewrite Hkl.
  - apply (Forall2_left _ (entry_in_paragraph h0 h1)) in Hentries; [|by intros ?? []].
    eapply Forall_impl; [exact Hentries|]. intros e'.
    apply entry_in_paragraph_keeps. eauto using keeps_trans.
Qed.

End construct_nodes_store.

(** ** [construct_nodes] returns *)

Lemma keeps_element_in n Wc Wp h1 h2 l :
  keeps n Wc Wp h1 h2 -> element_in h1 l -> element_in h2 l.
Proof.
  intros [_ H] (c & Hl & Hk). destruct (H l c Hl) as (c' & Hl' & Hk' & _).
  exists c'. by rewrite Hk'.
Qed.

Lemma heap_forM_total n Wc Wp {A B} (f : A -> heap B) l h :
  good n Wp h ->
  (forall x h1, x ∈ l -> keeps n Wc Wp h h1 -> good n Wp h1 ->
     exists y h2, f x h1 = Ok (y, h2) /\ keeps n Wc Wp h1 h2 /\ good n Wp h2) ->
  exists ys h', heap_forM f l h = Ok (ys, h').
Proof.
  revert h. induction l as [|x l IH]; intros h HG Hf; simpl; [by eexists _, _|].
  destruct (Hf x h) as (y & h1 & Hy & HK1 & HG1); [left|apply keeps_refl|done|].
  destruct (IH h1 HG1) as (ys & h2 & Hys).
  { intros x' h2 Hx' HK2 HG2. apply Hf; [by right| |done]. by eapply keeps_trans. }
  exists (y :: ys), h2. apply heap_bind_Ok. exists y, h1. split; [done|].
  apply heap_bind_Ok. by exists ys, h2.
Qed.

Lemma heap_expand_total i snapshot desc h :
  Forall (fun m => is_Some (h !! m)) snapshot ->
  exists out, heap_expand i snapshot desc h = Ok (out, h).
Proof.
  intros H. revert i desc. induction H as [|m snapshot [c Hm] _ IH]; intros i desc; simpl.
  - by eexists.
  - destruct (IH (S i) match kind_of c with
                       | KIssue x => slice_assign i (nodelist x) desc
                       | _ => desc
                       end) as [out Hout].
    exists out. apply heap_bind_Ok. exists c, h. split; [|done]. by apply get_Ok.
Qed.

Lemma element_total tag cs h :
  Forall (node_in h) cs -> exists a h', element tag cs h = Ok (a, h').
Proof.
  intros Hcs. unfold element.
  destruct (heap_forM_append_total (length h) cs (h ++ [Cell (KElem tag []) None []]))
    as (us & h' & Hus).
  { eexists. split; [by apply list_lookup_middle|done]. }
  { eapply Forall_impl; [exact Hcs|]. intros l (c & Hl & Hk).
    exists c. split; [by apply lookup_app_l_Some|done]. }
  exists (length h), h'. apply heap_bind_Ok. eexists _, _. split; [reflexivity|].
  apply heap_bind_Ok. by exists us, h'.
Qed.

Section construct_nodes_returns.
Context (h0 : store) (releases : list loc).
Context (Hin : in_store h0 releases).

Local Abbreviation K := (keeps (length h0) (section_of h0 releases) (shared h0 releases)).
Local Abbreviation G := (good (length h0) (shared h0 releases)).

Lemma section_in_sections l : section_of h0 releases l -> l ∈ sections h0 releases.
Proof.
  intros (nl & d & marker & items & c & Hd & (cd & Hcd & Hkd & Hne) & Hc & Hnl).
  unfold sections. apply list_elem_of_omap. exists d. split; [done|].
  rewrite Hcd. simpl. rewrite Hkd. destruct items as [|e es]; [done|].
  rewrite Hc. simpl. by rewrite Hnl.
Qed.

Lemma tree_keeps d h l :
  K h0 h -> tree (sections h0 releases) d h0 l -> tree (sections h0 releases) d h l.
Proof.
  intros HK. revert l. induction d as [|d IH]; intros l; [done|]. simpl.
  intros [Havoid Htree]. split; [done|].
  destruct (h0 !! l) as [c|] eqn:Hl; [|done].
  destruct HK as [_ HK']. destruct (HK' l c Hl) as (c' & -> & Hk & _ & Hch & _).
  rewrite Hk, Hch.
  - destruct (kind_of c); try done; eapply Forall_impl; eauto.
  - by eapply lookup_lt_Some.
  - intros Hs. by apply Havoid, section_in_sections.
Qed.

Lemma copies_Ok dsc desc h h' :
  heap_forM heap_deepcopy dsc h = Ok (desc, h') -> K h0 h -> G h ->
  K h h' /\ G h' /\
  Forall2 (fun m y => length h0 <= y /\
                      forall c, h0 !! m = Some c -> kind_at h' y = Some (kind_of c))
          dsc desc.
Proof.
  intros Hcopies HK HG.
  edestruct (heap_forM_keeps (length h0) (section_of h0 releases) (shared h0 releases)
               heap_deepcopy
               (fun m y h2 => length h0 <= y /\
                              forall c, h0 !! m = Some c -> kind_at h2 y = Some (kind_of c)))
    as (HK1 & HG1 & Hcopied); [| |exact Hcopies|exact HG|done].
  { intros m y h2 h3 HK23 [Hy Hk]. split; [done|]. intros c Hc.
    eapply keeps_kind_at; eauto. }
  { intros m h2 y h3 Hm HK2 HG2 Hy.
    destruct (heap_deepcopy_Ok _ (section_of h0 releases) _ _ _ _ _ Hy HG2)
      as (-> & HK23 & HG3 & c & c' & Hc & Hc' & Hk).
    split; [done|]. split; [done|]. split; [destruct HG2; lia|].
    intros cm Hcm. unfold kind_at. rewrite Hc'. simpl. f_equal. rewrite Hk.
    eapply kept_kind; [|exact Hcm|exact Hc]. by eapply keeps_trans. }
Qed.

Lemma tree_node_in avoid d h l : tree avoid d h l -> node_in h l.
Proof.
  destruct d as [|d]; [done|]. simpl. intros [_ H].
  destruct (h !! l) as [c|] eqn:Hl; [|done]. exists c. split; [done|].
  by destruct (kind_of c).
Qed.

Lemma heap_entry_item_total d marker items e h :
  d ∈ releases -> release_at h0 d marker items -> e ∈ items ->
  entry_ready h0 (sections h0 releases) e -> K h0 h -> G h ->
  exists a h', heap_entry_item e h = Ok (a, h').
Proof.
  intros Hd Hrel He Hready HK HG. unfold entry_ready in Hready.
  destruct (h0 !! e) as [c0|] eqn:Hc0; [|done]. simpl in Hready.
  destruct (kind_of c0) as [| |x| |] eqn:Hk0; try done.
  destruct Hready as [Hnl Hready].
  destruct (description x) as [dsc|] eqn:Hdsc; [|done].
  destruct Hready as [Htrees Hinline].
  pose proof HK as [_ HK']. destruct (HK' e c0 Hc0) as (ce & Hce & Hkce & _).
  (* the deep copies *)
  destruct (heap_forM_total (length h0) (section_of h0 releases) (shared h0 releases)
              heap_deepcopy dsc h HG) as (desc & h1 & Hcopies).
  { intros m h1 Hm HK1 HG1.
    destruct (heap_deepcopy_total (sections h0 releases) (length h0) h1 m)
      as (y & h2 & Hy).
    - apply tree_keeps; [by eapply keeps_trans|]. by eapply Forall_forall in Htrees.
    - by destruct HG1.
    - exists y, h2. split; [done|].
      by destruct (heap_deepcopy_Ok _ (section_of h0 releases) _ _ _ _ _ Hy HG1)
        as (_ & ? & ? & _). }
  destruct (copies_Ok _ _ _ _ Hcopies HK HG) as (HK1 & HG1 & Hcopied).
  assert (Forall (fun y => exists m c cy, m ∈ dsc /\ h0 !! m = Some c /\
                             h1 !! y = Some cy /\ kind_of cy = kind_of c) desc) as Hdesc.
  { apply Forall_forall. intros y Hy. apply list_elem_of_lookup in Hy as [j Hj].
    destruct (Forall2_lookup_r _ _ _ _ _ Hcopied Hj) as (m & Hm & _ & Hk).
    assert (m ∈ dsc) as Hin' by (by eapply list_elem_of_lookup_2).
    eapply Forall_forall in Htrees; [|exact Hin'].
    apply tree_node_in in Htrees as (c & Hc & _).
    specialize (Hk c Hc). unfold kind_at in Hk.
    destruct (h1 !! y) as [cy|] eqn:Hcy; [|done]. injection Hk as Hk.
    by exists m, c, cy. }
  (* the expansion *)
  destruct (heap_expand_total 0 desc desc h1) as [desc' Hexp].
  { eapply Forall_impl; [exact Hdesc|]. intros y (_ & _ & cy & _ & _ & -> & _). done. }
  pose proof (heap_expand_Ok _ _ _ _ _ _ Hexp) as [_ Hexp'].
  (* the paragraph *)
  assert (K h0 h1) as HK01 by (by eapply keeps_trans).
  destruct (element_total "paragraph" (nodelist x ++ desc') h1) as (p & h2 & Hp).
  { apply Forall_app. split.
    - eapply Forall_impl; [exact Hnl|]. intros l. by eapply keeps_node_in.
    - eapply Forall_impl; [exact Hexp'|]. intros l [Hl|(y & cy & x' & Hy & Hcy & Hx' & Hl)].
      + eapply Forall_forall in Hdesc; [|exact Hl].
        destruct Hdesc as (m & c & cy & Hm & Hc & Hcy & Hk). exists cy. split; [done|].
        rewrite Hk. eapply Forall_forall in Htrees; [|exact Hm].
        apply tree_node_in in Htrees as (c' & Hc' & Hn). congruence.
      + eapply Forall_forall in Hdesc; [|exact Hy].
        destruct Hdesc as (m & c & cy' & Hm & Hc & Hcy' & Hk).
        rewrite Hcy in Hcy'. injection Hcy' as <-.
        eapply Forall_forall in Hinline; [|exact Hm].
        unfold inline_ready in Hinline. rewrite Hc in Hinline. simpl in Hinline.
        rewrite <- Hk, Hx' in Hinline.
        eapply keeps_node_in; [exact HK01|]. by eapply Forall_forall in Hinline. }
  destruct (element_Ok (length h0) (section_of h0 releases) (shared h0 releases)
              _ _ _ _ _ Hp HG1) as (-> & HK2 & HG2 & cp & Hcp & Hkp & _).
  { apply Forall_app. split.
    - apply Forall_forall. intros l Hl. right. right. left. exists x. split; [|done].
      by exists d, marker, items, e, c0.
    - eapply Forall_impl; [exact Hexp'|]. intros l [Hl|(y & cy & x' & Hy & Hcy & Hx' & Hl)].
      + left. apply (Forall2_right _ (fun y => length h0 <= y)) in Hcopied; [|by intros ?? []].
        by eapply Forall_forall in Hcopied.
      + right. right. right. exists x'. split; [|done].
        eapply Forall_forall in Hdesc; [|exact Hy].
        destruct Hdesc as (m & c & cy' & Hm & Hc & Hcy' & Hk).
        rewrite Hcy in Hcy'. injection Hcy' as <-.
        exists x, dsc, m, c. split; [by exists d, marker, items, e, c0|].
        split; [done|]. split; [done|]. split; [done|]. congruence. }
  (* the list item *)
  destruct (element_total "list_item" [length h1] h2) as (a & h3 & Ha).
  { constructor; [|constructor]. exists cp. split; [done|]. by rewrite Hkp. }
  exists a, h3. unfold heap_entry_item.
  apply heap_bind_Ok. exists ce, h. split; [by apply get_Ok|].
  rewrite Hkce, Hk0. cbv beta iota. rewrite Hdsc.
  apply heap_bind_Ok. exists desc, h1. split; [done|].
  apply heap_bind_Ok. exists desc', h1. split; [done|].
  apply heap_bind_Ok. exists (length h1), h2. by split.
Qed.

Lemma heap_assemble_release_total d h :
  d ∈ releases -> release_ready h0 (sections h0 releases) d -> K h0 h -> G h ->
  exists r h', heap_assemble_release d h = Ok (r, h').
Proof.
  intros Hd Hready HK HG. unfold release_ready in Hready.
  destruct (h0 !! d) as [cd0|] eqn:Hcd0; [|done]. simpl in Hready.
  destruct (kind_of cd0) as [| | | |marker items] eqn:Hkd0; try done.
  pose proof HK as [_ HK']. destruct (HK' d cd0 Hcd0) as (cd & Hcd & Hkd & _).
  unfold heap_assemble_release.
  destruct items as [|e es] eqn:Hes.
  { exists [], h. apply heap_bind_Ok. exists cd, h. split; [by apply get_Ok|].
    by rewrite Hkd, Hkd0. }
  rewrite <- Hes in *. destruct Hready as [Hmarker Hentries].
  assert (release_at h0 d marker items) as Hrel.
  { exists cd0. split; [done|]. split; [done|]. by rewrite Hes. }
  (* the list items *)
  destruct (heap_forM_total (length h0) (section_of h0 releases) (shared h0 releases)
              heap_entry_item items h HG) as (lis & h1 & Hlis).
  { intros e' h1 He' HK1 HG1.
    destruct (heap_entry_item_total d marker items e' h1) as (y & h2 & Hy); auto.
    - by eapply Forall_forall in Hentries.
    - by eapply keeps_trans.
    - exists y, h2. split; [done|].
      destruct (heap_entry_item_Ok h0 releases Hin d marker items e' y h1 h2)
        as (? & ? & _); auto. by eapply keeps_trans. }
  edestruct (heap_forM_keeps (length h0) (section_of h0 releases) (shared h0 releases)
               heap_entry_item
               (fun _ y h2 => length h0 <= y /\ node_in h2 y))
    as (HK1 & HG1 & Hnodes); [| |exact Hlis|exact HG|].
  { intros _ y h2 h3 HK23 [Hy Hn]. split; [done|]. by eapply keeps_node_in. }
  { intros e' h2 y h3 He' HK2 HG2 Hy.
    destruct (heap_entry_item_Ok h0 releases Hin d marker items e' y h2 h3)
      as (HK23 & HG3 & Hnew & _); auto; [by eapply keeps_trans|].
    split; [done|]. split; [done|]. split; [done|].
    unfold heap_entry_item in Hy.
    heap_bind Hy as ce h4 Hce. destruct (kind_of ce); try done.
    destruct (description i); [|done].
    heap_bind Hy as desc h5 H5. heap_bind Hy as desc' h6 H6. heap_bind Hy as p h7 H7.
    unfold element in Hy. heap_bind Hy as a h8 Ha. injection Ha as <- <-.
    heap_bind Hy as us h9 Hus. injection Hy as <- <-.
    destruct (heap_forM_append _ _ _ _ _ (Cell (KElem "list_item" []) None []) Hus)
      as (c' & Hc' & Hk' & _); [by apply list_lookup_middle|].
    exists c'. split; [done|]. by rewrite Hk'. }
  (* the bullet list *)
  destruct (element_total "bullet_list" lis h1) as (list_ & h2 & Hlist).
  { apply (Forall2_right _ (node_in h1)) in Hnodes; [done|]. by intros ?? []. }
  destruct (element_Ok (length h0) (section_of h0 releases) (shared h0 releases)
              _ _ _ _ _ Hlist HG1) as (-> & HK2 & HG2 & cl & Hcl & Hkl & _).
  { apply (Forall2_right _ (fine (length h0) (shared h0 releases))) in Hnodes; [done|].
    intros ?? []. by left. }
  (* the marker *)
  assert (K h0 h2) as HK02 by eauto using keeps_trans.
  unfold marker_ready in Hmarker.
  destruct (h0 !! marker) as [c0|] eqn:Hc0; [|done]. simpl in Hmarker.
  destruct (nodelist_of (kind_of c0)) as [[|s nl]|err] eqn:Hnl; try done.
  destruct Hmarker as [Hs Hnodelist].
  pose proof HK02 as [_ HK02']. destruct (HK02' marker c0 Hc0) as (o & Ho & Hko & _).
  destruct (append_total s (length h1) h2) as [h3 Happ].
  { by eapply keeps_element_in. }
  { exists cl. split; [done|]. by rewrite Hkl. }
  destruct (append_keeps (length h0) (section_of h0 releases) (shared h0 releases)
              _ _ _ _ _ Happ HG2) as [HK3 HG3].
  { intros _. exists nl, d, marker, items, c0. by repeat split. }
  { left. destruct HG1. lia. }
  destruct (element_total "paragraph" (s :: nl) h3) as (header & h4 & Hheader).
  { eapply Forall_impl; [exact Hnodelist|]. intros l Hl.
    eapply keeps_node_in; [exact HK3|]. by eapply keeps_node_in. }
  destruct (element_Ok (length h0) (section_of h0 releases) (shared h0 releases)
              _ _ _ _ _ Hheader HG3) as (-> & _ & _ & ch & Hch & _).
  { apply Forall_forall. intros l Hl. right. left. exists (s :: nl). split; [|done].
    exists d, marker, items, c0. by repeat split. }
  exists (children ch), h4.
  apply heap_bind_Ok. exists cd, h. split; [by apply get_Ok|]. rewrite Hkd, Hkd0, Hes.
  rewrite <- Hes.
  apply heap_bind_Ok. exists lis, h1. split; [done|].
  apply heap_bind_Ok. exists (length h1), h2. split; [done|].
  apply heap_bind_Ok. exists o, h2. split; [by apply get_Ok|]. rewrite Hko, Hnl.
  apply heap_bind_Ok. exists tt, h3. split; [done|].
  apply heap_bind_Ok. exists (length h3), h4. split; [done|].
  apply heap_bind_Ok. exists ch, h4. split; [by apply get_Ok|]. done.
Qed.

End construct_nodes_returns.

Lemma heap_construct_nodes_total h releases :
  in_store h releases -> well_formed h releases ->
  exists result h', heap_construct_nodes releases h = Ok (result, h').
Proof.
  intros Hin Hwf.
  assert (good (length h) (shared h releases) h) as Hgood.
  { split; [done|]. intros p c Hp Hc. apply lookup_lt_Some in Hc. lia. }
  destruct (heap_forM_total (length h) (section_of h releases) (shared h releases)
              heap_assemble_release (reverse releases) h Hgood) as (rs & h' & Hrs).
  { intros d h1 Hd HK HG. apply (proj1 (elem_of_reverse _ _)) in Hd.
    destruct (heap_assemble_release_total h releases Hin d h1) as (r & h2 & Hr); auto.
    - eapply Forall_forall in Hwf; eauto.
    - exists r, h2. split; [done|].
      by destruct (heap_assemble_release_Ok h releases Hin d r h1 h2) as (? & ? & _). }
  exists (concat rs), h'. unfold heap_construct_nodes.
  apply heap_bind_Ok. by exists rs, h'.
Qed.

Lemma section_of_shared h releases l : section_of h releases l -> shared h releases l.
Proof. intros [nl Hnl]. left. exists (l :: nl). split; [done|]. left. Qed.

(** C8, as the code behaves.  On releases as [construct_releases] builds
    them [construct_nodes] returns, and whenever it returns the store has
    changed as follows.  Objects are only added, and no object it is given
    changes its class or its contents: every dict of the list of releases
    keeps its marker and its list of entries, every marker its number, its
    date and its nodelist, every issue its fields.  It does write to nodes
    it is given.  For every release with entries, the first node of the
    marker's nodelist gets a new bullet list as a further child; the nodes
    of the marker's nodelist are returned themselves, and the nodes of the
    nodelist of every entry are put themselves into a new paragraph.  Apart
    from children appended to those first nodes, the only writes to given
    nodes set the parent of a node of a nodelist: of a marker, of an entry,
    or of an issue element inside the description of an entry.  Every other
    node, and so every node of a description that is in no nodelist, is left
    exactly as it was and is the child of no new object: descriptions enter
    the result as deep copies only. *)
Theorem construct_nodes_store_effect releases h :
  in_store h releases ->
  (well_formed h releases ->
   exists result h', heap_construct_nodes releases h = Ok (result, h')) /\
  (forall result h',
     heap_construct_nodes releases h = Ok (result, h') ->
     keeps (length h) (section_of h releases) (shared h releases) h h' /\
     (forall l c, h !! l = Some c -> ~ shared h releases l ->
        h' !! l = Some c /\ forall p, length h <= p -> ~ child_in h' p l) /\
     exists rs,
       result = concat rs /\
       Forall2 (fun d r => assembled_in h d r h') (reverse releases) rs).
Proof.
  intros Hin. split; [by apply heap_construct_nodes_total|].
  intros result h' H. unfold heap_construct_nodes in H.
  heap_bind H as rs h1 Hrs. injection H as <- <-.
  assert (good (length h) (shared h releases) h) as Hgood.
  { split; [done|]. intros p c Hp Hc. apply lookup_lt_Some in Hc. lia. }
  edestruct (heap_forM_keeps (length h) (section_of h releases) (shared h releases)
               heap_assemble_release (fun d r h2 => assembled_in h d r h2))
    as (HK & HG & Hall); [| |exact Hrs|exact Hgood|].
  { intros d r h2 h3 HK. by apply (assembled_in_keeps h releases). }
  { intros d h2 r h3 Hd HK2 HG2 Hr.
    apply (heap_assemble_release_Ok h releases Hin d r h2 h3); auto.
    by apply elem_of_reverse. }
  split; [done|]. split; [|by exists rs].
  intros l c Hl Hshared.
  pose proof (lookup_lt_Some _ _ _ Hl) as Hlt.
  destruct HK as [_ HK]. destruct (HK l c Hl) as (c' & Hl' & Hk & _ & Hc & Hp).
  split.
  - rewrite Hl'. f_equal. destruct c, c'. simpl in *. f_equal; auto.
    apply Hc; [done|]. intros Hs. by apply Hshared, section_of_shared.
  - intros p Hp' (cp & Hcp & Hin'). destruct HG as [_ HG].
    eapply Forall_forall in Hin'; [|by eapply HG]. destruct Hin'; [lia|done].
Qed.

Lemma construct_nodes_store_effect_witness :
  exists result h',
    heap_construct_nodes sample_releases sample_store = Ok (result, h') /\
    result = [1] /\
    kind_at h' 2 = kind_at sample_store 2 /\
    kind_at h' 12 = kind_at sample_store 12 /\
    children <$> h' !! 1 = Some [0; 18] /\
    kind_at h' 18 = Some (KElem "bullet_list" []) /\
    children <$> h' !! 16 = Some [3; 4; 13; 6; 15] /\
    parent <$> h' !! 3 = Some (Some 16) /\
    parent <$> h' !! 6 = Some (Some 16) /\
    h' !! 5 = sample_store !! 5 /\ h' !! 7 = sample_store !! 7 /\
    h' !! 8 = sample_store !! 8 /\
    keeps (length sample_store) (section_of sample_store sample_releases)
          (shared sample_store sample_releases) sample_store h'.
Proof.
  assert (in_store sample_store sample_releases) as Hin.
  { repeat constructor; simpl; lia. }
  destruct (construct_nodes_store_effect _ _ Hin) as [Hreturns Heffect].
  destruct Hreturns as (result & h' & H).
  { repeat constructor; try (by eexists; split; [reflexivity|]);
      try (intros Hs; apply elem_of_cons in Hs as [Hs|Hs]; [discriminate Hs|];
           by apply elem_of_nil in Hs). }
  destruct (Heffect _ _ H) as (HK & _ & _).
  exists result, h'. split; [done|].
  vm_compute in H. injection H as <- <-.
  repeat (split; [reflexivity|]). exact HK.
Defined.

(** On the sample the two models of [construct_nodes] agree: the trees
    below the nodes the store model returns are the nodes the tree model
    returns. *)
Lemma store_and_trees_agree_on_sample :
  exists d nodes rs result h',
    sample_release_dict = Some d /\
    construct_nodes [d] = Ok (nodes, rs) /\
    heap_construct_nodes sample_releases sample_store = Ok (result, h') /\
    mapM (node_at 8 h') result = Some nodes.
Proof.
  eexists _, _, _, _, _. split; [vm_compute; reflexivity|].
  split; [vm_compute; reflexivity|]. split; [vm_compute; reflexivity|].
  vm_compute. reflexivity.
Qed.

(** C8 as stated fails: after the call the nodelist of the marker of a
    release with an entry is no longer what it was. *)
Lemma construct_nodes_changes_marker :
  ~ (forall result releases',
       construct_nodes [one_entry_release sample_config [Text " Add the thing"]]
         = Ok (result, releases') ->
       releases' = [one_entry_release sample_config [Text " Add the thing"]]).
Proof.
  intros H.
  destruct (construct_nodes [one_entry_release sample_config [Text " Add the thing"]])
    as [[result releases']|e] eqn:E; [|by vm_compute in E].
  specialize (H _ _ eq_refl). subst releases'.
  vm_compute in E. discriminate E.
Qed.

(** * Further properties of the code *)

#[local] Set Warnings "-clear-no-such-hyp".

(** ** Lists of references without repetition *)

Lemma py_in_pos x l : py_in x l = true <-> pos x ∈ pos <$> l.
Proof.
  induction l as [|y l IH]; simpl.
  - split; [done | by intros ?%elem_of_nil].
  - rewrite elem_of_cons, orb_true_iff, IH. unfold same.
    rewrite Nat.eqb_eq. tauto.
Qed.

Lemma py_in_false_pos x l : py_in x l = false <-> pos x ∉ pos <$> l.
Proof.
  rewrite <- py_in_pos. by destruct (py_in x l); split.
Qed.

Lemma list_remove_pos_sublist x l l' :
  list_remove x l = Ok l' -> (pos <$> l') `sublist_of` (pos <$> l).
Proof.
  revert l'. induction l as [|y l IH]; intros l' H; simpl in H; [discriminate|].
  destruct (same x y).
  - injection H as <-. simpl. by apply sublist_cons.
  - inv_bind_as H r Hr. injection H as <-. simpl. apply sublist_skip. eauto.
Qed.

(** On a list without repetition, removing an object is filtering it out. *)
Lemma list_remove_filter x l :
  NoDup (pos <$> l) -> py_in x l = true ->
  list_remove x l = Ok (filter (fun y => negb (same x y)) l).
Proof.
  induction l as [|y l IH]; simpl; [discriminate|].
  intros [Hy Hnd]%NoDup_cons Hin. rewrite filter_cons.
  destruct (same x y) eqn:Hxy; simpl.
  - f_equal. symmetry. clear IH Hin.
    assert (pos x ∉ pos <$> l) as Hx.
    { unfold same in Hxy. apply Nat.eqb_eq in Hxy. by rewrite Hxy. }
    induction l as [|z l IH]; [done|].
    apply not_elem_of_cons in Hx as [Hz Hx]. apply NoDup_cons in Hnd as [_ Hnd].
    apply not_elem_of_cons in Hy as [_ Hy].
    rewrite filter_cons_True, IH; try done.
    unfold same. apply negb_prop_intro. rewrite Is_true_true, Nat.eqb_eq. done.
  - rewrite (IH Hnd Hin). done.
Qed.

Lemma filter_absent x l :
  py_in x l = false -> filter (fun y => negb (same x y)) l = l.
Proof.
  induction l as [|y l IH]; simpl; [done|].
  intros [Hxy Hin]%orb_false_iff. rewrite filter_cons, Hxy. simpl. by rewrite IH.
Qed.

Lemma tidy_nil i : tidy i [].
Proof. split; constructor. Qed.

Lemma tidy_remove i x l l' : list_remove x l = Ok l' -> tidy i l -> tidy i l'.
Proof.
  intros H [Hnd Hall]. split.
  - eauto using sublist_NoDup, list_remove_pos_sublist.
  - eauto using list_remove_Forall.
Qed.

Lemma tidy_mono i j l : i <= j -> tidy i l -> tidy j l.
Proof.
  intros Hij [Hnd Hall]. split; [done|].
  eapply Forall_impl; [done|]. intros x [Hx Hd]. split; [lia | done].
Qed.

Lemma tidy_snoc i x l :
  tidy i l -> pos x = i -> is_Some (description (target x)) -> tidy (S i) (l ++ [x]).
Proof.
  intros [Hnd Hall] Hx Hd. split.
  - rewrite fmap_app. apply NoDup_app. split; [done|]. split; [|apply NoDup_singleton].
    intros p Hp ->%list_elem_of_singleton.
    apply list_elem_of_fmap in Hp as (y & Hy & Hin).
    eapply Forall_forall in Hall; [|done]. lia.
  - apply Forall_app. split.
    + eapply Forall_impl; [done|]. intros y [Hy ?]. split; [lia | done].
    + apply Forall_singleton. split; [lia | done].
Qed.

(** ** What the release branches keep in every bucket *)

Section every_bucket.
Implicit Types lines : gmap string (list issue_ref).
Variable Q : list issue_ref -> Prop.
Hypothesis Q_nil : Q [].
Hypothesis Q_remove : forall x l l', list_remove x l = Ok l' -> Q l -> Q l'.

Lemma insert_every lines k l :
  Q l -> every_bucket Q lines -> every_bucket Q (<[k := l]> lines).
Proof.
  intros Hl Hinv k' l' Hl'. destruct (decide (k = k')) as [<-|Hne].
  - rewrite lookup_insert_eq in Hl'. by injection Hl' as <-.
  - rewrite lookup_insert_ne in Hl' by done. eauto.
Qed.

Lemma bucket_remove_every k x lines lines' :
  bucket_remove k x lines = Ok lines' -> every_bucket Q lines -> every_bucket Q lines'.
Proof.
  unfold bucket_remove. intros H Hinv.
  inv_bind_as H l Hl. inv_bind_as H l' Hl'. injection H as <-.
  apply getitem_Ok in Hl. apply insert_every; eauto.
Qed.

Lemma remove_if_present_every k x lines lines' :
  remove_if_present k x lines = Ok lines' -> every_bucket Q lines -> every_bucket Q lines'.
Proof.
  unfold remove_if_present. intros H Hinv. inv_bind_as H l Hl.
  destruct (py_in x l); [eauto using bucket_remove_every | by injection H as <-].
Qed.

Lemma explicit_cleanup_every rline lines o lines' :
  explicit_cleanup rline lines o = Ok lines' ->
  every_bucket Q lines -> every_bucket Q lines'.
Proof.
  unfold explicit_cleanup. intros H Hinv.
  destruct (type_ (target o)); [destruct (major (target o))|..].
  - eauto using bucket_remove_every.
  - inv_bind_as H l1 Hl1. eauto using remove_if_present_every.
  - inv_bind_as H l1 Hl1. apply bucket_remove_every in Hl1; [|done].
    destruct (py_in _ _); [eauto using bucket_remove_every | by injection H as <-].
  - inv_bind_as H l1 Hl1. apply bucket_remove_every in Hl1; [|done].
    destruct (py_in _ _); [eauto using bucket_remove_every | by injection H as <-].
Qed.

Lemma explicit_release_every focus explicit st st' :
  explicit_release focus explicit st = Ok st' ->
  every_bucket Q (lines st) -> every_bucket Q (lines st').
Proof.
  intros (_ & es & _ & _ & H & _)%explicit_release_Ok Hinv.
  eapply (foldM_invariant (every_bucket Q)); [|exact Hinv|exact H].
  intros l o l'. eauto using explicit_cleanup_every.
Qed.

Lemma implicit_release_every focus st st' :
  implicit_release focus st = Ok st' ->
  every_bucket Q (lines st) -> every_bucket Q (lines st').
Proof.
  unfold implicit_release. intros H Hinv.
  destruct (lines st !! get_line focus) as [bucket|] eqn:Hline.
  - inv_bind_as H l Hl. injection H as <-. simpl.
    eapply (foldM_invariant (every_bucket Q)); [| |exact Hl].
    + intros l1 o l2. simpl. eauto using remove_if_present_every.
    + by apply insert_every.
  - inv_bind_as H l Hl. injection H as <-. simpl.
    apply insert_every; [done|]. by apply insert_every.
Qed.

Lemma release_branch_every focus rest st st' :
  release_branch focus rest st = Ok st' ->
  every_bucket Q (lines st) -> every_bucket Q (lines st').
Proof.
  unfold release_branch. intros H. inv_bind_as H e He.
  destruct e as [[|i explicit]|];
    eauto using implicit_release_every, explicit_release_every.
Qed.
End every_bucket.

(** ** The buckets an issue is copied into *)

Lemma bind_ret {A} (m : result A) : m ≫= Ok = m.
Proof. by destruct m. Qed.

Lemma bucket_append_Ok x (lines lines' : gmap string (list issue_ref)) k :
  bucket_append x lines k = Ok lines' ->
  exists l, lines !! k = Some l /\ lines' = <[k := l ++ [x]]> lines.
Proof.
  unfold bucket_append. intros H. inv_bind_as H l Hl. injection H as <-.
  apply getitem_Ok in Hl. eauto.
Qed.

(** A loop of appends that goes through found every bucket it names. *)
Lemma append_each_exists x ks (lines lines' : gmap string (list issue_ref)) :
  foldM (bucket_append x) lines ks = Ok lines' ->
  forall k, k ∈ ks -> is_Some (lines !! k).
Proof.
  revert lines. induction ks as [|k0 ks IH]; intros lines H k Hk.
  - by apply elem_of_nil in Hk.
  - simpl in H. inv_bind_as H l1 Hl1.
    apply bucket_append_Ok in Hl1 as (l0 & Hl0 & ->).
    apply elem_of_cons in Hk as [->|Hk]; [eauto|].
    specialize (IH _ H k Hk). apply lookup_insert_is_Some' in IH as [<-|IH]; eauto.
Qed.

Lemma append_each_NoDup x ks (lines lines' : gmap string (list issue_ref)) :
  NoDup ks -> foldM (bucket_append x) lines ks = Ok lines' ->
  forall k, lines' !! k =
    if decide (k ∈ ks) then (fun l => l ++ [x]) <$> lines !! k else lines !! k.
Proof.
  intros Hnd H.
  destruct (append_each_lookup x ks lines Hnd (append_each_exists _ _ _ _ H))
    as (lines'' & H' & Hlook).
  rewrite H in H'. by injection H' as <-.
Qed.

Lemma filterM_Ok {A} (p : A -> result bool) l r :
  filterM p l = Ok r ->
  (forall a, a ∈ l -> exists b, p a = Ok b) /\
  r = filter (fun a => holds (p a)) l.
Proof.
  revert r. induction l as [|a l IH]; intros r H; simpl in H.
  - injection H as <-. split; [by intros a ?%elem_of_nil | done].
  - inv_bind_as H b Hb. inv_bind_as H r' Hr'. injection H as <-.
    destruct (IH _ Hr') as [Hall ->]. split.
    + intros a' [->|Ha']%elem_of_cons; eauto.
    + rewrite filter_cons, Hb. by destruct b.
Qed.

Lemma bug_lines_NoDup (focus : issue) (lines : gmap string (list issue_ref)) ks :
  bug_lines focus lines = Ok ks -> NoDup ks.
Proof.
  unfold bug_lines. intros H.
  destruct (line focus) as [[|c m]|].
  - injection H as <-. apply NoDup_filter, NoDup_keys.
  - inv_bind_as H narrowed Hn. injection H as <-.
    apply filterM_Ok in Hn as [_ ->].
    apply NoDup_app. split; [|split].
    + apply NoDup_filter, NoDup_filter, NoDup_keys.
    + intros k [Hk _]%list_elem_of_filter ->%list_elem_of_singleton.
      by rewrite bool_decide_eq_false_2 in Hk by (by intros []).
    + apply NoDup_singleton.
  - injection H as <-. apply NoDup_filter, NoDup_keys.
Qed.

(** The fan-out appends the issue once to each bucket of a set of existing
    buckets and leaves the other buckets as they are. *)
Lemma fan_out_Ok x (lines lines' : gmap string (list issue_ref)) :
  fan_out x lines = Ok lines' ->
  exists ks, NoDup ks /\ (forall k, k ∈ ks -> is_Some (lines !! k)) /\
    forall k, lines' !! k =
      if decide (k ∈ ks) then (fun l => l ++ [x]) <$> lines !! k else lines !! k.
Proof.
  unfold fan_out. intros H.
  assert (forall ks, NoDup ks -> foldM (bucket_append x) lines ks = Ok lines' ->
            exists ks, NoDup ks /\ (forall k, k ∈ ks -> is_Some (lines !! k)) /\
              forall k, lines' !! k =
                if decide (k ∈ ks) then (fun l => l ++ [x]) <$> lines !! k
                else lines !! k) as Hloop.
  { intros ks Hnd Hks. exists ks.
    eauto using append_each_exists, append_each_NoDup. }
  assert (bucket_append x lines unreleased_feature = Ok lines' ->
            exists ks, NoDup ks /\ (forall k, k ∈ ks -> is_Some (lines !! k)) /\
              forall k, lines' !! k =
                if decide (k ∈ ks) then (fun l => l ++ [x]) <$> lines !! k
                else lines !! k) as Hone.
  { intros Hone. apply (Hloop [unreleased_feature]); [apply NoDup_singleton|].
    simpl. by rewrite Hone. }
  destruct (type_ (target x)); [destruct (major (target x))|..].
  - auto.
  - inv_bind_as H ks Hks. eauto using bug_lines_NoDup.
  - destruct (backported (target x)); eauto using NoDup_keys.
  - destruct (backported (target x)); eauto using NoDup_keys.
Qed.

(** ** The invariant of the loop *)

Lemma every_bucket_impl (Q Q' : list issue_ref -> Prop)
    (lines : gmap string (list issue_ref)) :
  (forall l, Q l -> Q' l) -> every_bucket Q lines -> every_bucket Q' lines.
Proof. intros HQ Hinv k l Hl. eauto. Qed.

Lemma fan_out_tidy i x (lines lines' : gmap string (list issue_ref)) :
  fan_out x lines = Ok lines' ->
  pos x = i -> is_Some (description (target x)) ->
  every_bucket (tidy i) lines -> every_bucket (tidy (S i)) lines'.
Proof.
  intros (ks & _ & _ & Hlook)%fan_out_Ok Hpos Hdesc Hinv k l' Hl'.
  rewrite Hlook in Hl'. destruct (decide (k ∈ ks)).
  - destruct (lines !! k) as [l|] eqn:Hl; [|done]. injection Hl' as <-.
    apply tidy_snoc; eauto.
  - apply (tidy_mono i); [lia | eauto].
Qed.

Lemma as_issue_described focus rest : is_Some (description (as_issue focus rest)).
Proof. destruct focus; by eexists. Qed.

Lemma registry_ok_mono i j issues : i <= j -> registry_ok i issues -> registry_ok j issues.
Proof.
  intros Hij Hreg k x Hx. destruct (Hreg k x Hx) as (? & ? & ?).
  split; [done|]. split; [lia | done].
Qed.

Lemma releases_ok_mono i j rs : i <= j -> releases_ok i rs -> releases_ok j rs.
Proof.
  intros Hij Hrs. eapply Forall_impl; [exact Hrs|]. intros d Hd.
  eapply Forall_impl; [exact Hd|]. intros x [? ?]. split; [lia | done].
Qed.

(** The entries of a new release come out of a bucket or out of the
    registry. *)
Lemma release_branch_entries focus rest st st' :
  release_branch focus rest st = Ok st' ->
  issues st' = issues st /\
  exists es, releases st' = releases st ++ [ReleaseDict focus es] /\
    forall e, e ∈ es ->
      (exists k l, lines st !! k = Some l /\ e ∈ l) \/ (exists k, issues st !! k = Some e).
Proof.
  assert (implicit_release focus st = Ok st' ->
          issues st' = issues st /\
          exists es, releases st' = releases st ++ [ReleaseDict focus es] /\
            forall e, e ∈ es ->
              (exists k l, lines st !! k = Some l /\ e ∈ l) \/
              (exists k, issues st !! k = Some e)) as Himplicit.
  { unfold implicit_release. intros H.
    destruct (lines st !! get_line focus) as [bucket|] eqn:Hline.
    - inv_bind_as H l Hl. injection H as <-. simpl. split; [done|].
      eexists. split; [done|]. intros e [_ He]%list_elem_of_filter. left. eauto.
    - inv_bind_as H l Hl. injection H as <-. simpl. split; [done|].
      eexists. split; [done|]. intros e [_ He]%list_elem_of_filter. left.
      apply getitem_Ok in Hl. apply lookup_insert_Some in Hl as [[_ <-]|[_ Hl]].
      + by apply elem_of_nil in He.
      + eauto. }
  unfold release_branch. intros H. inv_bind_as H ex Hex.
  destruct ex as [[|i explicit]|]; auto.
  apply explicit_release_Ok in H as (_ & es & Hes & Hr & _ & Hi).
  split; [done|]. exists es. split; [done|].
  intros e He. right.
  apply list_elem_of_lookup in He as [n He].
  destruct (Forall2_lookup_r _ _ _ _ _ Hes He) as (num & _ & Hnum). eauto.
Qed.

Lemma step_ok i it st st' :
  step i it st = Ok st' -> state_ok i st -> state_ok (S i) st'.
Proof.
  intros H (Hs & Hb & Hreg & Hrel).
  split; [by eapply step_sentinels|].
  unfold step in H. inv_bind_as H fr Hfr. destruct fr as [focus rest].
  assert (release_branch_ok : forall r,
            release_branch r rest st = Ok st' ->
            every_bucket (tidy (S i)) (lines st') /\
            registry_ok (S i) (issues st') /\ releases_ok (S i) (releases st')).
  { intros r Hr. split; [|split].
    - apply (every_bucket_impl (tidy i)); [intros l; apply tidy_mono; lia|].
      eapply (release_branch_every (tidy i)); eauto using tidy_nil, tidy_remove.
    - apply release_branch_entries in Hr as [-> _]. eapply registry_ok_mono; [|done]. lia.
    - apply release_branch_entries in Hr as (_ & es & -> & Hes).
      apply (releases_ok_mono i); [lia|]. apply Forall_app. split; [done|].
      apply Forall_singleton. simpl. apply Forall_forall. intros e He.
      destruct (Hes e He) as [(k & l & Hl & Hin)|(k & Hk)].
      + destruct (Hb k l Hl) as [_ Hall]. by eapply Forall_forall in Hall.
      + by destruct (Hreg k e Hk) as (_ & ? & ?). }
  assert (issue_branch_ok :
            issue_branch i focus rest st = Ok st' ->
            every_bucket (tidy (S i)) (lines st') /\
            registry_ok (S i) (issues st') /\ releases_ok (S i) (releases st')).
  { intros (Hr & Hi & Hf)%issue_branch_Ok. split; [|split].
    - eapply fan_out_tidy; eauto using as_issue_described.
    - rewrite Hi. intros k x Hx. apply lookup_insert_Some in Hx as [[<- <-]|[_ Hx]].
      + simpl. split; [done|]. split; [lia | apply as_issue_described].
      + destruct (Hreg k x Hx) as (? & ? & ?). split; [done|]. split; [lia | done].
    - rewrite Hr. eapply releases_ok_mono; [|done]. lia. }
  destruct focus as [s|tag attrs children|x|r]; [by apply issue_branch_ok..|].
  by apply (release_branch_ok r).
Qed.

Lemma loop_ok items i st st' :
  loop items i st = Ok st' -> state_ok i st -> state_ok (i + length items) st'.
Proof.
  revert i st. induction items as [|it items IH]; intros i st H Hok; simpl in H.
  - injection H as <-. simpl. by rewrite Nat.add_0_r.
  - inv_bind_as H st1 Hst1. simpl. rewrite Nat.add_succ_r.
    apply (IH (S i) st1); eauto using step_ok.
Qed.

Lemma initial_ok : state_ok 0 initial.
Proof.
  split; [apply initial_sentinels|]. split; [|split].
  - intros k l Hl. simpl in Hl.
    apply lookup_insert_Some in Hl as [[_ <-]|[_ Hl]]; [apply tidy_nil|].
    apply lookup_insert_Some in Hl as [[_ <-]|[_ Hl]]; [apply tidy_nil|].
    by rewrite lookup_empty in Hl.
  - intros k x Hx. simpl in Hx. by rewrite lookup_empty in Hx.
  - constructor.
Qed.

(** X1.  However many items have been processed, no bucket holds the same
    issue object twice, and every member of a bucket carries its
    description. *)
Theorem bucket_members_are_distinct entries n st k l :
  loop (take n (reverse entries)) 0 initial = Ok st ->
  lines st !! k = Some l ->
  NoDup (pos <$> l) /\ Forall (fun x => is_Some (description (target x))) l.
Proof.
  intros H Hl. apply loop_ok in H; [|apply initial_ok].
  destruct H as (_ & Hb & _). destruct (Hb k l Hl) as [Hnd Hall].
  split; [done|]. eapply Forall_impl; [exact Hall|]. by intros x [_ ?].
Qed.

Lemma bucket_members_are_distinct_witness :
  exists st l,
    loop (take 3 (reverse (reverse (scenario_3 "1.0.0" "1.0.1" sample_config [] []))))
         0 initial = Ok st /\
    lines st !! unreleased_bugfix = Some l /\
    NoDup (pos <$> l) /\ Forall (fun x => is_Some (description (target x))) l.
Proof.
  destruct (loop _ 0 initial) as [st|e] eqn:H; [|by vm_compute in H].
  destruct (lines st !! unreleased_bugfix) as [l|] eqn:Hl.
  - exists st, l. split; [done|]. split; [done|].
    exact (bucket_members_are_distinct _ _ _ _ _ H Hl).
  - vm_compute in H. injection H as <-. vm_compute in Hl. discriminate.
Defined.

(** A step keeps what the registry holds under a non-empty number. *)
Lemma step_registry_keeps i it st st' k x :
  step i it st = Ok st' -> truthy k = true ->
  issues st !! k = Some x -> issues st' !! k = Some x.
Proof.
  unfold step. intros H Hk Hx. inv_bind_as H fr Hfr. destruct fr as [focus rest].
  assert (issue_branch i focus rest st = Ok st' -> issues st' !! k = Some x) as Hissue.
  { unfold issue_branch. simpl.
    destruct (decide (number (as_issue focus rest) = k)) as [->|Hne].
    - rewrite Hk, Hx. simpl. done.
    - destruct (truthy _ && _); [done|]. intros Hb. inv_bind_as Hb l Hl.
      injection Hb as <-. simpl. by rewrite lookup_insert_ne. }
  destruct focus as [s|tag attrs children|y|r]; auto.
  apply release_branch_entries in H as [-> _]. done.
Qed.

Lemma loop_registry_keeps items i st st' k x :
  loop items i st = Ok st' -> truthy k = true ->
  issues st !! k = Some x -> issues st' !! k = Some x.
Proof.
  revert i st. induction items as [|it items IH]; intros i st H Hk Hx; simpl in H.
  - by injection H as <-.
  - inv_bind_as H st1 Hst1. eauto using step_registry_keeps.
Qed.

Lemma loop_registers items st j iss rest :
  loop items 0 initial = Ok st ->
  items !! j = Some (item (IssueEl iss) rest) -> truthy (number iss) = true ->
  issues st !! number iss = Some (IssueRef j (described iss rest)).
Proof.
  intros H Hj Hn.
  apply list_elem_of_split_length in Hj as (before & after & -> & ->).
  rewrite loop_app in H. inv_bind_as H st1 Hst1. simpl in H.
  inv_bind_as H st2 Hst2. rewrite step_issue in Hst2.
  apply issue_branch_Ok in Hst2 as (_ & Hi & _).
  eapply loop_registry_keeps; [exact H|done|].
  rewrite Hi. simpl. by rewrite lookup_insert_eq.
Qed.

(** X2.  The registry resolves a number to the issue that was defined with
    it: once the items have been processed, every issue item with a
    non-empty number is filed under that number, with the rest of its
    paragraph as its description, and every key of the registry is the
    number of the issue filed under it. *)
Theorem registry_resolves_numbers items st :
  loop items 0 initial = Ok st ->
  (forall j iss rest,
     items !! j = Some (item (IssueEl iss) rest) -> truthy (number iss) = true ->
     issues st !! number iss = Some (IssueRef j (described iss rest))) /\
  (forall k x, issues st !! k = Some x -> number (target x) = k).
Proof.
  intros H. split.
  - intros j iss rest Hj Hn. by eapply loop_registers.
  - intros k x Hx. apply loop_ok in H; [|apply initial_ok].
    destruct H as (_ & _ & Hreg & _). by destruct (Hreg k x Hx).
Qed.

Lemma registry_resolves_numbers_witness :
  exists st,
    loop (scenario_1 sample_config []) 0 initial = Ok st /\
    issues st !! Some "1" = Some (IssueRef 0 (described (bug_1 sample_config) [])).
Proof.
  destruct (loop (scenario_1 sample_config []) 0 initial) as [st|e] eqn:H;
    [|by vm_compute in H].
  exists st. split; [done|].
  exact (proj1 (registry_resolves_numbers _ _ H) 0 (bug_1 sample_config) []
               eq_refl eq_refl).
Defined.

(** X3.  An issue whose non-empty number an earlier item has defined stops
    the run with the duplicate error for that number, whatever its type and
    flags. *)
Theorem duplicate_number_raises before st j earlier rest_earlier iss rest n :
  loop before 0 initial = Ok st ->
  before !! j = Some (item (IssueEl earlier) rest_earlier) ->
  number earlier = Some n -> number iss = Some n -> n ≠ EmptyString ->
  step (length before) (item (IssueEl iss) rest) st = Raise (duplicate_issue n) /\
  loop (before ++ [item (IssueEl iss) rest]) 0 initial = Raise (duplicate_issue n).
Proof.
  intros H Hj Hearlier Hn Hne.
  assert (truthy (Some n) = true) as Ht by (by destruct n).
  pose proof (loop_registers _ _ j earlier rest_earlier H Hj) as Hreg.
  rewrite Hearlier in Hreg. specialize (Hreg Ht).
  assert (step (length before) (item (IssueEl iss) rest) st = Raise (duplicate_issue n))
    as Hstep.
  { rewrite step_issue. unfold issue_branch. simpl. by rewrite Hn, Ht, Hreg. }
  split; [done|]. rewrite loop_app, H. simpl. by rewrite Hstep.
Qed.

Lemma duplicate_number_raises_witness :
  loop (scenario_1 sample_config [] ++ [item (IssueEl (bug_1 sample_config)) [Text " again"]])
       0 initial
  = Raise (duplicate_issue "1").
Proof.
  destruct (loop (scenario_1 sample_config []) 0 initial) as [st|e] eqn:H;
    [|by vm_compute in H].
  exact (proj2 (duplicate_number_raises (scenario_1 sample_config []) st 0
                  (bug_1 sample_config) [] (bug_1 sample_config) [Text " again"] "1"
                  H eq_refl eq_refl eq_refl ltac:(discriminate))).
Defined.

(** ** The fan-out, case by case *)

Lemma append_each_keys x (lines : gmap string (list issue_ref)) :
  foldM (bucket_append x) lines (keys lines) = Ok ((fun l => l ++ [x]) <$> lines).
Proof.
  destruct (append_each_lookup x (keys lines) lines) as (lines' & -> & Hlook).
  - apply NoDup_keys.
  - intros k. by rewrite elem_of_keys.
  - f_equal. apply map_eq. intros k. rewrite Hlook, lookup_fmap.
    destruct (decide (k ∈ keys lines)) as [|Hk]; [done|].
    rewrite elem_of_keys in Hk. destruct (lines !! k); [|done]. destruct Hk. eauto.
Qed.

Lemma fan_out_backported x (lines : gmap string (list issue_ref)) :
  type_ (target x) ≠ bug -> backported (target x) = true ->
  fan_out x lines = foldM (bucket_append x) lines (keys lines).
Proof. intros Ht Hb. unfold fan_out. rewrite Hb. by destruct (type_ (target x)). Qed.

Lemma fan_out_feature_only x (lines : gmap string (list issue_ref)) :
  (type_ (target x) = bug /\ major (target x) = true) \/
  (type_ (target x) ≠ bug /\ backported (target x) = false) ->
  fan_out x lines = bucket_append x lines unreleased_feature.
Proof.
  unfold fan_out. intros [[-> ->]|[Ht ->]]; [done|]. by destruct (type_ (target x)).
Qed.

Lemma bug_lines_no_min_line (focus : issue) (lines : gmap string (list issue_ref)) :
  truthy (line focus) = false ->
  bug_lines focus lines = Ok (filter (fun k => k ≠ unreleased_feature) (keys lines)).
Proof. unfold bug_lines. by destruct (line focus) as [[|c m]|]. Qed.

(** X4.  A backported feature or support item that is not a duplicate is
    appended to every bucket there is, the two unreleased ones included; the
    step cannot raise, and no bucket is created. *)
Theorem backported_item_reaches_every_bucket i iss rest st :
  type_ iss ≠ bug -> backported iss = true ->
  (truthy (number iss) = true -> issues st !! number iss = None) ->
  let x := IssueRef i (described iss rest) in
  step i (item (IssueEl iss) rest) st =
    Ok (State (releases st) ((fun l => l ++ [x]) <$> lines st)
              (<[number iss := x]> (issues st))).
Proof.
  intros Ht Hb Hdup x. rewrite step_issue.
  apply (issue_branch_fresh i (IssueEl iss) rest st); [done|].
  rewrite fan_out_backported by done. apply append_each_keys.
Qed.

Lemma backported_item_reaches_every_bucket_witness :
  let iss := Issue (Some "7") feature true false None (issue_nodelist feature None) None in
  let x := IssueRef 4 (described iss []) in
  let st := State [] (<["1.0" := []]> (lines initial)) ∅ in
  exists st',
    step 4 (item (IssueEl iss) []) st = Ok st' /\
    lines st' !! "1.0" = Some [x] /\
    lines st' !! unreleased_bugfix = Some [x] /\
    lines st' !! unreleased_feature = Some [x].
Proof.
  intros iss x st. eexists. split.
  - apply (backported_item_reaches_every_bucket 4 iss [] st); [discriminate|done|done].
  - repeat split.
Defined.

(** X5.  A regular bug without a minimum line that is not a duplicate is
    appended to every bucket except unreleased_feature: to unreleased_bugfix
    and to the bucket of every release line.  The step cannot raise. *)
Theorem regular_bug_reaches_every_line i iss rest st :
  type_ iss = bug -> major iss = false -> truthy (line iss) = false ->
  (truthy (number iss) = true -> issues st !! number iss = None) ->
  let x := IssueRef i (described iss rest) in
  exists st',
    step i (item (IssueEl iss) rest) st = Ok st' /\
    releases st' = releases st /\
    issues st' = <[number iss := x]> (issues st) /\
    lines st' !! unreleased_feature = lines st !! unreleased_feature /\
    forall k, k ≠ unreleased_feature ->
      lines st' !! k = (fun l => l ++ [x]) <$> lines st !! k.
Proof.
  intros Ht Hm Hline Hdup x.
  set (ks := filter (fun k => k ≠ unreleased_feature) (keys (lines st))).
  destruct (append_each_lookup x ks (lines st)) as (lines' & Hfold & Hlook).
  { apply NoDup_filter, NoDup_keys. }
  { intros k [_ Hk]%list_elem_of_filter. by apply elem_of_keys. }
  exists (State (releases st) lines' (<[number iss := x]> (issues st))).
  split; [|split; [done|split; [done|split]]].
  - rewrite step_issue.
    apply (issue_branch_fresh i (IssueEl iss) rest st); [done|].
    rewrite fan_out_regular_bug by done.
    by rewrite bug_lines_no_min_line.
  - simpl. rewrite Hlook. destruct (decide _) as [Hk|]; [|done].
    by apply list_elem_of_filter in Hk as [[] _].
  - intros k Hk. simpl. rewrite Hlook. destruct (decide _) as [|Hin]; [done|].
    destruct (lines st !! k) as [l|] eqn:Hl; [|done].
    destruct Hin. apply list_elem_of_filter. split; [done|]. apply elem_of_keys. eauto.
Qed.

Lemma regular_bug_reaches_every_line_witness :
  let x := IssueRef 4 (described (bug_5 sample_config) []) in
  let st := State [] (<["1.0" := []]> (lines initial)) ∅ in
  exists st',
    step 4 (item (IssueEl (bug_5 sample_config)) []) st = Ok st' /\
    lines st' !! "1.0" = Some [x] /\
    lines st' !! unreleased_bugfix = Some [x] /\
    lines st' !! unreleased_feature = Some [].
Proof.
  intros x st.
  destruct (regular_bug_reaches_every_line 4 (bug_5 sample_config) [] st
              eq_refl eq_refl eq_refl (fun _ => eq_refl))
    as (st' & Hstep & _ & _ & Hf & Hk).
  exists st'. split; [exact Hstep|].
  rewrite (Hk "1.0"), (Hk unreleased_bugfix), Hf by done. repeat split.
Defined.

(** X6.  A major bug, and a feature or support item that is not backported,
    is appended to unreleased_feature and to no other bucket. *)
Theorem feature_goes_to_unreleased_feature i iss rest st features :
  (type_ iss = bug /\ major iss = true) \/ (type_ iss ≠ bug /\ backported iss = false) ->
  (truthy (number iss) = true -> issues st !! number iss = None) ->
  lines st !! unreleased_feature = Some features ->
  let x := IssueRef i (described iss rest) in
  step i (item (IssueEl iss) rest) st =
    Ok (State (releases st) (<[unreleased_feature := features ++ [x]]> (lines st))
              (<[number iss := x]> (issues st))).
Proof.
  intros Hcase Hdup Hf x. rewrite step_issue.
  apply (issue_branch_fresh i (IssueEl iss) rest st); [done|].
  rewrite fan_out_feature_only by done. by apply bucket_append_Some.
Qed.

Lemma feature_goes_to_unreleased_feature_witness :
  let x := IssueRef 0 (described (feature_2 sample_config) []) in
  step 0 (item (IssueEl (feature_2 sample_config)) []) initial =
    Ok (State [] (<[unreleased_feature := [x]]> (lines initial)) (<[Some "2" := x]> ∅)).
Proof.
  intros x.
  apply (feature_goes_to_unreleased_feature 0 (feature_2 sample_config) [] initial []).
  - right. split; [discriminate | reflexivity].
  - intros _. reflexivity.
  - reflexivity.
Defined.

(** X7.  A line item that does not start with an issue role is filed as an
    anonymous regular bug: it has no number, so it is never a duplicate and
    the step cannot raise; it is appended to every bucket except
    unreleased_feature; and its description is its first node alone, the
    rest of the paragraph is not kept. *)
Theorem plain_line_item_is_an_anonymous_bug i focus rest st :
  (forall iss, focus ≠ IssueEl iss) -> (forall r, focus ≠ ReleaseEl r) ->
  let x := IssueRef i (Issue None bug false false None (issue_nodelist bug None)
                             (Some [focus])) in
  exists st',
    step i (item focus rest) st = Ok st' /\
    releases st' = releases st /\
    issues st' = <[None := x]> (issues st) /\
    lines st' !! unreleased_feature = lines st !! unreleased_feature /\
    forall k, k ≠ unreleased_feature ->
      lines st' !! k = (fun l => l ++ [x]) <$> lines st !! k.
Proof.
  intros Hissue Hrelease x.
  set (ks := filter (fun k => k ≠ unreleased_feature) (keys (lines st))).
  destruct (append_each_lookup x ks (lines st)) as (lines' & Hfold & Hlook).
  { apply NoDup_filter, NoDup_keys. }
  { intros k [_ Hk]%list_elem_of_filter. by apply elem_of_keys. }
  exists (State (releases st) lines' (<[None := x]> (issues st))).
  split; [|split; [done|split; [done|split]]].
  - assert (step i (item focus rest) st = issue_branch i focus rest st) as ->.
    { destruct focus as [s|tag attrs children|iss|r]; try done.
      by destruct (Hrelease r). }
    assert (as_issue focus rest = target x) as Hx.
    { destruct focus as [s|tag attrs children|iss|r]; try done.
      by destruct (Hissue iss). }
    pose proof (issue_branch_fresh i focus rest st lines') as Hfresh.
    simpl in Hfresh. rewrite Hx in Hfresh. apply Hfresh; [done|].
    rewrite fan_out_regular_bug by done.
    by rewrite bug_lines_no_min_line.
  - simpl. rewrite Hlook. destruct (decide _) as [Hk|]; [|done].
    by apply list_elem_of_filter in Hk as [[] _].
  - intros k Hk. simpl. rewrite Hlook. destruct (decide _) as [|Hin]; [done|].
    destruct (lines st !! k) as [l|] eqn:Hl; [|done].
    destruct Hin. apply list_elem_of_filter. split; [done|]. apply elem_of_keys. eauto.
Qed.

Lemma plain_line_item_is_an_anonymous_bug_witness :
  let x := IssueRef 0 (Issue None bug false false None (issue_nodelist bug None)
                             (Some [Text "Fixed "])) in
  exists st',
    step 0 (item (Text "Fixed ") [Elem "emphasis" [] [Text "all"]; Text " bugs"]) initial
      = Ok st' /\
    lines st' !! unreleased_bugfix = Some [x] /\
    issues st' !! None = Some x.
Proof.
  intros x.
  destruct (plain_line_item_is_an_anonymous_bug 0 (Text "Fixed ")
              [Elem "emphasis" [] [Text "all"]; Text " bugs"] initial)
    as (st' & Hstep & _ & Hi & _ & Hk); [discriminate..|].
  exists st'. split; [exact Hstep|].
  rewrite (Hk unreleased_bugfix), Hi by done. split; reflexivity.
Defined.

(** ** Implicit releases *)

Lemma remove_if_present_keeps_empty k x (lines lines' : gmap string (list issue_ref)) k' :
  remove_if_present k x lines = Ok lines' ->
  lines !! k' = Some [] -> lines' !! k' = Some [].
Proof.
  unfold remove_if_present, bucket_remove. intros H Hk'.
  inv_bind_as H l Hl. apply getitem_Ok in Hl.
  destruct (py_in x l) eqn:Hin; [|by injection H as <-].
  inv_bind_as H l1 Hl1. inv_bind_as H l2 Hl2. injection H as <-.
  destruct (decide (k = k')) as [<-|Hne]; [|by rewrite lookup_insert_ne].
  rewrite Hk' in Hl. injection Hl as <-. discriminate Hin.
Qed.

(** X8.  A release without an issue list cannot raise, whether its line is
    new or not, and it leaves the bucket of its line empty. *)
Theorem implicit_release_cannot_raise i r st :
  sentinels (lines st) ->
  exists es lines',
    step i (item (ReleaseEl r) []) st
      = Ok (State (releases st ++ [ReleaseDict r es]) lines' (issues st)) /\
    lines' !! get_line r = Some [].
Proof.
  intros [Hb Hf]. rewrite step_release. unfold release_branch. simpl.
  destruct (lines st !! get_line r) as [bucket|] eqn:Hline.
  - destruct (bugfix_release_total r st bucket Hline Hb) as [lines' H].
    exists (filter not_major bucket), lines'. split; [done|].
    unfold implicit_release in H. rewrite Hline in H.
    inv_bind_as H lines'' Hfold. injection H as <-.
    eapply (foldM_invariant (fun l => l !! get_line r = Some [])); [| |exact Hfold].
    + intros l x l'. simpl. eauto using remove_if_present_keeps_empty.
    + apply lookup_insert_eq.
  - destruct Hf as [features Hf]. unfold implicit_release. rewrite Hline.
    assert (get_line r ≠ unreleased_feature) as Hne by (intros Heq; congruence).
    unfold getitem. rewrite lookup_insert_ne, Hf by done. simpl.
    eexists _, _. split; [done|]. simpl.
    by rewrite lookup_insert_ne, lookup_insert_eq.
Qed.

Lemma implicit_release_cannot_raise_witness :
  exists es lines',
    step 0 (item (ReleaseEl (release_of_role "2.0.0" "2021-01-01" sample_config)) []) initial
      = Ok (State [ReleaseDict (release_of_role "2.0.0" "2021-01-01" sample_config) es]
                  lines' ∅) /\
    lines' !! "2.0" = Some [].
Proof.
  exact (implicit_release_cannot_raise 0
           (release_of_role "2.0.0" "2021-01-01" sample_config) initial initial_sentinels).
Defined.

Lemma same_sym x y : same x y = same y x.
Proof. apply Nat.eqb_sym. Qed.

Lemma NoDup_pos_filter (P : issue_ref -> Prop) `{!forall x, Decision (P x)} l :
  NoDup (pos <$> l) -> NoDup (pos <$> filter P l).
Proof.
  induction l as [|y l IH]; [done|]. simpl.
  intros [Hy Hnd]%NoDup_cons. rewrite filter_cons. destruct (decide (P y)); [|auto].
  simpl. apply NoDup_cons. split; [|auto].
  intros (z & Hz & [_ Hin]%list_elem_of_filter)%list_elem_of_fmap.
  apply Hy. rewrite Hz. by apply list_elem_of_fmap_2.
Qed.

(** The guarded removal on a bucket without repetition filters the object
    out. *)
Lemma remove_if_present_filter k x (lines : gmap string (list issue_ref)) l :
  lines !! k = Some l -> NoDup (pos <$> l) ->
  remove_if_present k x lines = Ok (<[k := filter (fun y => negb (same x y)) l]> lines).
Proof.
  intros Hl Hnd. unfold remove_if_present, bucket_remove, getitem. rewrite Hl. simpl.
  destruct (py_in x l) eqn:Hin.
  - by rewrite (list_remove_filter x l Hnd Hin).
  - by rewrite filter_absent, insert_id.
Qed.

Lemma bugfix_cleanup_filter es (lines : gmap string (list issue_ref)) pending :
  lines !! unreleased_bugfix = Some pending -> NoDup (pos <$> pending) ->
  foldM (fun lines x => remove_if_present unreleased_bugfix x lines) lines es
  = Ok (<[unreleased_bugfix := filter (fun y => negb (py_in y es)) pending]> lines).
Proof.
  revert lines pending. induction es as [|e es IH]; intros lines pending Hp Hnd; simpl.
  - f_equal. rewrite insert_id; [done|]. rewrite Hp. f_equal.
    symmetry. clear. induction pending as [|y l IH]; [done|].
    by rewrite filter_cons_True, IH.
  - rewrite (remove_if_present_filter _ _ _ _ Hp Hnd). simpl.
    rewrite (IH _ (filter (fun y => negb (same e y)) pending)).
    + rewrite insert_insert_eq. do 2 f_equal.
      rewrite list_filter_filter. apply list_filter_iff. intros y.
      rewrite (same_sym y e). destruct (same e y), (py_in y es); simpl; tauto.
    + apply lookup_insert_eq.
    + by apply NoDup_pos_filter.
Qed.

(** X9.  A release without an issue list on an existing line releases the
    issues of the line's bucket that are not marked major, in the order of
    the bucket, empties that bucket, and takes exactly the released issues
    out of unreleased_bugfix: the issues pending for other lines stay, in
    their order.  No other bucket changes. *)
Theorem bugfix_release_effect i r st bucket pending :
  lines st !! get_line r = Some bucket ->
  lines st !! unreleased_bugfix = Some pending ->
  get_line r ≠ unreleased_bugfix ->
  NoDup (pos <$> pending) ->
  let released := filter not_major bucket in
  step i (item (ReleaseEl r) []) st =
    Ok (State (releases st ++ [ReleaseDict r released])
              (<[unreleased_bugfix := filter (fun y => negb (py_in y released)) pending]>
                 (<[get_line r := []]> (lines st)))
              (issues st)).
Proof.
  intros Hline Hp Hne Hnd released. rewrite step_release.
  unfold release_branch. simpl. unfold implicit_release. rewrite Hline.
  fold released. rewrite (bugfix_cleanup_filter released _ pending); [done| |done].
  by rewrite lookup_insert_ne.
Qed.

Lemma bugfix_release_effect_witness :
  let b3 := IssueRef 2 (described (bug_3 sample_config) []) in
  let b5 := IssueRef 3 (described (bug_5 sample_config) []) in
  let r := release_of_role "1.0.1" "2020-02-01" sample_config in
  let st := State [] (<["1.0" := [b3]]> (<[unreleased_bugfix := [b5; b3]]> (lines initial)))
                  ∅ in
  exists st',
    step 4 (item (ReleaseEl r) []) st = Ok st' /\
    releases st' = [ReleaseDict r [b3]] /\
    lines st' !! "1.0" = Some [] /\
    lines st' !! unreleased_bugfix = Some [b5].
Proof.
  intros b3 b5 r st. eexists. split.
  - apply (bugfix_release_effect 4 r st [b3] [b5; b3]); [done|done|done|].
    apply NoDup_cons. split; [|apply NoDup_singleton].
    by intros [=]%list_elem_of_singleton.
  - repeat split.
Defined.

(** ** Explicit releases *)

Lemma bucket_remove_present k x (lines : gmap string (list issue_ref)) :
  py_in x (default [] (lines !! k)) = true ->
  exists lines', bucket_remove k x lines = Ok lines'.
Proof.
  intros Hin. unfold bucket_remove, getitem.
  destruct (lines !! k) as [l|]; [|done]. simpl in *.
  destruct (list_remove_present _ _ Hin) as [l' ->]. simpl. eauto.
Qed.

Lemma explicit_cleanup_total rline o (lines : gmap string (list issue_ref)) :
  is_Some (lines !! unreleased_bugfix) ->
  (type_ (target o) = bug -> major (target o) = false -> is_Some (lines !! rline)) ->
  (~ (type_ (target o) = bug /\ major (target o) = false) ->
   py_in o (default [] (lines !! unreleased_feature)) = true) ->
  exists lines', explicit_cleanup rline lines o = Ok lines'.
Proof.
  intros Hub Hbug Hfeat.
  assert (~ (type_ (target o) = bug /\ major (target o) = false) ->
          exists lines',
            (lines1 ← bucket_remove unreleased_feature o lines;
             if py_in o (default [] (lines1 !! rline)) then bucket_remove rline o lines1
             else Ok lines1) = Ok lines') as Hother.
  { intros Hin%Hfeat.
    destruct (bucket_remove_present _ _ _ Hin) as [lines1 ->]. simpl.
    destruct (py_in o (default [] (lines1 !! rline))) eqn:Hline; [|eauto].
    by apply bucket_remove_present. }
  unfold explicit_cleanup.
  destruct (type_ (target o)) eqn:Ht; [destruct (major (target o)) eqn:Hm|..].
  - destruct Hother as [lines' H]; [by intros [_ ?]|].
    inv_bind_as H lines1 H1. eauto.
  - destruct (remove_if_present_total unreleased_bugfix o lines Hub) as [lines1 H1].
    rewrite H1. simpl. apply remove_if_present_total.
    apply remove_if_present_dom in H1.
    apply elem_of_dom. rewrite H1. apply elem_of_dom. auto.
  - apply Hother. by intros [? _].
  - apply Hother. by intros [? _].
Qed.

Lemma explicit_cleanup_one_other rline o x (lines lines' : gmap string (list issue_ref)) k :
  explicit_cleanup rline lines o = Ok lines' -> same x o = false ->
  py_in x (default [] (lines' !! k)) = py_in x (default [] (lines !! k)).
Proof.
  intros H Hx. apply (explicit_cleanup_other rline x [o]).
  - simpl. by rewrite H.
  - by apply Forall_singleton.
Qed.

Lemma explicit_cleanups_total rline entries (lines : gmap string (list issue_ref)) :
  is_Some (lines !! unreleased_bugfix) ->
  NoDup (pos <$> entries) ->
  Forall (fun o =>
            (type_ (target o) = bug -> major (target o) = false ->
             is_Some (lines !! rline)) /\
            (~ (type_ (target o) = bug /\ major (target o) = false) ->
             py_in o (default [] (lines !! unreleased_feature)) = true)) entries ->
  exists lines', foldM (explicit_cleanup rline) lines entries = Ok lines' /\
    dom lines' = dom lines.
Proof.
  revert lines. induction entries as [|o entries IH]; intros lines Hub Hnd Hall; simpl.
  - eauto.
  - apply Forall_cons in Hall as [[Hbug Hfeat] Hall].
    apply NoDup_cons in Hnd as [Ho Hnd].
    destruct (explicit_cleanup_total rline o lines Hub Hbug Hfeat) as [lines1 H1].
    rewrite H1. simpl.
    pose proof (explicit_cleanup_dom _ _ _ _ H1) as Hdom.
    destruct (IH lines1) as (lines' & -> & Hdom'); [| done | | ].
    + apply elem_of_dom. rewrite Hdom. by apply elem_of_dom.
    + apply Forall_forall. intros o' Ho'.
      eapply Forall_forall in Hall as [Hbug' Hfeat']; [|done]. split.
      * intros Ht Hm. apply elem_of_dom. rewrite Hdom. apply elem_of_dom. auto.
      * intros Hn. rewrite (explicit_cleanup_one_other _ _ _ _ _ _ H1); [auto|].
        unfold same. apply Nat.eqb_neq. intros Heq. apply Ho. rewrite <- Heq.
        by apply list_elem_of_fmap_2.
    + exists lines'. split; [done | congruence].
Qed.

(** X10.  A release with an issue list goes through when every listed
    number is registered, no issue is listed twice, every listed feature,
    support item or major bug is still in unreleased_feature, and - if a
    regular bug is listed - the line of the release already has a bucket.
    Its entries are then the registered issues in the order of the list, and
    no bucket is created or deleted. *)
Theorem explicit_release_goes_through i r rest st explicit entries :
  explicit_list rest = Ok (Some explicit) ->
  Forall2 (fun n x => issues st !! Some n = Some x) explicit entries ->
  NoDup (pos <$> entries) ->
  is_Some (lines st !! unreleased_bugfix) ->
  Forall (fun o =>
            (type_ (target o) = bug -> major (target o) = false ->
             is_Some (lines st !! get_line r)) /\
            (~ (type_ (target o) = bug /\ major (target o) = false) ->
             py_in o (default [] (lines st !! unreleased_feature)) = true)) entries ->
  exists lines',
    step i (item (ReleaseEl r) rest) st
      = Ok (State (releases st ++ [ReleaseDict r entries]) lines' (issues st)) /\
    dom lines' = dom (lines st).
Proof.
  intros Hex Hreg Hnd Hub Hall.
  destruct (explicit_cleanups_total (get_line r) entries (lines st) Hub Hnd Hall)
    as (lines' & Hfold & Hdom).
  exists lines'. split; [|done].
  rewrite step_release. unfold release_branch. rewrite Hex. simpl.
  assert (explicit ≠ []) as Hne.
  { destruct rest as [|[s| | |] rest]; simpl in Hex; try discriminate.
    injection Hex as <-. intros Hnil%fmap_nil_inv. by apply split_nonempty in Hnil. }
  destruct explicit as [|n explicit]; [done|].
  unfold explicit_release.
  assert (missing_of (issues st) (n :: explicit) = []) as ->.
  { unfold missing_of. clear -Hreg. induction Hreg as [|n' x ns xs Hx _ IH]; [done|].
    rewrite filter_cons_False; [done|]. by rewrite Hx. }
  assert (forM (registry_get (issues st)) (n :: explicit) = Ok entries) as ->.
  { clear -Hreg. induction Hreg as [|n' x ns xs Hx _ IH]; [done|].
    simpl. rewrite IH. unfold registry_get. by rewrite Hx. }
  simpl. by rewrite Hfold.
Qed.

Lemma explicit_release_goes_through_witness :
  let b5 := IssueRef 3 (described (bug_5 sample_config) []) in
  let b6 := IssueRef 4 (described (bug_6 sample_config) []) in
  let r := release_of_role "1.0.1" "2020-02-01" sample_config in
  let st := State [] (<["1.0" := [b5; b6]]> (<[unreleased_bugfix := [b5; b6]]> (lines initial)))
                  (<[Some "6" := b6]> (<[Some "5" := b5]> ∅)) in
  exists lines',
    step 5 (item (ReleaseEl r) [Text " 6"]) st
      = Ok (State [ReleaseDict r [b6]] lines' (issues st)) /\
    dom lines' = dom (lines st).
Proof.
  intros b5 b6 r st.
  apply (explicit_release_goes_through 5 r [Text " 6"] st ["6"] [b6]).
  - reflexivity.
  - repeat constructor.
  - apply NoDup_singleton.
  - by eexists.
  - apply Forall_singleton. split; [by eexists | by intros []].
Defined.

(** ** Releases and release lines *)

Lemma step_markers i it st st' :
  step i it st = Ok st' ->
  obj <$> releases st' = (obj <$> releases st) ++ markers [it] /\
  dom (lines st') ⊆ dom (lines st) ∪ list_to_set (get_line <$> markers [it]).
Proof.
  unfold step, markers. intros H. simpl.
  destruct (focus_rest it) as [[focus rest]|e]; [|done]. simpl in H.
  assert (issue_branch i focus rest st = Ok st' ->
          obj <$> releases st' = (obj <$> releases st) ++ [] /\
          dom (lines st') ⊆ dom (lines st) ∪ list_to_set []) as Hissue.
  { intros (Hr & _ & Hf%fan_out_dom)%issue_branch_Ok.
    rewrite Hr, Hf, app_nil_r. split; [done | set_solver]. }
  destruct focus as [s|tag attrs children|x|r]; auto.
  destruct (release_branch_releases _ _ _ _ H) as [es ->].
  rewrite fmap_app. split; [done|]. simpl.
  unfold release_branch in H. inv_bind_as H ex Hex.
  assert (implicit_release r st = Ok st' ->
          dom (lines st') ⊆ dom (lines st) ∪ ({[get_line r]} ∪ ∅)) as Himplicit.
  { unfold implicit_release.
    destruct (lines st !! get_line r) as [bucket|] eqn:Hline; intros Hi.
    - inv_bind_as Hi l Hl. injection Hi as <-. simpl.
      assert (dom l = dom (<[get_line r := []]> (lines st))) as ->.
      { eapply (foldM_invariant (fun l => dom l = dom _)); [|done|exact Hl].
        intros l1 o l2 Hl1 Ho. apply remove_if_present_dom in Ho. congruence. }
      rewrite dom_insert_L. set_solver.
    - inv_bind_as Hi l Hl. injection Hi as <-. simpl.
      rewrite !dom_insert_L.
      apply getitem_Ok in Hl. apply elem_of_dom_2 in Hl.
      rewrite dom_insert_L in Hl. set_solver. }
  destruct ex as [[|n explicit]|]; auto.
  apply explicit_release_dom in H. rewrite H. set_solver.
Qed.

Lemma markers_cons it items : markers (it :: items) = markers [it] ++ markers items.
Proof. unfold markers. simpl. by destruct (match focus_rest it with Ok (ReleaseEl r, _) => Some r | _ => None end). Qed.

Lemma loop_markers items i st st' :
  loop items i st = Ok st' ->
  obj <$> releases st' = (obj <$> releases st) ++ markers items /\
  dom (lines st') ⊆ dom (lines st) ∪ list_to_set (get_line <$> markers items).
Proof.
  revert i st. induction items as [|it items IH]; intros i st H; simpl in H.
  - injection H as <-. rewrite app_nil_r. split; [done | set_solver].
  - inv_bind_as H st1 Hst1. apply step_markers in Hst1 as [Hr1 Hd1].
    apply IH in H as [Hr Hd]. rewrite markers_cons, fmap_app, list_to_set_app_L.
    split; [by rewrite Hr, Hr1, app_assoc | set_solver].
Qed.

(** X11.  [construct_releases] returns one release for every release marker
    of the changelog, oldest first, whether the marker lists issues or not,
    and then the two unreleased ones: an issue item never adds a release. *)
Theorem one_release_per_marker entries app rs :
  construct_releases entries app = Ok rs ->
  obj <$> rs =
    markers (reverse entries)
    ++ [Release unreleased_bugfix None
          [release_nodes "Next bugfix release" "master" None app];
        Release unreleased_feature None
          [release_nodes "Next feature release" "master" None app]].
Proof.
  unfold construct_releases. intros H. inv_bind_as H st Hloop.
  pose proof (loop_markers _ _ _ _ Hloop) as [Hm _]. simpl in Hm, H.
  inv_bind_as H rs1 Hrs1. inv_bind_as H rs2 Hrs2. injection H as <-.
  unfold faux_release in Hrs1, Hrs2.
  inv_bind_as Hrs1 l1 Hl1. injection Hrs1 as <-.
  inv_bind_as Hrs2 l2 Hl2. injection Hrs2 as <-.
  rewrite !fmap_app, Hm, <- app_assoc. done.
Qed.

Lemma one_release_per_marker_witness :
  exists rs,
    construct_releases (reverse (scenario_3 "1.0.0" "1.0.1" sample_config [] []))
                       sample_config = Ok rs /\
    release_number <$> (obj <$> rs)
      = ["1.0.0"; "1.0.1"; "unreleased_bugfix"; "unreleased_feature"].
Proof.
  destruct (construct_releases _ sample_config) as [rs|e] eqn:H; [|by vm_compute in H].
  exists rs. split; [done|].
  by rewrite (one_release_per_marker _ _ _ H).
Defined.

(** X12.  Buckets are created by releases only: whatever has been processed,
    a bucket is one of the two unreleased ones or is named by the line of a
    release marker among the items. *)
Theorem buckets_are_named_by_release_lines items st k :
  loop items 0 initial = Ok st ->
  is_Some (lines st !! k) ->
  k = unreleased_bugfix \/ k = unreleased_feature \/
  exists r, r ∈ markers items /\ k = get_line r.
Proof.
  intros [_ Hd]%loop_markers Hk%elem_of_dom. apply Hd in Hk.
  apply elem_of_union in Hk as [Hk|Hk].
  - simpl in Hk. rewrite !dom_insert_L, dom_empty_L in Hk. set_solver.
  - right. right. apply elem_of_list_to_set, list_elem_of_fmap in Hk as (r & -> & Hr).
    eauto.
Qed.

Lemma buckets_are_named_by_release_lines_witness :
  exists st,
    loop (scenario_2 sample_config []) 0 initial = Ok st /\
    ("1" = unreleased_bugfix \/ "1" = unreleased_feature \/
     exists r, r ∈ markers (scenario_2 sample_config []) /\ "1" = get_line r).
Proof.
  destruct (loop (scenario_2 sample_config []) 0 initial) as [st|e] eqn:H;
    [|by vm_compute in H].
  exists st. split; [done|].
  apply (buckets_are_named_by_release_lines _ st "1" H).
  vm_compute in H. injection H as <-. by eexists.
Defined.

(** ** The line of a release *)

Lemma split_no_sep sep s :
  sep ∉ list_ascii_of_string s -> split sep s = [s].
Proof.
  induction s as [|c s IH]; simpl; [done|].
  intros [Hc Hs]%not_elem_of_cons.
  destruct (Ascii.eqb_spec c sep) as [->|_]; [done|]. by rewrite IH.
Qed.

Lemma split_app sep a b :
  split sep (a +:+ String sep b) = split sep a ++ split sep b.
Proof.
  induction a as [|c a IH]; simpl.
  - by rewrite Ascii.eqb_refl.
  - destruct (Ascii.eqb c sep); [by rewrite IH|].
    rewrite IH. destruct (split sep a) eqn:Ha; [|done].
    by apply split_nonempty in Ha.
Qed.

(** Joining the fields of a split gives the string back. *)
Lemma join_split sep s : join (String sep EmptyString) (split sep s) = s.
Proof.
  induction s as [|c s IH]; simpl; [done|].
  destruct (Ascii.eqb_spec c sep) as [->|_].
  - unfold join in *. simpl.
    destruct (split sep s) eqn:Hs; [by apply split_nonempty in Hs|].
    by rewrite IH.
  - unfold join in *.
    destruct (split sep s) as [|w ws] eqn:Hs; [by apply split_nonempty in Hs|].
    simpl in *. destruct ws; simpl in *; by rewrite <- IH.
Qed.

Lemma removelast_snoc {A} (l : list A) x : removelast (l ++ [x]) = l.
Proof.
  induction l as [|y l IH]; [done|]. simpl.
  destruct (l ++ [x]) eqn:Hl; [by destruct l | by rewrite IH].
Qed.

(** X13.  [get_line] drops the last dotted component of the release number
    and returns what stands before its last dot, whatever that is; a number
    without a dot has the empty string as its line. *)
Theorem get_line_drops_last_component prefix last d nl :
  "."%char ∉ list_ascii_of_string last ->
  get_line (Release (prefix +:+ "." +:+ last) d nl) = prefix /\
  get_line (Release last d nl) = EmptyString.
Proof.
  intros Hlast. unfold get_line. simpl. split.
  - change ("." +:+ last) with (String "." last).
    rewrite split_app, (split_no_sep _ last Hlast), removelast_snoc.
    apply (join_split "." prefix).
  - by rewrite (split_no_sep _ last Hlast).
Qed.

Lemma get_line_drops_last_component_witness :
  get_line (Release "1.2.7" None []) = "1.2" /\ get_line (Release "7" None []) = "".
Proof.
  apply (get_line_drops_last_component "1.2" "7" None []).
  intros H. repeat (apply elem_of_cons in H as [[=]|H]). by apply elem_of_nil in H.
Defined.

(** ** Edge cases of the release branch *)

(** X14.  Any text after the release role makes the release an explicit one,
    even text that lists nothing: when the text is blank, the list is the
    single empty number, and unless an issue with the empty number is
    registered the release raises the error for unknown issues. *)
Theorem blank_issue_list_raises i r s others st :
  ","%char ∉ list_ascii_of_string s -> strip s = EmptyString ->
  issues st !! Some EmptyString = None ->
  explicit_list (Text s :: others) = Ok (Some [EmptyString]) /\
  step i (item (ReleaseEl r) (Text s :: others)) st
    = Raise (ValueError "Couldn't find issue(s) # in the changelog!").
Proof.
  intros Hs Hblank Hreg.
  assert (explicit_list (Text s :: others) = Ok (Some [EmptyString])) as Hex.
  { simpl. by rewrite (split_no_sep _ s Hs); simpl; rewrite Hblank. }
  split; [done|].
  rewrite step_release. unfold release_branch. rewrite Hex. simpl.
  unfold explicit_release, missing_of.
  rewrite filter_cons_True by done. done.
Qed.

Lemma blank_issue_list_raises_witness :
  step 0 (item (ReleaseEl (release_of_role "1.0.0" "2020-01-01" sample_config)) [Text " "])
       initial
  = Raise (ValueError "Couldn't find issue(s) # in the changelog!").
Proof.
  apply (blank_issue_list_raises 0 _ " " [] initial); [|done|done].
  intros H. repeat (apply elem_of_cons in H as [[=]|H]). by apply elem_of_nil in H.
Defined.

Lemma filterM_raises {A} (p : A -> result bool) l a :
  a ∈ l -> raises (p a) -> raises (filterM p l).
Proof.
  intros Ha [e He]. induction l as [|b l IH]; [by apply elem_of_nil in Ha|].
  simpl. apply elem_of_cons in Ha as [<-|Ha].
  - rewrite He. by eexists.
  - destruct (p b) as [pb|e']; simpl; [|by eexists].
    destruct (IH Ha) as [e' ->]. by eexists.
Qed.

(** X15.  A release whose number has no dot opens the bucket named by the
    empty string, and from then on every regular bug with a minimum line
    stops the run: the comparison with the empty line raises. *)
Theorem min_line_bug_raises_after_dotless_release i iss rest st m :
  is_Some (lines st !! EmptyString) ->
  type_ iss = bug -> major iss = false -> line iss = Some m -> m ≠ EmptyString ->
  (truthy (number iss) = true -> issues st !! number iss = None) ->
  version_ge EmptyString m = Raise AttributeError /\
  raises (step i (item (IssueEl iss) rest) st).
Proof.
  intros Hk Ht Hmaj Hline Hm Hdup. split; [done|].
  rewrite step_issue. unfold issue_branch. simpl.
  assert (truthy (number iss) && bool_decide (is_Some (issues st !! number iss)) = false)
    as ->.
  { destruct (truthy (number iss)); [|done]. by rewrite Hdup. }
  rewrite fan_out_regular_bug by done. unfold bug_lines. simpl. rewrite Hline.
  destruct m as [|c m]; [done|].
  destruct (filterM_raises
              (fun x => if bool_decide (x ≠ unreleased_bugfix)
                        then version_ge x (String c m) else Ok false)
              (filter (fun x => x ≠ unreleased_feature) (keys (lines st)))
              EmptyString) as [e ->].
  - apply list_elem_of_filter. split; [done|]. by apply elem_of_keys.
  - by eexists.
  - by eexists.
Qed.

Lemma min_line_bug_raises_after_dotless_release_witness :
  raises (loop [item (ReleaseEl (release_of_role "1" "2020-01-01" sample_config)) [];
                item (IssueEl (bug_3 sample_config)) []] 0 initial).
Proof.
  destruct (loop [item (ReleaseEl (release_of_role "1" "2020-01-01" sample_config)) []]
                 0 initial) as [st|e] eqn:H; [|by vm_compute in H].
  change (raises (st1 ← loop [item (ReleaseEl (release_of_role "1" "2020-01-01"
                                                 sample_config)) []] 0 initial;
                  st2 ← step 1 (item (IssueEl (bug_3 sample_config)) []) st1; Ok st2)).
  rewrite H. simpl.
  destruct (min_line_bug_raises_after_dotless_release 1 (bug_3 sample_config) [] st "1.0")
    as [_ [e ->]]; try done.
  - vm_compute in H. injection H as <-. by eexists.
  - intros _. vm_compute in H. injection H as <-. reflexivity.
  - by eexists.
Defined.

(** ** The assembler *)

Lemma forM_app {A B} (f : A -> result B) l1 l2 :
  forM f (l1 ++ l2) = ys1 ← forM f l1; ys2 ← forM f l2; Ok (ys1 ++ ys2).
Proof.
  induction l1 as [|x l1 IH]; simpl.
  - by destruct (forM f l2).
  - destruct (f x) as [y|e]; simpl; [|done]. rewrite IH.
    destruct (forM f l1) as [ys1|e]; simpl; [|done].
    by destruct (forM f l2).
Qed.

Lemma construct_nodes_Ok rs nodes rs' :
  construct_nodes rs = Ok (nodes, rs') <->
  exists out, forM assemble_release (reverse rs) = Ok out /\
    nodes = concat (out.*1) /\ rs' = reverse (out.*2).
Proof.
  unfold construct_nodes. split.
  - intros H. inv_bind_as H out Hout. injection H as <- <-. eauto.
  - intros (out & -> & -> & ->). done.
Qed.

(** X16.  [construct_nodes] works release by release and puts the newest
    first: the nodes of a list of releases are the nodes of its later part
    followed by the nodes of its earlier part, and each part is left as a
    call on that part alone leaves it.  A release without entries adds no
    node and is not touched. *)
Theorem construct_nodes_newest_first rs1 rs2 nodes1 rs1' nodes2 rs2' :
  construct_nodes rs1 = Ok (nodes1, rs1') ->
  construct_nodes rs2 = Ok (nodes2, rs2') ->
  construct_nodes (rs1 ++ rs2) = Ok (nodes2 ++ nodes1, rs1' ++ rs2') /\
  (forall d, entries d = [] -> construct_nodes ([d] ++ rs2) = Ok (nodes2, [d] ++ rs2')).
Proof.
  intros (out1 & H1 & -> & ->)%construct_nodes_Ok (out2 & H2 & -> & ->)%construct_nodes_Ok.
  assert (forall rs out, forM assemble_release (reverse rs) = Ok out ->
            construct_nodes (rs ++ rs2)
            = Ok (concat (out2.*1) ++ concat (out.*1), reverse (out.*2) ++ reverse (out2.*2)))
    as Happ.
  { intros rs out Hout. apply construct_nodes_Ok. exists (out2 ++ out).
    rewrite reverse_app, forM_app, H2, Hout. simpl.
    by rewrite !fmap_app, concat_app, reverse_app. }
  split; [by apply Happ|].
  intros d Hd. rewrite (Happ [d] [([], d)]).
  - simpl. by rewrite app_nil_r.
  - unfold reverse. simpl. unfold assemble_release. by rewrite Hd.
Qed.

Lemma construct_nodes_newest_first_witness :
  exists nodes rs',
    construct_nodes [ReleaseDict (release_of_role "0.9.0" "2019-01-01" sample_config) [];
                     one_entry_release sample_config []] = Ok (nodes, rs') /\
    length nodes = 1.
Proof.
  destruct (construct_nodes [one_entry_release sample_config []])
    as [[nodes2 rs2']|e] eqn:H2; [|by vm_compute in H2].
  destruct (construct_nodes_newest_first [] [one_entry_release sample_config []]
              [] [] nodes2 rs2' eq_refl H2) as [_ Hskip].
  eexists _, _. split.
  - apply (Hskip (ReleaseDict (release_of_role "0.9.0" "2019-01-01" sample_config) [])).
    reflexivity.
  - vm_compute in H2. by injection H2 as <- <-.
Defined.

Lemma forM_total {A B} (f : A -> result B) l :
  Forall (fun x => exists y, f x = Ok y) l -> exists ys, forM f l = Ok ys.
Proof.
  induction 1 as [|x l [y Hy] _ [ys IH]]; simpl; [eauto|].
  rewrite Hy. simpl. rewrite IH. simpl. eauto.
Qed.

Lemma assemble_release_total d :
  Forall (fun x => is_Some (description (target x))) (entries d) ->
  (exists tag attrs children others,
     release_nodelist (obj d) = Elem tag attrs children :: others) ->
  exists out, assemble_release d = Ok out.
Proof.
  intros Hdesc (tag & attrs & children & others & Hn). unfold assemble_release.
  destruct (entries d) as [|x xs] eqn:He; [eauto|].
  destruct (forM_total entry_item (x :: xs)) as [items ->].
  - eapply Forall_impl; [exact Hdesc|]. intros y [desc Hy].
    unfold entry_item. rewrite Hy. eauto.
  - simpl. rewrite Hn. simpl. eauto.
Qed.

Lemma construct_releases_Ok entries app rs :
  construct_releases entries app = Ok rs ->
  exists st bugfixes features,
    loop (reverse entries) 0 initial = Ok st /\
    lines st !! unreleased_bugfix = Some bugfixes /\
    lines st !! unreleased_feature = Some features /\
    rs = releases st ++ [next_release "bugfix" app bugfixes;
                         next_release "feature" app features].
Proof.
  unfold construct_releases. intros H. inv_bind_as H st Hloop. simpl in H.
  inv_bind_as H rs1 Hrs1. inv_bind_as H rs2 Hrs2. injection H as <-.
  unfold faux_release in Hrs1, Hrs2.
  inv_bind_as Hrs1 l1 Hl1. injection Hrs1 as <-.
  inv_bind_as Hrs2 l2 Hl2. injection Hrs2 as <-.
  apply getitem_Ok in Hl1, Hl2.
  exists st, l1, l2. by rewrite <- app_assoc.
Qed.

Lemma construct_nodes_total rs :
  Forall (fun d =>
            Forall (fun x => is_Some (description (target x))) (entries d) /\
            exists tag attrs children others,
              release_nodelist (obj d) = Elem tag attrs children :: others) rs ->
  exists nodes rs', construct_nodes rs = Ok (nodes, rs').
Proof.
  intros Hall.
  destruct (forM_total assemble_release (reverse rs)) as [out Hout].
  - apply Forall_reverse. eapply Forall_impl; [exact Hall|].
    intros d [Hdesc Hhead]. by apply assemble_release_total.
  - eexists _, _. apply construct_nodes_Ok. eauto.
Qed.

(** Every entry of a release [construct_releases] returns has its
    description, and the marker of the release is a marker of the changelog
    or carries the section [construct_releases] built for it. *)
Lemma construct_releases_described items app rs :
  construct_releases items app = Ok rs ->
  Forall (fun d =>
            Forall (fun x => is_Some (description (target x))) (entries d) /\
            (obj d ∈ markers (reverse items) \/
             exists tag attrs children others,
               release_nodelist (obj d) = Elem tag attrs children :: others)) rs.
Proof.
  intros (st & b & f & Hloop & Hb & Hf & ->)%construct_releases_Ok.
  pose proof (loop_markers _ _ _ _ Hloop) as [Hobj _]. simpl in Hobj.
  pose proof (loop_ok _ _ _ _ Hloop initial_ok) as (_ & Hbuckets & _ & Hrel).
  apply Forall_app. split.
  - apply Forall_forall. intros d Hd. split.
    + eapply Forall_forall in Hrel; [|done].
      eapply Forall_impl; [exact Hrel|]. by intros x [_ ?].
    + left. rewrite <- Hobj. by apply list_elem_of_fmap_2.
  - assert (forall l k, lines st !! k = Some l ->
              Forall (fun x => is_Some (description (target x))) l) as Hdesc.
    { intros l k Hl. destruct (Hbuckets k l Hl) as [_ Hall].
      eapply Forall_impl; [exact Hall|]. by intros x [_ ?]. }
    repeat constructor; simpl; eauto; right; unfold release_nodes; eauto.
Qed.

(** X17.  The two passes fit together: when the nodelist of every release
    marker starts with an element, as the one [release_role] builds does,
    [construct_nodes] cannot raise on what [construct_releases] returns.
    Every entry has its description, and the unreleased releases have their
    section. *)
Theorem assembly_of_the_partition_cannot_raise entries app rs :
  construct_releases entries app = Ok rs ->
  (forall r, r ∈ markers (reverse entries) ->
     exists tag attrs children others,
       release_nodelist r = Elem tag attrs children :: others) ->
  exists nodes rs', construct_nodes rs = Ok (nodes, rs').
Proof.
  intros Hrs Hmarkers. apply construct_nodes_total.
  eapply Forall_impl; [exact (construct_releases_described _ _ _ Hrs)|].
  intros d [Hdesc [Hmarker|Hsection]]; split; auto.
Qed.

Lemma assembly_of_the_partition_cannot_raise_witness :
  exists rs nodes rs',
    construct_releases (reverse (scenario_3 "1.0.0" "1.0.1" sample_config [] []))
                       sample_config = Ok rs /\
    construct_nodes rs = Ok (nodes, rs').
Proof.
  destruct (construct_releases _ sample_config) as [rs|e] eqn:H; [|by vm_compute in H].
  destruct (assembly_of_the_partition_cannot_raise _ _ _ H) as (nodes & rs' & Hn).
  - rewrite reverse_involutive. intros r Hr. vm_compute in Hr.
    apply elem_of_cons in Hr as [->|Hr]; [eexists _, _, _, _; reflexivity|].
    apply elem_of_cons in Hr as [->|Hr]; [eexists _, _, _, _; reflexivity|].
    exfalso. exact (proj1 (elem_of_nil _) Hr).
  - exists rs, nodes, rs'. split; [reflexivity | exact Hn].
Defined.

(** X18.  A description with no inline issue reference is copied as it is,
    and one with a single inline issue reference gets the nodelist of that
    issue in the place of the reference: the list item of the entry is the
    entry's own nodelist followed by that description. *)
Theorem single_mention_is_substituted entry before x after :
  Forall (fun n => is_issue n = false) before ->
  Forall (fun n => is_issue n = false) after ->
  (description (target entry) = Some (before ++ after) ->
   entry_item entry
   = Ok (Elem "list_item" []
           [Elem "paragraph" [] (nodelist (target entry) ++ before ++ after)])) /\
  (description (target entry) = Some (before ++ IssueEl x :: after) ->
   entry_item entry
   = Ok (Elem "list_item" []
           [Elem "paragraph" []
              (nodelist (target entry) ++ before ++ nodelist x ++ after)])).
Proof.
  intros Hb Ha. unfold entry_item. split; intros ->; rewrite map_deepcopy_id.
  - rewrite expand_no_issue; [done|]. by apply Forall_app.
  - pose proof (expand_prefix [] before x after Hb Ha) as H. simpl in H. by rewrite H.
Qed.

Lemma single_mention_is_substituted_witness :
  entry_item (IssueRef 0 (described (bug_1 sample_config)
                            [Text " Like "; IssueEl (bug_5 sample_config); Text "."]))
  = Ok (Elem "list_item" []
          [Elem "paragraph" []
             (nodelist (bug_1 sample_config)
              ++ [Text " Like "] ++ nodelist (bug_5 sample_config) ++ [Text "."])]).
Proof.
  apply (proj2 (single_mention_is_substituted
                  (IssueRef 0 (described (bug_1 sample_config)
                                 [Text " Like "; IssueEl (bug_5 sample_config); Text "."]))
                  [Text " Like "] (bug_5 sample_config) [Text "."]
                  ltac:(by repeat constructor) ltac:(by repeat constructor))).
  reflexivity.
Defined.

(** ** The roles *)

Lemma partition_space_app no t :
  " "%char ∉ list_ascii_of_string no ->
  partition_space (no +:+ String " " t) = (no, t).
Proof.
  induction no as [|c no IH]; simpl; [done|].
  intros [Hc Hno]%not_elem_of_cons.
  destruct (Ascii.eqb_spec c " ") as [->|_]; [done|]. by rewrite IH.
Qed.

Lemma partition_space_no_space text :
  " "%char ∉ list_ascii_of_string text -> partition_space text = (text, EmptyString).
Proof.
  induction text as [|c text IH]; simpl; [done|].
  intros [Hc Ht]%not_elem_of_cons.
  destruct (Ascii.eqb_spec c " ") as [->|_]; [done|]. by rewrite IH.
Qed.

Lemma append_cons c s t : String c s +:+ t = String c (s +:+ t).
Proof. reflexivity. Qed.

Lemma append_nil t : EmptyString +:+ t = t.
Proof. reflexivity. Qed.

Lemma span_digits_app a c s :
  digits a -> classify c ≠ Digit -> span_digits (a +:+ String c s) = (a, String c s).
Proof.
  unfold digits. intros Ha Hc. induction a as [|d a IH]; simpl in *.
  - by destruct (classify c).
  - apply Forall_cons in Ha as [-> Ha]. by rewrite IH.
Qed.

Lemma release_line_re_matches a b tail :
  digits a -> a ≠ EmptyString -> digits b -> b ≠ EmptyString ->
  release_line_re ("(" +:+ a +:+ "." +:+ b +:+ "+)" +:+ tail) = Some (a +:+ "." +:+ b).
Proof.
  intros Ha Hane Hb Hbne. unfold release_line_re.
  rewrite !append_cons, !append_nil.
  rewrite (span_digits_app a "." _ Ha) by done.
  destruct a as [|a0 a]; [done|].
  rewrite (span_digits_app b "+" _ Hb) by done.
  by destruct b as [|b0 b].
Qed.

(** X19.  [issues_role] sets at most one flag: an issue element it builds
    has the type of the role, carries no description yet, is never both
    backported and major, and has a minimum line only when it is neither;
    its number is missing exactly when the ticket, the unescaped text up to
    its first space, is [-] or [0]. *)
Theorem issues_role_sets_one_flag name text cfg n :
  issues_role name text cfg = Ok n ->
  exists iss,
    n = IssueEl iss /\ type_ iss = name /\ description iss = None /\
    (backported iss = true -> major iss = false /\ line iss = None) /\
    (major iss = true -> backported iss = false /\ line iss = None) /\
    (number iss = None <->
     (partition_space (unescape text)).1 = "-" \/
     (partition_space (unescape text)).1 = "0") /\
    (forall rest, role_flags (item n rest)).
Proof.
  unfold issues_role. destruct (partition_space (unescape text)) as [no ported]. simpl.
  intros H. inv_bind_as H min_line Hmin. injection H as <-.
  eexists. split; [done|]. simpl.
  assert (String.eqb ported "backported" = true -> String.eqb ported "major" = false)
    as Hexcl.
  { intros ->%String.eqb_eq. done. }
  assert (String.eqb ported "backported" || String.eqb ported "major" = true ->
          min_line = None) as Hline.
  { intros Hflag. rewrite Hflag in Hmin. simpl in Hmin. by injection Hmin. }
  split; [done|]. split; [done|]. split; [|split; [|split]].
  - intros Hb. split; [auto|]. apply Hline. by rewrite Hb.
  - intros Hm. split.
    + destruct (String.eqb ported "backported") eqn:Hb; [|done].
      by rewrite Hexcl in Hm.
    + apply Hline. by rewrite Hm, orb_true_r.
  - destruct (String.eqb_spec no "-") as [->|Hdash]; simpl; [by split; auto|].
    destruct (String.eqb_spec no "0") as [->|Hzero]; simpl; [by split; auto|].
    split; [done | by intros [|]].
  - intros rest i rest' [= <- <-]. simpl. auto.
Qed.

Lemma issues_role_sets_one_flag_witness :
  exists iss,
    issues_role feature (String "000" "7 backported") sample_config = Ok (IssueEl iss) /\
    backported iss = true /\ major iss = false /\ line iss = None /\
    number iss = Some "7".
Proof.
  destruct (issues_role feature (String "000" "7 backported") sample_config)
    as [n|e] eqn:H; [|by vm_compute in H].
  destruct (issues_role_sets_one_flag _ _ _ _ H)
    as (iss & -> & _ & _ & Hb & _ & _ & _).
  exists iss. split; [done|].
  assert (backported iss = true /\ number iss = Some "7") as [Hflag Hnum].
  { vm_compute in H. injection H as <-. by split. }
  destruct (Hb Hflag) as [Hm Hl]. by repeat split.
Defined.

Lemma remove_char_plain a s :
  a ∉ list_ascii_of_string s -> remove_char a s = s.
Proof.
  induction s as [|c s IH]; simpl; [done|].
  intros [Hc Hs]%not_elem_of_cons.
  destruct (Ascii.eqb_spec c a) as [->|_]; [done|]. by rewrite IH.
Qed.

Lemma remove_pair_other a b c s :
  c ≠ a -> remove_pair a b (String c s) = String c (remove_pair a b s).
Proof.
  intros Hc. destruct s as [|c' s']; [done|].
  change (remove_pair a b (String c (String c' s')))
    with (if Ascii.eqb c a && Ascii.eqb c' b then remove_pair a b s'
          else String c (remove_pair a b (String c' s'))).
  by destruct (Ascii.eqb_spec c a).
Qed.

Lemma remove_pair_plain a b s :
  a ∉ list_ascii_of_string s -> remove_pair a b s = s.
Proof.
  induction s as [|c s IH]; [done|].
  intros [Hc Hs]%not_elem_of_cons.
  rewrite remove_pair_other by done. by rewrite IH.
Qed.

(** A text without a null character, that is without a backslash in the
    role, is its own unescaped text. *)
Lemma unescape_plain s :
  "000"%char ∉ list_ascii_of_string s -> unescape s = s.
Proof.
  intros H. unfold unescape.
  rewrite (remove_pair_plain _ " " s H), (remove_pair_plain _ _ s H).
  by apply remove_char_plain.
Qed.

Lemma list_ascii_of_string_app s t :
  list_ascii_of_string (s +:+ t) = list_ascii_of_string s ++ list_ascii_of_string t.
Proof. induction s as [|c s IH]; [done|]. rewrite append_cons. simpl. by rewrite IH. Qed.

Lemma digits_plain a : digits a -> "000"%char ∉ list_ascii_of_string a.
Proof.
  unfold digits. intros Ha Hin. eapply Forall_forall in Ha; [|exact Hin]. discriminate Ha.
Qed.

(** X20.  The annotation of a minimum line comes back as written: for a
    ticket without an escape followed by a space and [(A.B+)], with A and B
    runs of digits, [issues_role] builds an issue whose minimum line is A.B
    and which is neither backported nor major. *)
Theorem issues_role_reads_min_line name no a b cfg :
  " "%char ∉ list_ascii_of_string no ->
  "000"%char ∉ list_ascii_of_string no ->
  digits a -> a ≠ EmptyString -> digits b -> b ≠ EmptyString ->
  exists iss,
    issues_role name (no +:+ " (" +:+ a +:+ "." +:+ b +:+ "+)") cfg = Ok (IssueEl iss) /\
    type_ iss = name /\ line iss = Some (a +:+ "." +:+ b) /\
    backported iss = false /\ major iss = false.
Proof.
  intros Hno Hplain Ha Hane Hb Hbne. unfold issues_role.
  rewrite unescape_plain.
  2:{ rewrite !list_ascii_of_string_app. rewrite !not_elem_of_app.
      pose proof (digits_plain a Ha). pose proof (digits_plain b Hb).
      repeat split; try done;
        intros H'; repeat (apply elem_of_cons in H' as [[=]|H']); by apply elem_of_nil in H'. }
  pose proof (release_line_re_matches a b EmptyString Ha Hane Hb Hbne) as Hre.
  rewrite !append_cons, !append_nil in Hre.
  rewrite !append_cons, !append_nil, (partition_space_app no _ Hno).
  assert (forall t, String.eqb (String "(" t) "backported"
                    || String.eqb (String "(" t) "major"
                    || String.eqb (String "(" t) EmptyString = false) as -> by done.
  rewrite Hre. simpl. eexists. split; [done|]. done.
Qed.

Lemma issues_role_reads_min_line_witness :
  exists iss,
    issues_role bug "3 (1.0+)" sample_config = Ok (IssueEl iss) /\
    type_ iss = bug /\ line iss = Some "1.0" /\
    backported iss = false /\ major iss = false.
Proof.
  apply (issues_role_reads_min_line bug "3" "1" "0" sample_config).
  - intros H. repeat (apply elem_of_cons in H as [[=]|H]). by apply elem_of_nil in H.
  - intros H. repeat (apply elem_of_cons in H as [[=]|H]). by apply elem_of_nil in H.
  - by repeat constructor.
  - done.
  - by repeat constructor.
  - done.
Defined.

Lemma until_final_gt_app date : until_final_gt (date +:+ ">") = Some date.
Proof.
  induction date as [|c date IH]; [done|].
  rewrite append_cons. simpl. rewrite IH.
  assert (String.eqb (date +:+ ">") EmptyString
          || String.eqb (date +:+ ">") (String (ascii_of_nat 10) EmptyString) = false) as ->.
  { destruct date as [|d date]; [done|]. rewrite append_cons. simpl.
    destruct date; rewrite ?append_cons; simpl; by destruct (Ascii.eqb d _). }
  by rewrite andb_false_r.
Qed.

Lemma rstrip_fixed_cons c s :
  rstrip (String c s) = String c s ->
  (s = EmptyString /\ isspace c = false) \/ (s ≠ EmptyString /\ rstrip s = s).
Proof.
  simpl. destruct (rstrip s) as [|d r] eqn:Hs.
  - destruct (isspace c); [done|]. intros [= <-]. by left.
  - intros [= <-]. by right.
Qed.

(** White space cannot lead to the bracket from inside a number that has no
    bracket and no white space at its end. *)
Lemma after_number_inside prev w tail :
  w ≠ EmptyString -> rstrip w = w -> "<"%char ∉ list_ascii_of_string w ->
  after_number prev (w +:+ tail) = None.
Proof.
  revert prev. induction w as [|c w IH]; intros prev Hne Hfixed Hlt; [done|].
  simpl in Hlt. apply not_elem_of_cons in Hlt as [Hc Hlt].
  rewrite append_cons. simpl.
  destruct (Ascii.eqb_spec c "<") as [->|_]; [done|].
  destruct (isspace c) eqn:Hsp; [|done].
  apply rstrip_fixed_cons in Hfixed as [[_ Hsp']|[Hw Hfixed]]; [congruence|].
  by apply IH.
Qed.

Lemma year_arg_scan_number prev w date :
  rstrip w = w -> "<"%char ∉ list_ascii_of_string w ->
  year_arg_scan prev (w +:+ " <" +:+ date +:+ ">") = Some (w, date).
Proof.
  revert prev. induction w as [|c w IH]; intros prev Hfixed Hlt.
  - rewrite append_nil, !append_cons, append_nil.
    unfold year_arg_scan, after_number.
    change (isspace " ") with true. change (Ascii.eqb " " "<") with false.
    change (Ascii.eqb "<" "<") with true. change (Ascii.eqb " " zero) with false.
    cbv iota. by rewrite until_final_gt_app.
  - assert (after_number prev (String c w +:+ " <" +:+ date +:+ ">") = None) as Hnone.
    { by apply after_number_inside. }
    rewrite append_cons in *. simpl in Hlt. apply not_elem_of_cons in Hlt as [_ Hlt].
    simpl. simpl in Hnone. rewrite Hnone.
    rewrite IH; [done| |done].
    apply rstrip_fixed_cons in Hfixed as [[-> _]|[_ Hfixed]]; done.
Qed.

(** X21.  [release_role] reads the number and the date back from a text
    written as the number, a space and the date in angle brackets: for a
    number that is not empty, holds no opening bracket and has no white
    space at its end, and for any date, it builds the release element of
    that number and date. *)
Theorem release_role_reads_number_and_date number date cfg :
  number ≠ EmptyString -> rstrip number = number ->
  "<"%char ∉ list_ascii_of_string number ->
  release_role (number +:+ " <" +:+ date +:+ ">") cfg
  = Built (release_element number date cfg).
Proof.
  intros Hne Hfixed Hlt. unfold release_role, year_arg_re.
  destruct number as [|c number]; [done|].
  rewrite append_cons.
  simpl in Hlt. apply not_elem_of_cons in Hlt as [_ Hlt].
  rewrite year_arg_scan_number; [done| |done].
  apply rstrip_fixed_cons in Hfixed as [[-> _]|[_ Hfixed]]; done.
Qed.

Lemma release_role_reads_number_and_date_witness :
  release_role "1.0.2 <2020-01-01>" sample_config
  = Built (release_element "1.0.2" "2020-01-01" sample_config).
Proof.
  apply (release_role_reads_number_and_date "1.0.2" "2020-01-01" sample_config).
  - done.
  - reflexivity.
  - intros H. repeat (apply elem_of_cons in H as [[=]|H]). by apply elem_of_nil in H.
Defined.

Lemma after_number_no_bracket prev s :
  "<"%char ∉ list_ascii_of_string s -> after_number prev s = None.
Proof.
  revert prev. induction s as [|c s IH]; intros prev Hlt; [done|].
  simpl in *. apply not_elem_of_cons in Hlt as [Hc Hlt].
  destruct (Ascii.eqb_spec c "<") as [->|_]; [done|].
  destruct (isspace c); auto.
Qed.

Lemma year_arg_scan_no_bracket prev s :
  "<"%char ∉ list_ascii_of_string s -> year_arg_scan prev s = None.
Proof.
  revert prev. induction s as [|c s IH]; intros prev Hlt; [done|].
  pose proof (after_number_no_bracket prev _ Hlt) as Hnone.
  simpl in *. apply not_elem_of_cons in Hlt as [_ Hlt].
  rewrite Hnone. by rewrite IH.
Qed.

(** X22.  A release text without a date in angle brackets builds no release:
    when the text holds no opening bracket, [release_role] reports that the
    release date must be specified. *)
Theorem release_role_requires_a_date text cfg :
  "<"%char ∉ list_ascii_of_string text ->
  release_role text cfg = Problematic "Must specify release date!".
Proof.
  intros Hlt. unfold release_role, year_arg_re.
  destruct text as [|c text]; [done|].
  simpl in Hlt. apply not_elem_of_cons in Hlt as [_ Hlt].
  by rewrite year_arg_scan_no_bracket.
Qed.

Lemma release_role_requires_a_date_witness :
  release_role "1.0.2" sample_config = Problematic "Must specify release date!".
Proof.
  apply release_role_requires_a_date.
  intros H. repeat (apply elem_of_cons in H as [[=]|H]). by apply elem_of_nil in H.
Defined.

(** ** Changelogs that cannot go wrong *)

Lemma implicit_release_total r st :
  sentinels (lines st) -> exists st', implicit_release r st = Ok st'.
Proof.
  intros [Hb [features Hf]].
  destruct (lines st !! get_line r) as [bucket|] eqn:Hline.
  - destruct (bugfix_release_total r st bucket Hline Hb) as [lines' ->]. eauto.
  - unfold implicit_release, getitem. rewrite Hline.
    rewrite lookup_insert_ne, Hf; [simpl; eauto|]. intros Heq. congruence.
Qed.

Lemma fan_out_total x (lines : gmap string (list issue_ref)) :
  is_Some (lines !! unreleased_feature) ->
  (type_ (target x) = bug -> major (target x) = false ->
   truthy (line (target x)) = false) ->
  exists lines', fan_out x lines = Ok lines'.
Proof.
  intros [features Hf] Hline.
  assert (exists lines', bucket_append x lines unreleased_feature = Ok lines') as Hone.
  { rewrite (bucket_append_Some _ _ _ _ Hf). eauto. }
  assert (exists lines', foldM (bucket_append x) lines (keys lines) = Ok lines') as Hall.
  { rewrite append_each_keys. eauto. }
  unfold fan_out.
  destruct (type_ (target x)) eqn:Ht; [destruct (major (target x)) eqn:Hm|..].
  - done.
  - rewrite bug_lines_no_min_line by auto. simpl.
    destruct (append_each_lookup x
                (filter (fun k => k ≠ unreleased_feature) (keys lines)) lines)
      as (lines' & -> & _); [| |eauto].
    + apply NoDup_filter, NoDup_keys.
    + intros k [_ Hk]%list_elem_of_filter. by apply elem_of_keys.
  - by destruct (backported (target x)).
  - by destruct (backported (target x)).
Qed.

Lemma step_plain_total i it st :
  sentinels (lines st) -> plain_item it ->
  (forall n, defined_number it = Some n -> issues st !! Some n = None) ->
  exists st',
    step i it st = Ok st' /\
    forall n, (forall m, defined_number it = Some m -> m ≠ n) ->
      truthy (Some n) = true ->
      issues st !! Some n = None -> issues st' !! Some n = None.
Proof.
  intros Hs Hplain Hfresh. unfold step, plain_item, defined_number in *.
  destruct (focus_rest it) as [[focus rest]|e]; [|done]. simpl.
  assert (forall (focus : node),
            (forall r, focus ≠ ReleaseEl r) ->
            (truthy (number (as_issue focus rest)) = true ->
             issues st !! number (as_issue focus rest) = None) ->
            (type_ (as_issue focus rest) = bug -> major (as_issue focus rest) = false ->
             truthy (line (as_issue focus rest)) = false) ->
            exists st',
              issue_branch i focus rest st = Ok st' /\
              forall n, (truthy (number (as_issue focus rest)) = true ->
                         number (as_issue focus rest) ≠ Some n) ->
                truthy (Some n) = true ->
                issues st !! Some n = None -> issues st' !! Some n = None) as Hissue.
  { intros focus' _ Hdup Hline.
    destruct (fan_out_total (IssueRef i (as_issue focus' rest)) (lines st))
      as [lines' Hfan]; [apply Hs | done |].
    eexists. split.
    - by apply issue_branch_fresh.
    - simpl. intros n Hn Htn Hnone.
      rewrite lookup_insert_ne; [done|]. intros Heq.
      apply Hn; [|done]. by rewrite Heq. }
  destruct focus as [s|tag attrs children|iss|r].
  - destruct (Hissue (Text s)) as (st' & -> & Hk); try done.
    exists st'. split; [done|]. intros n _. by apply Hk.
  - destruct (Hissue (Elem tag attrs children)) as (st' & -> & Hk); try done.
    exists st'. split; [done|]. intros n _. by apply Hk.
  - destruct (Hissue (IssueEl iss)) as (st' & -> & Hk); try done.
    + simpl. intros Ht. destruct (number iss) as [n|] eqn:Hn; [|done].
      apply Hfresh. by rewrite Ht.
    + exists st'. split; [done|]. intros n Hn. apply Hk. simpl.
      intros Ht Heq. apply (Hn n); [|done]. by rewrite Ht.
  - subst rest. unfold release_branch. simpl.
    destruct (implicit_release_total r st Hs) as [st' Hst'].
    exists st'. split; [done|]. intros n _ _ Hnone.
    unfold implicit_release in Hst'.
    destruct (lines st !! get_line r) as [bucket|];
      inv_bind_as Hst' lines2 Hlines2; by injection Hst' as <-.
Qed.

Lemma defined_number_truthy it n : defined_number it = Some n -> truthy (Some n) = true.
Proof.
  unfold defined_number.
  destruct (focus_rest it) as [[[| |iss|] rest]|]; try done.
  destruct (truthy (number iss)) eqn:Ht; [|done]. by intros <-.
Qed.

Lemma loop_plain_total items i st :
  sentinels (lines st) -> Forall plain_item items ->
  NoDup (omap defined_number items) ->
  (forall n, n ∈ omap defined_number items -> issues st !! Some n = None) ->
  exists st', loop items i st = Ok st'.
Proof.
  revert i st. induction items as [|it items IH]; intros i st Hs Hplain Hnd Hfresh.
  - simpl. eauto.
  - apply Forall_cons in Hplain as [Hit Hplain]. simpl in *.
    destruct (step_plain_total i it st Hs Hit) as (st1 & Hstep & Hkeep).
    { intros n Hn. apply Hfresh. rewrite Hn. by left. }
    rewrite Hstep. simpl. apply IH; [by eapply step_sentinels|done| |].
    + destruct (defined_number it); [by apply NoDup_cons in Hnd as [_ ?] | done].
    + intros n Hn. apply Hkeep.
      * intros m Hm ->. rewrite Hm in Hnd. by apply NoDup_cons in Hnd as [? _].
      * apply list_elem_of_omap in Hn as (it' & _ & Hn). by eapply defined_number_truthy.
      * apply Hfresh. destruct (defined_number it); [by right | done].
Qed.

Lemma construct_releases_of_loop items app st :
  loop (reverse items) 0 initial = Ok st ->
  exists rs, construct_releases items app = Ok rs.
Proof.
  intros Hloop.
  destruct (loop_sentinels _ _ _ _ Hloop initial_sentinels) as [[b Hb] [f Hf]].
  unfold construct_releases, faux_release, getitem. rewrite Hloop. simpl.
  change ("unreleased_" +:+ "bugfix") with unreleased_bugfix.
  change ("unreleased_" +:+ "feature") with unreleased_feature.
  rewrite Hb. simpl. rewrite Hf. simpl. eauto.
Qed.

Lemma markers_reverse items r : r ∈ markers (reverse items) <-> r ∈ markers items.
Proof.
  unfold markers. rewrite !list_elem_of_omap.
  split; intros (it & Hit & Hr); exists it; split; auto;
    by apply elem_of_reverse.
Qed.

(** X23.  A changelog of the common kind cannot go wrong: when every item
    is a list item holding a paragraph, no release lists issues, no regular
    bug names a minimum line and no non-empty issue number is defined twice,
    [construct_releases] returns its releases. *)
Theorem plain_changelog_cannot_raise items app :
  Forall plain_item items -> NoDup (omap defined_number items) ->
  exists rs, construct_releases items app = Ok rs.
Proof.
  intros Hplain Hnd.
  destruct (loop_plain_total (reverse items) 0 initial) as [st Hloop].
  - apply initial_sentinels.
  - by apply Forall_reverse.
  - by rewrite reverse_Permutation.
  - intros n _. apply lookup_empty.
  - by eapply construct_releases_of_loop.
Qed.

Lemma plain_changelog_cannot_raise_witness :
  exists rs,
    construct_releases (reverse (scenario_1 sample_config [Text " Fix it"])) sample_config
    = Ok rs.
Proof.
  apply plain_changelog_cannot_raise.
  - apply Forall_reverse. repeat constructor.
  - rewrite reverse_Permutation. apply NoDup_singleton.
Defined.

(** X24.  [generate_changelog] on a changelog document of the common kind:
    when the first child of the document is named [changelog], its second
    child is the bullet list, the items are of the common kind and every
    release marker carries its section, the call cannot raise; the bullet
    list is replaced by the nodes [construct_nodes] builds from the releases
    of [construct_releases], and the first child of the source, what follows
    the list and the rest of the document are kept.  A document whose first
    child is not named [changelog] is left as it is. *)
Theorem generate_changelog_replaces_the_list
    app dtag dattrs stag sattrs first ltag lattrs items later others :
  ("names", "changelog") ∈ sattrs ->
  Forall plain_item items -> NoDup (omap defined_number items) ->
  (forall r, r ∈ markers items ->
     exists tag attrs children rest,
       release_nodelist r = Elem tag attrs children :: rest) ->
  (exists rs nodes rs',
     construct_releases items app = Ok rs /\
     construct_nodes rs = Ok (nodes, rs') /\
     generate_changelog app
       (Elem dtag dattrs
          (Elem stag sattrs (first :: Elem ltag lattrs items :: later) :: others))
     = Ok (Elem dtag dattrs (Elem stag sattrs (first :: nodes ++ later) :: others))) /\
  (forall tag attrs children,
     ("names", "changelog") ∉ attrs ->
     generate_changelog app (Elem dtag dattrs (Elem tag attrs children :: others))
     = Ok (Elem dtag dattrs (Elem tag attrs children :: others))).
Proof.
  intros Hname Hplain Hnd Hmarkers. split.
  - destruct (loop_plain_total (reverse items) 0 initial) as [st Hloop].
    { apply initial_sentinels. }
    { by apply Forall_reverse. }
    { by rewrite reverse_Permutation. }
    { intros n _. apply lookup_empty. }
    destruct (construct_releases_of_loop _ app _ Hloop) as [rs Hrs].
    destruct (construct_nodes_total rs) as (nodes & rs' & Hnodes).
    { eapply Forall_impl; [exact (construct_releases_described _ _ _ Hrs)|].
      intros d [Hdesc [Hmarker|Hsection]]; split; auto.
      apply Hmarkers. by apply markers_reverse. }
    exists rs, nodes, rs'. split; [done|]. split; [done|].
    unfold generate_changelog. rewrite bool_decide_eq_true_2 by done.
    rewrite Hrs. simpl. rewrite Hnodes. done.
  - intros tag attrs children Hno. unfold generate_changelog.
    by rewrite bool_decide_eq_false_2.
Qed.

Lemma generate_changelog_replaces_the_list_witness :
  exists rs nodes rs',
    construct_releases (reverse (scenario_1 sample_config [Text " Fix it"]))
                       sample_config = Ok rs /\
    construct_nodes rs = Ok (nodes, rs') /\
    generate_changelog sample_config
      (Elem "document" []
         [Elem "section" [("names", "changelog")]
            [Elem "title" [] [Text "Changelog"];
             Elem "bullet_list" []
               (reverse (scenario_1 sample_config [Text " Fix it"]));
             Elem "paragraph" [] [Text "The end"]]])
    = Ok (Elem "document" []
            [Elem "section" [("names", "changelog")]
               (Elem "title" [] [Text "Changelog"]
                  :: nodes ++ [Elem "paragraph" [] [Text "The end"]])]).
Proof.
  refine (proj1 (generate_changelog_replaces_the_list
                   sample_config "document" [] "section" [("names", "changelog")]
                   (Elem "title" [] [Text "Changelog"]) "bullet_list" []
                   (reverse (scenario_1 sample_config [Text " Fix it"]))
                   [Elem "paragraph" [] [Text "The end"]] [] _ _ _ _)).
  - apply list_elem_of_here.
  - apply Forall_reverse. repeat constructor.
  - rewrite reverse_Permutation. apply NoDup_singleton.
  - intros r Hr%markers_reverse. vm_compute in Hr.
    apply elem_of_cons in Hr as [->|Hr]; [eexists _, _, _, _; reflexivity|].
    exfalso. exact (proj1 (elem_of_nil _) Hr).
Defined.
